(** * CodeGitAssistant: branch-graph service and commit-graph layout engine

    A shallow embedding of
    - [src/services/git-service.ts]: [parseGitLogToCommitMap],
      [enforceCommitLimit], [buildBranchGraphFromCommitMap],
      [buildFullBranchGraph], [buildBranchGraphIncrementally],
      [tryBuildIncrementalBranchGraph], [getBranchGraph];
    - the graph view component: [getAvailableColour], the classes [Vertex]
      and [Branch], and [determinePath] with its outer scan and completion
      sweep inside [buildGraphData].

    JavaScript strings are modelled as [string]: a sequence of code units
    below 256.  A JavaScript [Map] is an association list in insertion
    order, a [Set] a duplicate-free list in insertion order, an array a
    list, a number that stays integral a [Z] next to [NaN]: the integers
    are exact, as the doubles of the source are up to 2^53.  The plain
    object [commitLookup] of the graph view is a lookup that never finds
    the key [__proto__]. *)

From Stdlib Require Import String Ascii ZArith Lia List Bool Arith.
From stdpp Require Import base list strings.
Import ListNotations.
Open Scope string_scope.
Open Scope nat_scope.
Open Scope list_scope.

(* ================================================================== *)
(** * Part I: definitions *)
(* ================================================================== *)

(** ** JavaScript string primitives *)

(** [WhiteSpace] and [LineTerminator] code units below 256: TAB, LF, VT,
    FF, CR, SP and NBSP.  [String.prototype.trim] and the regular
    expression class [\s] use the same set. *)
Definition isWhiteSpace (c : ascii) : bool :=
  let n := nat_of_ascii c in
  ((9 <=? n) && (n <=? 13)) || (n =? 32) || (n =? 160).

Arguments isWhiteSpace : simpl never.

(** A string is falsy exactly when it is empty. *)
Definition truthy (s : string) : bool :=
  match s with EmptyString => false | String _ _ => true end.

Fixpoint trimStart (s : string) : string :=
  match s with
  | EmptyString => EmptyString
  | String c s' => if isWhiteSpace c then trimStart s' else s
  end.

Fixpoint trimEnd (s : string) : string :=
  match s with
  | EmptyString => EmptyString
  | String c s' =>
      match trimEnd s' with
      | EmptyString => if isWhiteSpace c then EmptyString else String c EmptyString
      | t => String c t
      end
  end.

(** [s.trim()] *)
Definition trim (s : string) : string := trimEnd (trimStart s).

(** Puts a code unit in front of the first piece of a split. *)
Definition consHead (c : ascii) (l : list string) : list string :=
  match l with
  | [] => [String c EmptyString]
  | t :: ts => String c t :: ts
  end.

(** [s.split(sep)] for a separator of one code unit. *)
Fixpoint splitChar (sep : ascii) (s : string) : list string :=
  match s with
  | EmptyString => [EmptyString]
  | String c s' =>
      if Ascii.eqb c sep then EmptyString :: splitChar sep s'
      else consHead c (splitChar sep s')
  end.

Definition startsWithWs (s : string) : bool :=
  match s with
  | EmptyString => false
  | String c _ => isWhiteSpace c
  end.

(** [s.split(/\s+/)]: the pieces between maximal runs of white space; a
    run at either end leaves an empty piece there. *)
Fixpoint splitWs (s : string) : list string :=
  match s with
  | EmptyString => [EmptyString]
  | String c s' =>
      if isWhiteSpace c then
        if startsWithWs s' then splitWs s' else EmptyString :: splitWs s'
      else consHead c (splitWs s')
  end.

(** [s.startsWith(p)] *)
Definition startsWith (p s : string) : bool := String.prefix p s.

Fixpoint dropChars (n : nat) (s : string) : string :=
  match n, s with
  | O, _ => s
  | S _, EmptyString => EmptyString
  | S n', String _ s' => dropChars n' s'
  end.

(** [s.replace(pat, rep)] for a string pattern: the first occurrence only.
    The replacement is taken literally (the source passes ['']). *)
Fixpoint replaceFirst (pat rep s : string) : string :=
  match s with
  | EmptyString => if String.prefix pat EmptyString then rep else EmptyString
  | String c s' =>
      if String.prefix pat s then String.append rep (dropChars (String.length pat) s)
      else String c (replaceFirst pat rep s')
  end.

(** ** JavaScript numbers, as far as the service uses them *)

Inductive jsnum : Type :=
  | NaN
  | Num (z : Z).

Definition jsnum_eqb (a b : jsnum) : bool :=
  match a, b with
  | NaN, NaN => true
  | Num x, Num y => Z.eqb x y
  | _, _ => false
  end.

Definition isDigit (c : ascii) : bool :=
  let n := nat_of_ascii c in (48 <=? n) && (n <=? 57).

Definition digitVal (c : ascii) : Z := Z.of_nat (nat_of_ascii c) - 48.
Arguments isDigit : simpl never.
Arguments digitVal : simpl never.

(** The longest prefix of decimal digits, read from the left with the
    value so far in [acc]; [seen] tells whether a digit was read. *)
Fixpoint readDigits (s : string) (acc : Z) (seen : bool) : option Z :=
  match s with
  | EmptyString => if seen then Some acc else None
  | String c s' =>
      if isDigit c then readDigits s' (acc * 10 + digitVal c) true
      else if seen then Some acc else None
  end.

(** [parseInt(s, 10)]: leading white space, an optional sign, then the
    longest run of digits; [NaN] when there is no digit.  Exact for values
    up to 2^53. *)
Definition parseInt10 (s : string) : jsnum :=
  match trimStart s with
  | EmptyString => NaN
  | String c r =>
      if Ascii.eqb c "-" then
        match readDigits r 0 false with Some v => Num (- v) | None => NaN end
      else if Ascii.eqb c "+" then
        match readDigits r 0 false with Some v => Num v | None => NaN end
      else
        match readDigits (String c r) 0 false with Some v => Num v | None => NaN end
  end.

Definition jsMul (a : jsnum) (k : Z) : jsnum :=
  match a with NaN => NaN | Num z => Num (z * k) end.

(** ** [Map<string, V>]: entries in insertion order *)

Section JsMap.
Context {V : Type}.

Definition JsMap := list (string * V).

Definition map_size (m : JsMap) : nat := length m.
Definition map_keys (m : JsMap) : list string := map fst m.
Definition map_values (m : JsMap) : list V := map snd m.

Fixpoint map_get (m : JsMap) (k : string) : option V :=
  match m with
  | [] => None
  | (k', v) :: m' => if String.eqb k' k then Some v else map_get m' k
  end.

Definition map_has (m : JsMap) (k : string) : bool :=
  match map_get m k with Some _ => true | None => false end.

(** [m.set(k, v)]: a present key keeps its place, a new key goes last. *)
Fixpoint map_set (m : JsMap) (k : string) (v : V) : JsMap :=
  match m with
  | [] => [(k, v)]
  | (k', v') :: m' =>
      if String.eqb k' k then (k, v) :: m' else (k', v') :: map_set m' k v
  end.

(** [m.delete(k)] *)
Fixpoint map_delete (m : JsMap) (k : string) : JsMap :=
  match m with
  | [] => []
  | (k', v') :: m' =>
      if String.eqb k' k then m' else (k', v') :: map_delete m' k
  end.
End JsMap.
Arguments JsMap : clear implicits.

(** [new Set(xs)]: first occurrences, in order. *)
Definition set_has (s : list string) (x : string) : bool :=
  existsb (String.eqb x) s.

Definition set_add (s : list string) (x : string) : list string :=
  if set_has s x then s else s ++ [x].

Definition newSet (xs : list string) : list string :=
  fold_left set_add xs [].

(** ** The service: [git-service.ts] *)

Record CommitNodeInfo : Type := mkCommitNodeInfo {
  hash : string;
  parents : list string;
  timestamp : jsnum;
  branches : list string  (* a [Set<string>] *)
}.

Definition BRANCH_GRAPH_MAX_COMMITS : nat := 800.

(** The key the [for (const key of commits.keys())] loop leaves in
    [lastKey]; [None] is [undefined]. *)
Definition lastKeyOf (commits : JsMap CommitNodeInfo) : option string :=
  fold_left (fun _ key => Some key) (map_keys commits) None.

(** The [while] loop of [enforceCommitLimit]; every turn that does not
    leave the loop deletes one entry, so [fuel] bounds the turns. *)
Fixpoint enforceLoop (fuel limit : nat) (commits : JsMap CommitNodeInfo)
  : JsMap CommitNodeInfo :=
  match fuel with
  | O => commits
  | S fuel' =>
      if limit <? map_size commits then
        match lastKeyOf commits with
        | None => commits
        | Some lastKey =>
            if truthy lastKey
            then enforceLoop fuel' limit (map_delete commits lastKey)
            else commits
        end
      else commits
  end.

(** [enforceCommitLimit(commits)], with the limit the source reads from
    [GitService.BRANCH_GRAPH_MAX_COMMITS] as a parameter. *)
Definition enforceCommitLimit (limit : nat) (commits : JsMap CommitNodeInfo)
  : JsMap CommitNodeInfo :=
  enforceLoop (map_size commits) limit commits.

(** *** [parseGitLogToCommitMap] *)

Definition NUL : ascii := ascii_of_nat 0.
Definition LF : ascii := ascii_of_nat 10.

(** The body of the [for (const line of logLines)] loop; [now] is what
    [Date.now()] returns during this turn. *)
Definition parseLine (now : Z) (commits : JsMap CommitNodeInfo) (line : string)
  : JsMap CommitNodeInfo :=
  let parts := splitChar NUL line in
  if length parts <? 4 then commits
  else
    let hash := trim (nth 0 parts "") in
    if negb (truthy hash) then commits
    else
      let parentStr := trim (nth 1 parts "") in
      let refStr := trim (nth 2 parts "") in
      let timestampStr := trim (nth 3 parts "") in
      let parents :=
        if truthy parentStr
        then List.filter (fun p => truthy (trim p)) (splitWs parentStr)
        else [] in
      let refs :=
        if truthy refStr
        then List.filter truthy (map trim (splitChar "," refStr))
        else [] in
      let branchNames :=
        map (fun r => replaceFirst "refs/heads/" "" r)
            (List.filter (startsWith "refs/heads/") refs) in
      let timestamp :=
        if truthy timestampStr
        then jsMul (parseInt10 timestampStr) 1000
        else Num now in
      map_set commits hash
        {| hash := hash; parents := parents; timestamp := timestamp;
           branches := newSet branchNames |}.

(** The loop over [logLines]; [clock i] is the reading of [Date.now()]
    while line [i] is handled. *)
Fixpoint parseLines (clock : nat -> Z) (i : nat) (lines : list string)
    (commits : JsMap CommitNodeInfo) : JsMap CommitNodeInfo :=
  match lines with
  | [] => commits
  | line :: rest => parseLines clock (S i) rest (parseLine (clock i) commits line)
  end.

Definition logLinesOf (logOutput : string) : list string :=
  List.filter (fun line => truthy (trim line)) (splitChar LF (trim logOutput)).

Definition parseGitLogToCommitMap (clock : nat -> Z) (logOutput : string)
  : JsMap CommitNodeInfo :=
  if negb (truthy logOutput) || negb (truthy (trim logOutput)) then []
  else parseLines clock 0 (logLinesOf logOutput) [].

(** *** [buildBranchGraphFromCommitMap] *)

Record BranchSummary : Type := mkBranchSummary {
  bs_all : list string;
  bs_current : string
}.

Inductive MergeType : Type := ThreeWay | FastForward.

Definition MergeType_eqb (a b : MergeType) : bool :=
  match a, b with
  | ThreeWay, ThreeWay | FastForward, FastForward => true
  | _, _ => false
  end.

(** The [description] template literals: a fixed label, then
    [from], an arrow and [to]. *)
Inductive Description : Type :=
  | ThreeWayText (from to : string)
  | FastForwardText (from to : string).

Record MergeEdge : Type := mkMergeEdge {
  m_from : string;
  m_to : string;
  m_commit : string;
  m_type : MergeType;
  m_description : option Description;
  m_timestamp : option jsnum
}.

Record DagNode : Type := mkDagNode {
  n_hash : string;
  n_parents : list string;
  n_branches : list string;
  n_timestamp : jsnum;
  n_isMerge : bool
}.

Record DagLink : Type := mkDagLink {
  l_source : string;
  l_target : string
}.

Record BranchGraphDag : Type := mkDag {
  nodes : list DagNode;
  links : list DagLink
}.

Record BranchGraphData : Type := mkBranchGraphData {
  g_branches : list string;
  g_merges : list MergeEdge;
  g_currentBranch : option string;  (* [None] is [undefined] *)
  g_dag : option BranchGraphDag
}.

Definition localBranches (bs : BranchSummary) : list string :=
  List.filter (fun b => negb (startsWith "remotes/" b)) (bs_all bs).

(** [toBranchCandidates] *)
Definition toBranchCandidates (commitNode firstParentNode secondParentNode : CommitNodeInfo)
  : list string :=
  List.filter
    (fun branch => set_has (branches firstParentNode) branch
                   && negb (set_has (branches secondParentNode) branch))
    (branches commitNode).

(** [fromBranchCandidates] *)
Definition fromBranchCandidates (commitNode firstParentNode secondParentNode : CommitNodeInfo)
  : list string :=
  let toCands := toBranchCandidates commitNode firstParentNode secondParentNode in
  List.filter
    (fun branch =>
       if set_has (branches firstParentNode) branch
       then set_has (branches commitNode) branch && negb (set_has toCands branch)
       else true)
    (branches secondParentNode).

Definition hasMerge (merges : list MergeEdge) (from to : string) : bool :=
  existsb (fun m => String.eqb (m_from m) from && String.eqb (m_to m) to) merges.

(** One turn of [for (const [commitHash, commitNode] of commits.entries())]. *)
Definition mergeStep (commits : JsMap CommitNodeInfo) (currentBranch : string)
    (merges : list MergeEdge) (entry : string * CommitNodeInfo) : list MergeEdge :=
  let '(commitHash, commitNode) := entry in
  if 2 <=? length (parents commitNode) then
    match map_get commits (nth 0 (parents commitNode) ""),
          map_get commits (nth 1 (parents commitNode) "") with
    | Some firstParentNode, Some secondParentNode =>
        let toCands := toBranchCandidates commitNode firstParentNode secondParentNode in
        let fromCands := fromBranchCandidates commitNode firstParentNode secondParentNode in
        match toCands, fromCands with
        | to0 :: _, fromBranch :: _ =>
            let toBranch := if set_has toCands currentBranch then currentBranch else to0 in
            if negb (String.eqb fromBranch toBranch) then
              if hasMerge merges fromBranch toBranch then merges
              else merges ++ [ {| m_from := fromBranch; m_to := toBranch;
                                  m_commit := commitHash; m_type := ThreeWay;
                                  m_description := Some (ThreeWayText fromBranch toBranch);
                                  m_timestamp := Some (timestamp commitNode) |} ]
            else merges
        | _, _ => merges
        end
    | _, _ => merges
    end
  else merges.

(** The merges the loop over the commit map infers. *)
Definition inferMerges (commits : JsMap CommitNodeInfo) (currentBranch : string)
  : list MergeEdge :=
  fold_left (mergeStep commits currentBranch) commits [].

(** One turn of [for (const item of recorded)]. *)
Definition historyStep (allBranches : list string) (merges : list MergeEdge)
    (item : MergeEdge) : list MergeEdge :=
  if negb (MergeType_eqb (m_type item) ThreeWay) then merges
  else if negb (set_has allBranches (m_from item)) || negb (set_has allBranches (m_to item))
  then merges
  else if hasMerge merges (m_from item) (m_to item) then merges
  else merges ++ [item].

(** The two guards of the history loop: a three-way item between two
    branches of [allBranches]. *)
Definition passesHistoryGuards (allBranches : list string) (item : MergeEdge) : bool :=
  MergeType_eqb (m_type item) ThreeWay
  && set_has allBranches (m_from item) && set_has allBranches (m_to item).

Definition dagNodeOf (commit : CommitNodeInfo) : DagNode :=
  {| n_hash := hash commit; n_parents := parents commit;
     n_branches := branches commit; n_timestamp := timestamp commit;
     n_isMerge := 2 <=? length (parents commit) |}.

Definition dagLinksOf (commits : JsMap CommitNodeInfo) : list DagLink :=
  flat_map (fun entry : string * CommitNodeInfo =>
              map (fun parent => {| l_source := parent; l_target := fst entry |})
                  (parents (snd entry)))
           commits.

(** [recorded] is what [MergeHistory.getHistory()] gives; [None] when it
    throws, which the [try] around it swallows. *)
Definition buildBranchGraphFromCommitMap (recorded : option (list MergeEdge))
    (commits : JsMap CommitNodeInfo) (branchSummary : BranchSummary)
  : BranchGraphData :=
  let allBranches := localBranches branchSummary in
  let currentBranch :=
    if truthy (bs_current branchSummary) then bs_current branchSummary else "main" in
  let merges := inferMerges commits currentBranch in
  let merges :=
    match recorded with
    | Some items => fold_left (historyStep allBranches) items merges
    | None => merges
    end in
  let threeWayMerges := List.filter (fun m => MergeType_eqb (m_type m) ThreeWay) merges in
  {| g_branches := allBranches;
     g_merges := threeWayMerges;
     g_currentBranch := Some currentBranch;
     g_dag := Some {| nodes := map dagNodeOf (map_values commits);
                      links := dagLinksOf commits |} |}.

(** *** The collaborators: git, the workspace storage, the clock *)

(** What the awaited git calls give during one [getBranchGraph]; [None]
    stands for a rejected promise, that is, a thrown exception. *)
Record Git : Type := mkGit {
  git_logAll : option string;                    (* [git.raw(['log','--all',...])] *)
  git_logRange : string -> string -> option string;  (* [git.raw(['log', base..head, ...])] *)
  git_branch : option BranchSummary;             (* [git.branch()] *)
  git_mergeBase : string -> string -> bool;      (* [merge-base --is-ancestor] succeeded *)
  git_revparseHead : option string               (* [git.revparse(['HEAD'])] *)
}.

(** The persisted state of one repository: the snapshots by head hash and
    the index of head hashes.  A stored value is read back as written, and
    a write succeeds. *)
Record Storage : Type := mkStorage {
  st_graphs : list (string * BranchGraphData);
  st_index : list string
}.

(** A call that either returns or throws. *)
Inductive outcome (A : Type) : Type :=
  | Returned (a : A)
  | Thrown.
Arguments Returned {A} a.
Arguments Thrown {A}.

Definition emptyGraph : BranchGraphData :=
  {| g_branches := []; g_merges := []; g_currentBranch := None;
     g_dag := Some {| nodes := []; links := [] |} |}.

Definition currentOrUndefined (bs : BranchSummary) : option string :=
  if truthy (bs_current bs) then Some (bs_current bs) else None.

Section Service.
(** [GitService.BRANCH_GRAPH_MAX_COMMITS], the readings of [Date.now()]
    and the recorded merge history. *)
Variable limit : nat.
Variable clock : nat -> Z.
Variable recorded : option (list MergeEdge).

(** [buildFullBranchGraph]: the whole body sits in [try], so a throwing
    call ends in the [catch] and its empty snapshot. *)
Definition buildFullBranchGraph (git : Git) : BranchGraphData :=
  match git_logAll git with
  | None => emptyGraph
  | Some logOutput =>
      let commits := enforceCommitLimit limit (parseGitLogToCommitMap clock logOutput) in
      match git_branch git with
      | None => emptyGraph
      | Some branchSummary =>
          if map_size commits =? 0 then
            {| g_branches := localBranches branchSummary;
               g_merges := [];
               g_currentBranch := currentOrUndefined branchSummary;
               g_dag := Some {| nodes := []; links := [] |} |}
          else buildBranchGraphFromCommitMap recorded commits branchSummary
      end
  end.

(** [newCommits.forEach((node, hash) => combinedCommits.set(hash, node))] *)
Definition copyCommits (newCommits : JsMap CommitNodeInfo) : JsMap CommitNodeInfo :=
  fold_left (fun acc entry => map_set acc (fst entry) (snd entry)) newCommits [].

(** One turn of [for (const node of baseGraph.dag.nodes)]. *)
Definition addBaseNode (combined : JsMap CommitNodeInfo) (node : DagNode)
  : JsMap CommitNodeInfo :=
  if map_has combined (n_hash node) then combined
  else map_set combined (n_hash node)
         {| hash := n_hash node; parents := n_parents node;
            timestamp := n_timestamp node; branches := newSet (n_branches node) |}.

Definition combineCommits (newCommits : JsMap CommitNodeInfo) (baseNodes : list DagNode)
  : JsMap CommitNodeInfo :=
  fold_left addBaseNode baseNodes (copyCommits newCommits).

(** The new records, then the cached ones whose hash is not among the
    new: what the two loops above make of a cached map without a repeated
    hash. *)
Definition mergedCommits (newCommits cached : JsMap CommitNodeInfo)
  : JsMap CommitNodeInfo :=
  newCommits ++ List.filter (fun entry => negb (map_has newCommits (fst entry))) cached.

(** [buildBranchGraphIncrementally]: only the log call is inside [try];
    [git.branch()] is awaited outside it. *)
Definition buildBranchGraphIncrementally (git : Git) (baseGraph : BranchGraphData)
    (baseHash headHash : string) : outcome (option BranchGraphData) :=
  match g_dag baseGraph with
  | None => Returned None
  | Some dag =>
      match git_logRange git baseHash headHash with
      | None => Returned None
      | Some logOutput =>
          match git_branch git with
          | None => Thrown
          | Some branchSummary =>
              let newCommits := parseGitLogToCommitMap clock logOutput in
              let combinedCommits := combineCommits newCommits (nodes dag) in
              if map_size combinedCommits =? 0 then
                Returned (Some
                  {| g_branches := localBranches branchSummary;
                     g_merges := g_merges baseGraph;
                     g_currentBranch :=
                       if truthy (bs_current branchSummary)
                       then Some (bs_current branchSummary)
                       else g_currentBranch baseGraph;
                     g_dag := g_dag baseGraph |})
              else
                Returned (Some (buildBranchGraphFromCommitMap recorded
                                  (enforceCommitLimit limit combinedCommits)
                                  branchSummary))
          end
      end
  end.

(** [isAncestor] *)
Definition isAncestor (git : Git) (ancestor descendant : string) : bool :=
  if negb (truthy ancestor) || negb (truthy descendant) then false
  else git_mergeBase git ancestor descendant.

(** [loadBranchGraphFromStorage]; the repository id is never empty. *)
Definition loadBranchGraphFromStorage (storage : option Storage) (headHash : string)
  : option BranchGraphData :=
  match storage with
  | None => None
  | Some st => if negb (truthy headHash) then None else map_get (st_graphs st) headHash
  end.

(** [saveBranchGraphToStorage] *)
Definition saveBranchGraphToStorage (storage : option Storage) (headHash : string)
    (data : BranchGraphData) : option Storage :=
  match storage with
  | None => None
  | Some st =>
      if negb (truthy headHash) then Some st
      else Some {| st_graphs := map_set (st_graphs st) headHash data;
                   st_index := if set_has (st_index st) headHash then st_index st
                               else st_index st ++ [headHash] |}
  end.

(** The loop of [tryBuildIncrementalBranchGraph], over the stored head
    hashes from the last one down. *)
Fixpoint tryCandidates (git : Git) (storage : option Storage) (headHash : string)
    (candidates : list string) : outcome (option BranchGraphData) :=
  match candidates with
  | [] => Returned None
  | candidate :: rest =>
      if negb (truthy candidate) || String.eqb candidate headHash
      then tryCandidates git storage headHash rest
      else
        match loadBranchGraphFromStorage storage candidate with
        | None => tryCandidates git storage headHash rest
        | Some baseGraph =>
            match g_dag baseGraph with
            | None => tryCandidates git storage headHash rest
            | Some _ =>
                if negb (isAncestor git candidate headHash)
                then tryCandidates git storage headHash rest
                else
                  match buildBranchGraphIncrementally git baseGraph candidate headHash with
                  | Thrown => Thrown
                  | Returned (Some incremental) => Returned (Some incremental)
                  | Returned None => tryCandidates git storage headHash rest
                  end
            end
        end
  end.

Definition tryBuildIncrementalBranchGraph (git : Git) (storage : option Storage)
    (headHash : string) : outcome (option BranchGraphData) :=
  match storage with
  | None => Returned None
  | Some st =>
      match st_index st with
      | [] => Returned None
      | storedHashes => tryCandidates git storage headHash (rev storedHashes)
      end
  end.

(** [getBranchGraph]: [cached] is what the in-memory cache holds within
    its time to live, [git] is [None] when [ensureGit] throws.  The
    result comes with the storage as the call leaves it. *)
Definition getBranchGraph (cached : option BranchGraphData) (git : option Git)
    (storage : option Storage) (forceRefresh : bool)
  : outcome (BranchGraphData * option Storage) :=
  match (if forceRefresh then None else cached) with
  | Some data => Returned (data, storage)
  | None =>
      match git with
      | None => Thrown
      | Some git =>
          let headHash :=
            match git_revparseHead git with
            | Some out => trim out
            | None => ""
            end in
          let tryPersisted :=
            if negb forceRefresh && truthy headHash
            then loadBranchGraphFromStorage storage headHash else None in
          match tryPersisted with
          | Some persisted => Returned (persisted, storage)
          | None =>
              let tryIncremental :=
                if negb forceRefresh && truthy headHash
                then tryBuildIncrementalBranchGraph git storage headHash
                else Returned None in
              match tryIncremental with
              | Thrown => Thrown
              | Returned (Some incrementalGraph) =>
                  Returned (incrementalGraph,
                            saveBranchGraphToStorage storage headHash incrementalGraph)
              | Returned None =>
                  let fullGraph := buildFullBranchGraph git in
                  Returned (fullGraph,
                            if truthy headHash
                            then saveBranchGraphToStorage storage headHash fullGraph
                            else storage)
              end
          end
      end
  end.
End Service.

(** ** The log normalizer, as the specification words it *)

Definition startsWithNonWs (s : string) : bool :=
  match s with
  | EmptyString => false
  | String c _ => negb (isWhiteSpace c)
  end.

(** The non-empty white-space-separated tokens of a field: its maximal
    runs of code units that are not white space. *)
Fixpoint wsTokens (s : string) : list string :=
  match s with
  | EmptyString => []
  | String c s' =>
      if isWhiteSpace c then wsTokens s'
      else if startsWithNonWs s' then consHead c (wsTokens s')
      else String c EmptyString :: wsTokens s'
  end.

(** A ref populates [branches] only when prefixed [refs/heads/], and
    then with the prefix stripped. *)
Definition branchOfRef (r : string) : option string :=
  if startsWith "refs/heads/" r then Some (dropChars 11 r) else None.

(** The trimmed, non-empty pieces of the comma-separated refs field. *)
Definition refsOfField (field : string) : list string :=
  List.filter truthy (map trim (splitChar "," (trim field))).

Fixpoint allDigits (s : string) : bool :=
  match s with
  | EmptyString => true
  | String c s' => isDigit c && allDigits s'
  end.

(** The number a string of decimal digits denotes, by position. *)
Fixpoint decimalValue (s : string) : Z :=
  match s with
  | EmptyString => 0
  | String c s' => digitVal c * 10 ^ Z.of_nat (String.length s') + decimalValue s'
  end.

(** The record of a line with the four fields [f0] to [f3]. *)
Definition recordOfFields (now : Z) (f0 f1 f2 f3 : string) : CommitNodeInfo :=
  {| hash := trim f0;
     parents := wsTokens f1;
     timestamp := if truthy (trim f3) then jsMul (parseInt10 (trim f3)) 1000 else Num now;
     branches := newSet (omap branchOfRef (refsOfField f2)) |}.

(** A line the loop drops: fewer than four fields, or an empty hash
    field.  (Blank lines are filtered out before the loop.) *)
Definition malformedLine (line : string) : bool :=
  (length (splitChar NUL line) <? 4)
  || negb (truthy (trim (nth 0 (splitChar NUL line) ""))).

(** Every code unit of the string is white space. *)
Fixpoint allWs (s : string) : bool :=
  match s with
  | EmptyString => true
  | String c s' => isWhiteSpace c && allWs s'
  end.

(** The fields of a line as the loop reads them, trimmed. *)
Definition fieldsOf (line : string) : list string := map trim (splitChar NUL line).

(** The hash field of a line. *)
Definition hashOfLine (line : string) : string := trim (nth 0 (splitChar NUL line) "").

(** ** Merge inference, as the specification words it *)

(** "Names in parent 2's set not already claimed as to". *)
Definition claimedFromCandidates (commitNode firstParentNode secondParentNode : CommitNodeInfo)
  : list string :=
  List.filter
    (fun branch =>
       negb (set_has (toBranchCandidates commitNode firstParentNode secondParentNode) branch))
    (branches secondParentNode).

(** The edge one merge vertex puts forward: both of its first two parents
    are loaded, both candidate lists are non-empty, the checked-out branch
    is preferred among the "to" candidates, and [from = to] is skipped. *)
Definition proposedEdge (commits : JsMap CommitNodeInfo) (currentBranch : string)
    (entry : string * CommitNodeInfo) : option MergeEdge :=
  let commitNode := snd entry in
  if 2 <=? length (parents commitNode) then
    match map_get commits (nth 0 (parents commitNode) ""),
          map_get commits (nth 1 (parents commitNode) "") with
    | Some p1, Some p2 =>
        match toBranchCandidates commitNode p1 p2, fromBranchCandidates commitNode p1 p2 with
        | to0 :: tos, from0 :: _ =>
            let toBranch :=
              if set_has (to0 :: tos) currentBranch then currentBranch else to0 in
            if String.eqb from0 toBranch then None
            else Some {| m_from := from0; m_to := toBranch; m_commit := fst entry;
                         m_type := ThreeWay;
                         m_description := Some (ThreeWayText from0 toBranch);
                         m_timestamp := Some (timestamp commitNode) |}
        | _, _ => None
        end
    | _, _ => None
    end
  else None.

Definition pairOf (e : MergeEdge) : string * string := (m_from e, m_to e).

Definition pair_eqb (p q : string * string) : bool :=
  String.eqb (fst p) (fst q) && String.eqb (snd p) (snd q).

(** Keeps, of the edges in row order, the first one of every
    [(from, to)] pair that is not in [seen]. *)
Fixpoint keepFirstPerPair (seen : list (string * string)) (edges : list MergeEdge)
  : list MergeEdge :=
  match edges with
  | [] => []
  | e :: es =>
      if existsb (fun p => pair_eqb p (pairOf e)) seen
      then keepFirstPerPair seen es
      else e :: keepFirstPerPair (seen ++ [pairOf e]) es
  end.

(** ** The graph view: [Vertex], [Branch], [determinePath] *)

(** A reference to a vertex object: [nullVertex], whose [id] is [-1], or
    the vertex of a row.  [option vref] adds JavaScript's [null]. *)
Inductive vref : Type :=
  | Sentinel
  | Real (row : nat).

Definition vref_eqb (a b : vref) : bool :=
  match a, b with
  | Sentinel, Sentinel => true
  | Real i, Real j => i =? j
  | _, _ => false
  end.

(** [a === b] on [Vertex | null]. *)
Definition sameVertex (a b : option vref) : bool :=
  match a, b with
  | None, None => true
  | Some x, Some y => vref_eqb x y
  | _, _ => false
  end.

Record Point : Type := mkPoint { px : nat; py : nat }.

Record Line : Type := mkLine {
  p1 : Point;
  p2 : Point;
  l_isCommitted : bool;
  lockedFirst : bool
}.

(** A [Branch] object is referred to by its place in the [branches] array;
    a branch under construction has the place it is pushed to when
    [determinePath] ends. *)
Record UnavailablePoint : Type := mkUnavailablePoint {
  connectsTo : option vref;
  up_onBranch : nat
}.

Record Branch : Type := mkBranch {
  colorIndex : nat;
  b_end : nat;
  b_lines : list Line
}.

Record Vertex : Type := mkVertex {
  v_id : nat;
  v_x : nat;
  v_children : list nat;
  v_parents : list vref;
  nextParent : nat;
  onBranch : option nat;
  v_isCommitted : bool;
  isCurrent : bool;
  nextX : nat;
  connections : list (option UnavailablePoint)  (* [None] is a hole *)
}.

(** [new Vertex(id)] *)
Definition newVertex (id : nat) : Vertex :=
  {| v_id := id; v_x := 0; v_children := []; v_parents := []; nextParent := 0;
     onBranch := None; v_isCommitted := true; isCurrent := false; nextX := 0;
     connections := [] |}.

Global Instance Vertex_inhabited : Inhabited Vertex := populate (newVertex 0).

Definition addChild (child : nat) (v : Vertex) : Vertex :=
  {| v_id := v_id v; v_x := v_x v; v_children := v_children v ++ [child];
     v_parents := v_parents v; nextParent := nextParent v; onBranch := onBranch v;
     v_isCommitted := v_isCommitted v; isCurrent := isCurrent v; nextX := nextX v;
     connections := connections v |}.

Definition addParent (parent : vref) (v : Vertex) : Vertex :=
  {| v_id := v_id v; v_x := v_x v; v_children := v_children v;
     v_parents := v_parents v ++ [parent]; nextParent := nextParent v;
     onBranch := onBranch v; v_isCommitted := v_isCommitted v;
     isCurrent := isCurrent v; nextX := nextX v; connections := connections v |}.

Definition setCurrent (v : Vertex) : Vertex :=
  {| v_id := v_id v; v_x := v_x v; v_children := v_children v;
     v_parents := v_parents v; nextParent := nextParent v; onBranch := onBranch v;
     v_isCommitted := v_isCommitted v; isCurrent := true; nextX := nextX v;
     connections := connections v |}.

Definition getNextParent (v : Vertex) : option vref := v_parents v !! nextParent v.

Definition registerParentProcessed (v : Vertex) : Vertex :=
  {| v_id := v_id v; v_x := v_x v; v_children := v_children v;
     v_parents := v_parents v; nextParent := S (nextParent v); onBranch := onBranch v;
     v_isCommitted := v_isCommitted v; isCurrent := isCurrent v; nextX := nextX v;
     connections := connections v |}.

Definition isMerge (v : Vertex) : bool := 1 <? length (v_parents v).

Definition isNotOnBranch (v : Vertex) : bool :=
  match onBranch v with None => true | Some _ => false end.

Definition addToBranch (branch : nat) (x : nat) (v : Vertex) : Vertex :=
  match onBranch v with
  | None =>
      {| v_id := v_id v; v_x := x; v_children := v_children v;
         v_parents := v_parents v; nextParent := nextParent v; onBranch := Some branch;
         v_isCommitted := v_isCommitted v; isCurrent := isCurrent v; nextX := nextX v;
         connections := connections v |}
  | Some _ => v
  end.

Definition getPoint (v : Vertex) : Point := {| px := v_x v; py := v_id v |}.
Definition getNextPoint (v : Vertex) : Point := {| px := nextX v; py := v_id v |}.

(** The scan of [getPointConnectingTo], from slot [i] on. *)
Fixpoint findConnection (conns : list (option UnavailablePoint)) (i : nat)
    (target : option vref) (branch : nat) : option nat :=
  match conns with
  | [] => None
  | conn :: rest =>
      match conn with
      | Some c =>
          if sameVertex (connectsTo c) target && (up_onBranch c =? branch)
          then Some i
          else findConnection rest (S i) target branch
      | None => findConnection rest (S i) target branch
      end
  end.

Definition getPointConnectingTo (v : Vertex) (target : option vref) (branch : nat)
  : option Point :=
  match findConnection (connections v) 0 target branch with
  | Some i => Some {| px := i; py := v_id v |}
  | None => None
  end.

(** [connections[x] = c], after [connections.length = x + 1] when the
    array is too short. *)
Definition setSlot (x : nat) (c : UnavailablePoint)
    (conns : list (option UnavailablePoint)) : list (option UnavailablePoint) :=
  if length conns <=? x
  then conns ++ replicate (x - length conns) None ++ [Some c]
  else <[x := Some c]> conns.

Definition registerUnavailablePoint (x : nat) (connectsToVertex : option vref)
    (branch : nat) (v : Vertex) : Vertex :=
  if x =? nextX v then
    {| v_id := v_id v; v_x := v_x v; v_children := v_children v;
       v_parents := v_parents v; nextParent := nextParent v; onBranch := onBranch v;
       v_isCommitted := v_isCommitted v; isCurrent := isCurrent v; nextX := x + 1;
       connections :=
         setSlot x {| connectsTo := connectsToVertex; up_onBranch := branch |}
                 (connections v) |}
  else v.

Definition addLine (a b : Point) (committed locked : bool) (br : Branch) : Branch :=
  {| colorIndex := colorIndex br; b_end := b_end br;
     b_lines := b_lines br ++ [ {| p1 := a; p2 := b; l_isCommitted := committed;
                                   lockedFirst := locked |} ] |}.

(** The first slot [i], counted from [i0], with [startAt > colors[i]]. *)
Fixpoint firstFreeColour (startAt : nat) (colors : list nat) (i0 : nat) : option nat :=
  match colors with
  | [] => None
  | c :: rest =>
      if c <? startAt then Some i0 else firstFreeColour startAt rest (S i0)
  end.

(** [getAvailableColour]: the colour index, and the array as the call
    leaves it. *)
Definition getAvailableColour (startAt : nat) (availableColors : list nat)
  : nat * list nat :=
  match firstFreeColour startAt availableColors 0 with
  | Some i => (i, availableColors)
  | None => (length availableColors, availableColors ++ [0])
  end.

(** The arrays [determinePath] works on. *)
Record Layout : Type := mkLayout {
  vertices : list Vertex;
  graphBranches : list Branch;
  availableColors : list nat
}.

Definition committedAt (vs : list Vertex) (row : nat) : bool :=
  v_isCommitted (vs !!! row).

(** The [for] loop of the merge case: [rows] rows are left from row [i]
    on.  It ends at the first row that resolves the connection. *)
Fixpoint mergeScan (rows i startAt parentRow parentBranch : nat) (lastPoint : Point)
    (vs : list Vertex) (brs : list Branch) : list Vertex * list Branch :=
  match rows with
  | O => (vs, brs)
  | S rows' =>
      let curVertex := vs !!! i in
      let existingPoint :=
        getPointConnectingTo curVertex (Some (Real parentRow)) parentBranch in
      let '(curPoint, foundPointToParent) :=
        match existingPoint with
        | Some pt => (pt, true)
        | None =>
            if i =? parentRow then (getPoint curVertex, true)
            else (getNextPoint curVertex, false)
        end in
      let locked :=
        if negb foundPointToParent && negb (i =? parentRow)
        then px lastPoint <? px curPoint else true in
      let brs1 :=
        alter (addLine lastPoint curPoint (committedAt vs startAt) locked)
              parentBranch brs in
      let vs1 :=
        alter (registerUnavailablePoint (px curPoint) (Some (Real parentRow)) parentBranch)
              i vs in
      if foundPointToParent
      then (alter registerParentProcessed startAt vs1, brs1)
      else mergeScan rows' (S i) startAt parentRow parentBranch curPoint vs1 brs1
  end.

(** What the [for] loop of the normal case leaves behind: the loop
    variable, [vertex], [parentVertex], the lines of the new branch and the
    vertices. *)
Record ScanResult : Type := mkScanResult {
  sr_i : nat;
  sr_vertex : nat;
  sr_parent : option vref;
  sr_lines : list Line;
  sr_vertices : list Vertex
}.

Fixpoint normalScan (rows i vertex : nat) (parentVertex : option vref)
    (lastPoint : Point) (branch : nat) (lines : list Line) (vs : list Vertex)
  : ScanResult :=
  match rows with
  | O => {| sr_i := i; sr_vertex := vertex; sr_parent := parentVertex;
            sr_lines := lines; sr_vertices := vs |}
  | S rows' =>
      let curVertex := vs !!! i in
      let isParent := sameVertex parentVertex (Some (Real i)) in
      let curPoint :=
        if isParent && negb (isNotOnBranch curVertex)
        then getPoint curVertex else getNextPoint curVertex in
      let lines1 :=
        lines ++ [ {| p1 := lastPoint; p2 := curPoint;
                      l_isCommitted := committedAt vs vertex;
                      lockedFirst := px lastPoint <? px curPoint |} ] in
      let vs1 := alter (registerUnavailablePoint (px curPoint) parentVertex branch) i vs in
      if isParent then
        let vs2 := alter registerParentProcessed vertex vs1 in
        let parentVertexOnBranch := negb (isNotOnBranch (vs2 !!! i)) in
        let vs3 := alter (addToBranch branch (px curPoint)) i vs2 in
        let parentVertex' := getNextParent (vs3 !!! i) in
        if match parentVertex' with None => true | Some _ => false end
           || parentVertexOnBranch
        then {| sr_i := i; sr_vertex := i; sr_parent := parentVertex';
                sr_lines := lines1; sr_vertices := vs3 |}
        else normalScan rows' (S i) i parentVertex' curPoint branch lines1 vs3
      else normalScan rows' (S i) vertex parentVertex curPoint branch lines1 vs1
  end.

(** The merge case applies to a bound merge vertex whose next parent is a
    loaded, bound vertex; it yields that parent's row. *)
Definition mergeParent (vs : list Vertex) (vertex : Vertex) : option nat :=
  match getNextParent vertex with
  | Some (Real parentRow) =>
      if isMerge vertex && negb (isNotOnBranch vertex)
         && negb (isNotOnBranch (vs !!! parentRow))
      then Some parentRow else None
  | _ => None
  end.

(** [determinePath(startAt)] *)
Definition determinePath (startAt : nat) (st : Layout) : Layout :=
  let vs := vertices st in
  let vertex := vs !!! startAt in
  let parentVertex := getNextParent vertex in
  let lastPoint := if isNotOnBranch vertex then getNextPoint vertex else getPoint vertex in
  match mergeParent vs vertex with
  | Some parentRow =>
      let parentBranch := default 0 (onBranch (vs !!! parentRow)) in
      let '(vs', brs') :=
        mergeScan (length vs - S startAt) (S startAt) startAt parentRow parentBranch
                  lastPoint vs (graphBranches st) in
      {| vertices := vs'; graphBranches := brs'; availableColors := availableColors st |}
  | None =>
      let '(branchColorIndex, colors1) := getAvailableColour startAt (availableColors st) in
      let branch := length (graphBranches st) in
      let vs1 :=
        alter (fun v => registerUnavailablePoint (px lastPoint) (Some (Real startAt)) branch
                          (addToBranch branch (px lastPoint) v))
              startAt vs in
      let r := normalScan (length vs - S startAt) (S startAt) startAt parentVertex
                          lastPoint branch [] vs1 in
      let vs2 :=
        if (sr_i r =? length vs) && sameVertex (sr_parent r) (Some Sentinel)
        then alter registerParentProcessed (sr_vertex r) (sr_vertices r)
        else sr_vertices r in
      {| vertices := vs2;
         graphBranches :=
           graphBranches st
           ++ [ {| colorIndex := branchColorIndex; b_end := sr_i r;
                   b_lines := sr_lines r |} ];
         availableColors := <[branchColorIndex := sr_i r]> colors1 |}
  end.

(** The guard of the outer scan. *)
Definition needsPath (v : Vertex) : bool :=
  match getNextParent v with Some _ => true | None => isNotOnBranch v end.

(** The outer [while] loop; [None] when [fuel] turns do not finish it. *)
Fixpoint outerScan (fuel i : nat) (st : Layout) : option Layout :=
  match fuel with
  | O => None
  | S fuel' =>
      if i <? length (vertices st) then
        if needsPath (vertices st !!! i)
        then outerScan fuel' i (determinePath i st)
        else outerScan fuel' (S i) st
      else Some st
  end.

(** The body of the completion sweep for an unbound vertex of row [i]. *)
Definition sweepStep (i : nat) (st : Layout) : Layout :=
  let vertex := vertices st !!! i in
  let '(branchColorIndex, colors1) := getAvailableColour i (availableColors st) in
  let branch := length (graphBranches st) in
  let point := getNextPoint vertex in
  {| vertices :=
       alter (fun v => registerUnavailablePoint (px point) (Some (Real i)) branch
                         (addToBranch branch (px point) v))
             i (vertices st);
     graphBranches :=
       graphBranches st
       ++ [ {| colorIndex := branchColorIndex; b_end := i + 1; b_lines := [] |} ];
     availableColors := <[branchColorIndex := i]> colors1 |}.

(** The completion sweep over [rows] rows from row [i] on. *)
Fixpoint completionSweep (rows i : nat) (st : Layout) : Layout :=
  match rows with
  | O => st
  | S rows' =>
      if isNotOnBranch (vertices st !!! i)
      then completionSweep rows' (S i) (sweepStep i st)
      else completionSweep rows' (S i) st
  end.

(** ** The graph view: from the dag to vertices, and the layout run *)

(** A commit of the log, as far as [buildGraphData] reads it. *)
Record CommitInfo : Type := mkCommitInfo {
  ci_hash : string;
  ci_parents : list string;
  ci_branches : list string
}.

(** A value of [nodeMap]. *)
Record NodeEntry : Type := mkNodeEntry {
  ne_hash : string;
  ne_branches : list string;
  ne_parents : list string;
  ne_timestamp : Z
}.

(** [t || 0] for a timestamp. *)
Definition orZero (t : jsnum) : Z :=
  match t with NaN => 0 | Num z => z end.

Definition commitMapOf (commits : list CommitInfo) : JsMap CommitInfo :=
  fold_left (fun acc commit => map_set acc (ci_hash commit) commit) commits [].

Definition nodeMapOf (commitMap : JsMap CommitInfo) (dagNodes : list DagNode)
  : JsMap NodeEntry :=
  fold_left
    (fun acc node =>
       let fallbackParents :=
         match map_get commitMap (n_hash node) with
         | Some c => ci_parents c | None => [] end in
       let fallbackBranches :=
         match map_get commitMap (n_hash node) with
         | Some c => ci_branches c | None => [] end in
       map_set acc (n_hash node)
         {| ne_hash := n_hash node;
            ne_branches := match n_branches node with
                           | [] => fallbackBranches | bs => bs end;
            ne_parents := match n_parents node with
                          | [] => fallbackParents | ps => ps end;
            ne_timestamp := orZero (n_timestamp node) |})
    dagNodes [].

(** [Array.prototype.sort] with the comparator [b.timestamp - a.timestamp]:
    a stable sort, newest first. *)
Fixpoint insertByTime (e : string * NodeEntry) (sorted : list (string * NodeEntry))
  : list (string * NodeEntry) :=
  match sorted with
  | [] => [e]
  | x :: rest =>
      if (ne_timestamp (snd e) <? ne_timestamp (snd x))%Z
      then x :: insertByTime e rest
      else e :: x :: rest
  end.

Definition sortByTime (entries : list (string * NodeEntry)) : list (string * NodeEntry) :=
  fold_right insertByTime [] entries.

(** The first row of [sortedHashes] that carries [h], rows counted from
    [i0]. *)
Fixpoint indexOfHash (sortedHashes : list string) (i0 : nat) (h : string) : option nat :=
  match sortedHashes with
  | [] => None
  | x :: rest => if String.eqb x h then Some i0 else indexOfHash rest (S i0) h
  end.

(** The one key a plain object does not store: [obj['__proto__'] = i] with
    a number [i] leaves the object as it was, and [obj['__proto__']] reads
    [Object.prototype]. *)
Definition PROTO_KEY : string := "__proto__".

(** [commitLookup[hash]], where it is a number.  [commitLookup] is a plain
    object filled by [commitLookup[hash] = i] over the sorted rows, not a
    [Map]: the key [__proto__] is never stored and reads as an object; any
    other hash reads as the row that carries it, and where no row does as
    [undefined] or, for a name inherited from [Object.prototype], as a
    function.  Only a number passes [typeof parentIndex === 'number']. *)
Definition commitLookup (sortedHashes : list string) (i0 : nat) (h : string) : option nat :=
  if String.eqb h PROTO_KEY then None else indexOfHash sortedHashes i0 h.

(** One turn of [node.parents.forEach] for the vertex of row [i]. *)
Definition wireParent (sortedHashes : list string) (i : nat) (vs : list Vertex)
    (parentHash : string) : list Vertex :=
  match commitLookup sortedHashes 0 parentHash with
  | Some parentIndex =>
      alter (addChild i) parentIndex (alter (addParent (Real parentIndex)) i vs)
  | None => alter (addParent Sentinel) i vs
  end.

Fixpoint wireRows (sortedHashes : list string) (i : nat)
    (rows : list (string * NodeEntry)) (vs : list Vertex) : list Vertex :=
  match rows with
  | [] => vs
  | (_, node) :: rest =>
      wireRows sortedHashes (S i) rest
               (fold_left (wireParent sortedHashes i) (ne_parents node) vs)
  end.

(** The vertices as [determinePath] finds them: one per sorted row, the
    parent and child edges wired, the current commit marked.  The current
    commit is a row of the table, so [commitLookup] reads a number for it
    unless its hash is [__proto__]; for that one key the source indexes
    [vertices] with an object and throws, where no vertex is marked
    here. *)
Definition buildVertices (commits : list CommitInfo) (dagNodes : list DagNode)
    (currentBranch : option string) : list Vertex :=
  let rows := sortByTime (nodeMapOf (commitMapOf commits) dagNodes) in
  let sortedHashes := map fst rows in
  let vs := wireRows sortedHashes 0 rows (map newVertex (seq 0 (length rows))) in
  match currentBranch with
  | Some cur =>
      if truthy cur then
        match List.find (fun row => set_has (ne_branches (snd row)) cur) rows with
        | Some (currentHash, _) =>
            if truthy currentHash then
              match commitLookup sortedHashes 0 currentHash with
              | Some i => alter setCurrent i vs
              | None => vs
              end
            else vs
        | None => vs
        end
      else vs
  | None => vs
  end.

Definition initLayout (vs : list Vertex) : Layout :=
  {| vertices := vs; graphBranches := []; availableColors := [] |}.

(** The outer scan followed by the completion sweep. *)
Definition runLayout (fuel : nat) (vs : list Vertex) : option Layout :=
  match outerScan fuel 0 (initLayout vs) with
  | Some st => Some (completionSweep (length (vertices st)) 0 st)
  | None => None
  end.

(** What a commit node keeps of the layout. *)
Record NodeLayout : Type := mkNodeLayout {
  nl_x : nat;
  nl_colorIndex : nat
}.

Definition nodeLayoutOf (st : Layout) (v : Vertex) : NodeLayout :=
  {| nl_x := v_x v;
     nl_colorIndex :=
       match onBranch v with
       | Some b => match graphBranches st !! b with
                   | Some br => colorIndex br
                   | None => 0
                   end
       | None => 0
       end |}.

(** The layout [buildGraphData] computes when the log and the dag are
    not empty: the per-row [{x, colorIndex}] and the branches with their
    lines. *)
Definition layoutGraph (fuel : nat) (commits : list CommitInfo)
    (dagNodes : list DagNode) (currentBranch : option string)
  : option (list NodeLayout * list Branch) :=
  match runLayout fuel (buildVertices commits dagNodes currentBranch) with
  | Some st => Some (map (nodeLayoutOf st) (vertices st), graphBranches st)
  | None => None
  end.

(** [buildGraphData], as far as the layout goes: nothing for an empty
    log, track 0 and colour 0 for every commit when there is no dag, and the
    computed layout otherwise. *)
Definition buildGraphData (fuel : nat) (commits : list CommitInfo)
    (dagNodes : list DagNode) (currentBranch : option string)
  : option (list NodeLayout * list Branch) :=
  match commits, dagNodes with
  | [], _ => Some ([], [])
  | _ :: _, [] =>
      Some (map (fun _ => {| nl_x := 0; nl_colorIndex := 0 |}) commits, [])
  | _ :: _, _ :: _ => layoutGraph fuel commits dagNodes currentBranch
  end.

(** ** Colour allocation, as the specification words it *)

(** "First slot [i] with [startAt > availableColors[i]] (strict); else
    append a new slot": [c] is the slot handed out and [colors'] the array
    afterwards. *)
Definition firstFit (startAt : nat) (colors : list nat) (c : nat) (colors' : list nat)
  : Prop :=
  (exists e, colors !! c = Some e /\ e < startAt
             /\ (forall j ej, j < c -> colors !! j = Some ej -> startAt <= ej)
             /\ colors' = colors)
  \/ (c = length colors
      /\ (forall j ej, colors !! j = Some ej -> startAt <= ej)
      /\ colors' = colors ++ [0]).

(** Every branch has a slot, and the slot records a row not before the
    branch's end. *)
Definition coloursCover (st : Layout) : Prop :=
  Forall (fun b => exists e, availableColors st !! colorIndex b = Some e /\ b_end b <= e)
         (graphBranches st).

(** The layouts a run passes through: the initial one, and the one after
    each call of [determinePath] on a row whose vertex needs a path. *)
Inductive reachable (vs0 : list Vertex) : Layout -> Prop :=
  | reach_init : reachable vs0 (initLayout vs0)
  | reach_step st i :
      reachable vs0 st ->
      i < length (vertices st) ->
      needsPath (vertices st !!! i) = true ->
      reachable vs0 (determinePath i st).

(** ** Predicates and measures of the statements *)

(** No key of the map is the empty string: what the guard [if (!hash)
    continue] of the parser establishes for every map it builds. *)
Definition keysNonEmpty (m : JsMap CommitNodeInfo) : Prop :=
  Forall (fun k => k <> "") (map_keys m).

(** The representation invariant of a commit map: a [Map] holds a key
    once, and the parser lets no empty hash in. *)
Definition wellKeyed (m : JsMap CommitNodeInfo) : Prop :=
  NoDup (map_keys m) /\ keysNonEmpty m.

Global Instance keysNonEmpty_dec m : Decision (keysNonEmpty m).
Proof. unfold keysNonEmpty. apply _. Defined.

Global Instance wellKeyed_dec m : Decision (wellKeyed m).
Proof. unfold wellKeyed. apply _. Defined.

(** No code unit of the string is white space. *)
Fixpoint noWs (s : string) : bool :=
  match s with
  | EmptyString => true
  | String c s' => negb (isWhiteSpace c) && noWs s'
  end.

(** Every entry sits under its own hash. *)
Definition keyedByHash (m : JsMap CommitNodeInfo) : Prop :=
  Forall (fun entry => hash (snd entry) = fst entry) m.

(** The head hash [getBranchGraph] works with. *)
Definition headHashOf (git : Git) : string :=
  match git_revparseHead git with
  | Some out => trim out
  | None => ""
  end.

(** Every record's branch list is a set: listing it and building the set
    again gives the same list. *)
Definition branchesAreSets (m : JsMap CommitNodeInfo) : Prop :=
  Forall (fun entry => newSet (branches (snd entry)) = branches (snd entry)) m.

(** The two snapshots agree on branches, merges, nodes and links. *)
Definition sameGraph (g1 g2 : BranchGraphData) : Prop :=
  g_branches g1 = g_branches g2
  /\ g_merges g1 = g_merges g2
  /\ exists d1 d2, g_dag g1 = Some d1 /\ g_dag g2 = Some d2
                   /\ nodes d1 = nodes d2 /\ links d1 = links d2.

(** The hash and branch list of every node of a snapshot. *)
Definition nodeBranches (g : BranchGraphData) : list (string * list string) :=
  match g_dag g with
  | Some dag => map (fun n => (n_hash n, n_branches n)) (nodes dag)
  | None => []
  end.

(** [v'] is a later state of the vertex object [v]: same row, same
    parents, the parent cursor not moved back, and a binding made in [v] is
    the binding in [v']. *)
Definition keepsBinding (v v' : Vertex) : Prop :=
  v_id v' = v_id v
  /\ v_parents v' = v_parents v
  /\ nextParent v <= nextParent v'
  /\ forall b, onBranch v = Some b -> onBranch v' = Some b /\ v_x v' = v_x v.

Definition keepsBindings (vs vs' : list Vertex) : Prop := Forall2 keepsBinding vs vs'.

(** Every vertex is bound. *)
Definition allBound (vs : list Vertex) : Prop :=
  Forall (fun v => isNotOnBranch v = false) vs.

(** The colours and ends of the branches, without their lines. *)
Definition branchSpans (brs : list Branch) : list (nat * nat) :=
  map (fun b => (colorIndex b, b_end b)) brs.




(** ** Sample inputs *)

(** A root commit without refs. *)
Definition sampleCommit (h : string) : CommitNodeInfo :=
  {| hash := h; parents := []; timestamp := Num 0; branches := [] |}.

(** Three commits, inserted newest first as the log lists them. *)
Definition threeCommits : JsMap CommitNodeInfo :=
  [("c3", sampleCommit "c3"); ("c2", sampleCommit "c2"); ("c1", sampleCommit "c1")].

(** A raw log of five records, a linear history. *)
Definition fiveLines : string :=
  String.concat (String LF "")
    [String.concat (String NUL "") ["e5"; "d4"; ""; "500"];
     String.concat (String NUL "") ["d4"; "c3"; ""; "400"];
     String.concat (String NUL "") ["c3"; "b2"; ""; "300"];
     String.concat (String NUL "") ["b2"; "a1"; ""; "200"];
     String.concat (String NUL "") ["a1"; ""; ""; "100"]].

(** A merge [c4] of [c3] and [c2]; the name [x] sits on both parents and
    not on the merge. *)
Definition mergeCommit : CommitNodeInfo :=
  {| hash := "c4"; parents := ["c3"; "c2"]; timestamp := Num 400000;
     branches := ["main"] |}.
Definition firstParent : CommitNodeInfo :=
  {| hash := "c3"; parents := ["c1"]; timestamp := Num 300000;
     branches := ["main"; "x"] |}.
Definition secondParent : CommitNodeInfo :=
  {| hash := "c2"; parents := ["c1"]; timestamp := Num 200000;
     branches := ["x"] |}.
Definition mergeMap : JsMap CommitNodeInfo :=
  [("c4", mergeCommit); ("c3", firstParent); ("c2", secondParent)].

(** The same merge with its second parent outside the loaded window. *)
Definition truncatedMap : JsMap CommitNodeInfo :=
  [("c4", mergeCommit); ("c3", firstParent)].

(** An item of the recorded merge history for that merge commit. *)
Definition recordedMerge : MergeEdge :=
  {| m_from := "x"; m_to := "main"; m_commit := "c4"; m_type := ThreeWay;
     m_description := None; m_timestamp := Some (Num 400000) |}.

(** A raw log with a full record, a blank line, a line of one field and
    a record without parents, refs and timestamp. *)
Definition sampleLog : string :=
  String.concat (String LF "")
    [String.concat (String NUL "")
       ["c2"; "c1  c0"; "HEAD -> refs/heads/main, refs/heads/dev, refs/tags/v1"; "1700000000"];
     "";
     "garbage";
     String.concat (String NUL "") ["c1"; ""; ""; ""]].

(** One record: [c2], child of [c1], with [main] on it. *)
Definition oneCommitLog : string :=
  String.concat (String NUL "") ["c2"; "c1"; "refs/heads/main"; "200"].

(** A stored snapshot of the head [c1]. *)
Definition baseSnapshot : BranchGraphData :=
  {| g_branches := ["main"]; g_merges := []; g_currentBranch := Some "main";
     g_dag := Some {| nodes := [ {| n_hash := "c1"; n_parents := []; n_branches := [];
                                    n_timestamp := Num 100000; n_isMerge := false |} ];
                      links := [] |} |}.

Definition storedAtC1 : option Storage :=
  Some {| st_graphs := [("c1", baseSnapshot)]; st_index := ["c1"] |}.

(** HEAD is at [c2]; the range log of the incremental path throws, the
    log of the full rebuild works. *)
Definition gitRangeFails : Git :=
  {| git_logAll := Some oneCommitLog;
     git_logRange := fun _ _ => None;
     git_branch := Some {| bs_all := ["main"]; bs_current := "main" |};
     git_mergeBase := fun _ _ => true;
     git_revparseHead := Some "c2" |}.

(** A log record from its fields. *)
Definition logLine (fields : list string) : string := String.concat (String NUL "") fields.

Definition twoBranches : list string := ["main"; "feature"].

(** H1: HEAD is on [main] at [c1]; [feature] points at [c1] too. *)
Definition gitAtC1 : Git :=
  {| git_logAll :=
       Some (logLine ["c1"; ""; "HEAD -> refs/heads/main, refs/heads/feature"; "100"]);
     git_logRange := fun _ _ => Some "";
     git_branch := Some {| bs_all := twoBranches; bs_current := "main" |};
     git_mergeBase := fun _ _ => false;
     git_revparseHead := Some "c1" |}.

(** H2: [feature] was checked out and [c2] committed on it, so HEAD went
    from [c1] to its child [c2]; [c1] is now decorated with [main] only. *)
Definition gitAtC2 : Git :=
  {| git_logAll :=
       Some (String.concat (String LF "")
               [logLine ["c2"; "c1"; "HEAD -> refs/heads/feature"; "200"];
                logLine ["c1"; ""; "refs/heads/main"; "100"]]);
     git_logRange := fun baseHash headHash =>
       if String.eqb baseHash "c1" && String.eqb headHash "c2"
       then Some (logLine ["c2"; "c1"; "HEAD -> refs/heads/feature"; "200"])
       else None;
     git_branch := Some {| bs_all := twoBranches; bs_current := "feature" |};
     git_mergeBase := fun a d => String.eqb a "c1" && String.eqb d "c2";
     git_revparseHead := Some "c2" |}.

(** A clock for logs in which every record has its timestamp. *)
Definition noClock : nat -> Z := fun _ => 0%Z.

(** The snapshot the full rebuild stores at H1. *)
Definition cachedAtC1 : BranchGraphData :=
  buildFullBranchGraph BRANCH_GRAPH_MAX_COMMITS noClock None gitAtC1.

(** H1 and H2 of a history in which only HEAD's own branch moved: [dev]
    stays on [c1]. *)
Definition gitDevAtC1 : Git :=
  {| git_logAll :=
       Some (logLine ["c1"; ""; "HEAD -> refs/heads/main, refs/heads/dev"; "100"]);
     git_logRange := fun _ _ => Some "";
     git_branch := Some {| bs_all := ["main"; "dev"]; bs_current := "main" |};
     git_mergeBase := fun _ _ => false;
     git_revparseHead := Some "c1" |}.

Definition gitDevAtC2 : Git :=
  {| git_logAll :=
       Some (String.concat (String LF "")
               [logLine ["c2"; "c1"; "HEAD -> refs/heads/main"; "200"];
                logLine ["c1"; ""; "refs/heads/dev"; "100"]]);
     git_logRange := fun _ _ =>
       Some (logLine ["c2"; "c1"; "HEAD -> refs/heads/main"; "200"]);
     git_branch := Some {| bs_all := ["main"; "dev"]; bs_current := "main" |};
     git_mergeBase := fun _ _ => true;
     git_revparseHead := Some "c2" |}.

(** H1 and H2 of a history of three commits under a limit of two: the
    full log, cut by [--max-count], shows [c1] and [c0] at H1 and [c2] and
    [c1] at H2. *)
Definition gitWindowAtC1 : Git :=
  {| git_logAll :=
       Some (String.concat (String LF "")
               [logLine ["c1"; "c0"; "HEAD -> refs/heads/main, refs/heads/dev"; "100"];
                logLine ["c0"; ""; ""; "50"]]);
     git_logRange := fun _ _ => Some "";
     git_branch := Some {| bs_all := ["main"; "dev"]; bs_current := "main" |};
     git_mergeBase := fun _ _ => false;
     git_revparseHead := Some "c1" |}.

Definition gitWindowAtC2 : Git :=
  {| git_logAll :=
       Some (String.concat (String LF "")
               [logLine ["c2"; "c1"; "HEAD -> refs/heads/main"; "200"];
                logLine ["c1"; "c0"; "refs/heads/dev"; "100"]]);
     git_logRange := fun _ _ =>
       Some (logLine ["c2"; "c1"; "HEAD -> refs/heads/main"; "200"]);
     git_branch := Some {| bs_all := ["main"; "dev"]; bs_current := "main" |};
     git_mergeBase := fun _ _ => true;
     git_revparseHead := Some "c2" |}.

(** A child committed with an earlier timestamp than its parent: the sort
    by time puts the parent [c1] on row 0 and the child [c2] on row 1. *)
Definition skewedDag : list DagNode :=
  [ {| n_hash := "c2"; n_parents := ["c1"]; n_branches := ["main"];
       n_timestamp := Num 100000; n_isMerge := false |};
    {| n_hash := "c1"; n_parents := []; n_branches := [];
       n_timestamp := Num 200000; n_isMerge := false |} ].

Definition skewedLog : list CommitInfo :=
  [ {| ci_hash := "c2"; ci_parents := ["c1"]; ci_branches := ["main"] |};
    {| ci_hash := "c1"; ci_parents := []; ci_branches := [] |} ].

(** The vertices once both rows are bound: row 1 still has its parent,
    row 0, to process. *)
Definition stuckVertices : list Vertex :=
  [ {| v_id := 0; v_x := 0; v_children := [1]; v_parents := []; nextParent := 0;
       onBranch := Some 0; v_isCommitted := true; isCurrent := false; nextX := 1;
       connections := [Some {| connectsTo := Some (Real 0); up_onBranch := 0 |}] |};
    {| v_id := 1; v_x := 1; v_children := []; v_parents := [Real 0]; nextParent := 0;
       onBranch := Some 1; v_isCommitted := true; isCurrent := true; nextX := 2;
       connections := [Some {| connectsTo := None; up_onBranch := 0 |};
                       Some {| connectsTo := Some (Real 1); up_onBranch := 1 |}] |} ].

(** A linear chain of three commits. *)
Definition linearDag : list DagNode :=
  [ {| n_hash := "c3"; n_parents := ["c2"]; n_branches := ["main"];
       n_timestamp := Num 300000; n_isMerge := false |};
    {| n_hash := "c2"; n_parents := ["c1"]; n_branches := [];
       n_timestamp := Num 200000; n_isMerge := false |};
    {| n_hash := "c1"; n_parents := []; n_branches := [];
       n_timestamp := Num 100000; n_isMerge := false |} ].

Definition linearLog : list CommitInfo :=
  [ {| ci_hash := "c3"; ci_parents := ["c2"]; ci_branches := ["main"] |} ].

(** Its layout: one branch, one colour, two lines. *)
Definition linearLayout : list NodeLayout * list Branch :=
  ([ {| nl_x := 0; nl_colorIndex := 0 |}; {| nl_x := 0; nl_colorIndex := 0 |};
     {| nl_x := 0; nl_colorIndex := 0 |} ],
   [ {| colorIndex := 0; b_end := 2;
        b_lines := [ {| p1 := {| px := 0; py := 0 |}; p2 := {| px := 0; py := 1 |};
                        l_isCommitted := true; lockedFirst := false |};
                     {| p1 := {| px := 0; py := 1 |}; p2 := {| px := 0; py := 2 |};
                        l_isCommitted := true; lockedFirst := false |} ] |} ]).

(** A commit on its root, and a second root below them. *)
Definition twoRootsDag : list DagNode :=
  [ {| n_hash := "a1"; n_parents := ["a0"]; n_branches := ["main"];
       n_timestamp := Num 300000; n_isMerge := false |};
    {| n_hash := "a0"; n_parents := []; n_branches := [];
       n_timestamp := Num 200000; n_isMerge := false |};
    {| n_hash := "r0"; n_parents := []; n_branches := [];
       n_timestamp := Num 100000; n_isMerge := false |} ].

Definition twoRoots : list Vertex := buildVertices linearLog twoRootsDag None.

(** The layout of [twoRoots] once the path from row 0 is drawn. *)
Definition firstRootDone : Layout := determinePath 0 (initLayout twoRoots).

Definition linearVertices : list Vertex :=
  buildVertices linearLog linearDag (Some "main").

(** A lone root commit, and a commit whose parent is outside the loaded
    window. *)
Definition orphanDag : list DagNode :=
  [ {| n_hash := "r0"; n_parents := []; n_branches := [];
       n_timestamp := Num 100000; n_isMerge := false |} ].

Definition truncatedDag : list DagNode :=
  [ {| n_hash := "c9"; n_parents := ["c8"]; n_branches := [];
       n_timestamp := Num 900000; n_isMerge := false |} ].

(** A merge [m] of [a] and [b], where [a] is itself a child of [b]. *)
Definition triangleDag : list DagNode :=
  [ {| n_hash := "m"; n_parents := ["a"; "b"]; n_branches := [];
       n_timestamp := Num 300000; n_isMerge := true |};
    {| n_hash := "a"; n_parents := ["b"]; n_branches := [];
       n_timestamp := Num 200000; n_isMerge := false |};
    {| n_hash := "b"; n_parents := []; n_branches := [];
       n_timestamp := Num 100000; n_isMerge := false |} ].

(** ** The in-memory cache of the service *)

(** [CacheItem<T>] *)
Record CacheItem (D : Type) : Type := mkCacheItem {
  c_data : D;
  c_timestamp : Z;
  c_ttl : Z
}.
Arguments mkCacheItem {D} _ _ _.
Arguments c_data {D} _.
Arguments c_timestamp {D} _.
Arguments c_ttl {D} _.

(** [key.includes(pattern)] *)
Fixpoint includes (pattern s : string) : bool :=
  String.prefix pattern s
  || match s with
     | EmptyString => false
     | String _ s' => includes pattern s'
     end.

Section Cache.
Context {D : Type}.

Definition Cache := JsMap (CacheItem D).

(** [getCached(key)] when [Date.now()] reads [now]; the result comes with
    the cache as the call leaves it, [None] is [null]. *)
Definition getCached (now : Z) (cache : Cache) (key : string) : option D * Cache :=
  match map_get cache key with
  | None => (None, cache)
  | Some item =>
      if (now - c_timestamp item >? c_ttl item)%Z
      then (None, map_delete cache key)
      else (Some (c_data item), cache)
  end.

(** [setCache(key, data, ttl)] when [Date.now()] reads [now]. *)
Definition setCache (now : Z) (cache : Cache) (key : string) (data : D) (ttl : Z) : Cache :=
  map_set cache key {| c_data := data; c_timestamp := now; c_ttl := ttl |}.

(** [invalidateCache(pattern)]; [None] is a call without argument.  The
    loop visits the keys the map holds and deletes the matching ones. *)
Definition invalidateCache (pattern : option string) (cache : Cache) : Cache :=
  match pattern with
  | None => []
  | Some p =>
      if negb (truthy p) then []
      else fold_left (fun c key => if includes p key then map_delete c key else c)
                     (map_keys cache) cache
  end.

(** [invalidateAllCache()] *)
Definition invalidateAllCache (cache : Cache) : Cache := [].

(** [clearBranchGraphCache()]: the memory entries first, then every
    snapshot the index lists (an update with [undefined] removes the
    key), then the index itself. *)
Definition clearBranchGraphCache (cache : Cache) (storage : option Storage)
  : Cache * option Storage :=
  (invalidateCache (Some "branchGraph") cache,
   match storage with
   | None => None
   | Some st =>
       Some {| st_graphs := fold_left (fun graphs h => map_delete graphs h)
                                      (st_index st) (st_graphs st);
               st_index := [] |}
   end).
End Cache.
Arguments Cache : clear implicits.

(** [CACHE_TTL.branchGraph] *)
Definition CACHE_TTL_branchGraph : Z := 10000%Z.

Section CachedService.
Variable limit : nat.
Variable clock : nat -> Z.
Variable recorded : option (list MergeEdge).

(** [getBranchGraph] with the cache it reads and writes: [now] is the
    reading of [Date.now()] in [getCached], [now'] the one in [setCache].
    The result comes with the cache as the call leaves it. *)
Definition getBranchGraphWithCache (now now' : Z) (cache : Cache BranchGraphData)
    (git : option Git) (storage : option Storage) (forceRefresh : bool)
  : outcome (BranchGraphData * option Storage) * Cache BranchGraphData :=
  let '(cached, cache1) :=
    if forceRefresh then (None, cache) else getCached now cache "branchGraph" in
  match cached with
  | Some data => (Returned (data, storage), cache1)
  | None =>
      match getBranchGraph limit clock recorded None git storage forceRefresh with
      | Thrown => (Thrown, cache1)
      | Returned (graph, storage') =>
          (Returned (graph, storage'),
           setCache now' cache1 "branchGraph" graph CACHE_TTL_branchGraph)
      end
  end.
End CachedService.

(** [getBranchGraphSnapshot]: the cached or the persisted snapshot of the
    current head, never a rebuild. *)
Definition getBranchGraphSnapshot (now : Z) (cache : Cache BranchGraphData)
    (git : option Git) (storage : option Storage)
  : outcome (option BranchGraphData) * Cache BranchGraphData :=
  match getCached now cache "branchGraph" with
  | (Some data, cache1) => (Returned (Some data), cache1)
  | (None, cache1) =>
      match git with
      | None => (Thrown, cache1)
      | Some git =>
          match git_revparseHead git with
          | None => (Returned None, cache1)
          | Some out =>
              let headHash := trim out in
              if negb (truthy headHash) then (Returned None, cache1)
              else (Returned (loadBranchGraphFromStorage storage headHash), cache1)
          end
      end
  end.

(** The index lists exactly the head hashes that have a stored snapshot,
    each once. *)
Definition storageOK (st : Storage) : Prop :=
  NoDup (map_keys (st_graphs st))
  /\ NoDup (st_index st)
  /\ (forall h, h ∈ map_keys (st_graphs st) <-> h ∈ st_index st).

Definition emptyStorage : Storage := {| st_graphs := []; st_index := [] |}.

(** HEAD is at [c2]; the logs work, [git.branch()] throws. *)
Definition gitBranchFails : Git :=
  {| git_logAll := Some oneCommitLog;
     git_logRange := fun _ _ => Some oneCommitLog;
     git_branch := None;
     git_mergeBase := fun _ _ => true;
     git_revparseHead := Some "c2" |}.

(** HEAD is at [c1], and nothing else of the repository can be read. *)
Definition gitOnlyHead : Git :=
  {| git_logAll := None;
     git_logRange := fun _ _ => None;
     git_branch := None;
     git_mergeBase := fun _ _ => false;
     git_revparseHead := Some "c1" |}.

(** The storage after the snapshot of H1 was saved, and the snapshot the
    incremental path builds on it at H2. *)
Definition storedCachedAtC1 : Storage :=
  {| st_graphs := [("c1", cachedAtC1)]; st_index := ["c1"] |}.

Definition incrementalAtC2 : BranchGraphData :=
  match buildBranchGraphIncrementally BRANCH_GRAPH_MAX_COMMITS noClock None gitAtC2
          cachedAtC1 "c1" "c2" with
  | Returned (Some graph) => graph
  | _ => emptyGraph
  end.

(** What [checkout] does to the cache once [git.checkout] has returned,
    and what [merge] does to it once the merge commands have returned. *)
Definition checkoutInvalidations {D : Type} (cache : Cache D) : Cache D :=
  invalidateCache (Some "log")
    (invalidateCache (Some "status") (invalidateCache (Some "branches") cache)).

Definition mergeInvalidations {D : Type} (cache : Cache D) : Cache D :=
  invalidateCache (Some "branchGraph")
    (invalidateCache (Some "log")
       (invalidateCache (Some "status") (invalidateCache (Some "branches") cache))).

(** The cache key of [getLog(maxCount)], with [maxCount] in decimal. *)
Definition logCacheKey (maxCount : string) : string := String.append "log:" maxCount.

(** ** Well-formed snapshots *)

(** A commit map as the parser leaves it: every key once and non-empty,
    every record under its own hash, every branch list without repeats. *)
Definition goodMap (m : JsMap CommitNodeInfo) : Prop :=
  wellKeyed m /\ keyedByHash m
  /\ Forall (fun entry => NoDup (branches (snd entry))) m.

(** The nodes carry distinct non-empty hashes, duplicate-free branch
    lists and a merge flag that says "two parents or more"; the links are
    exactly the parent edges of the nodes, each from the parent hash to
    the node. *)
Definition wellFormedDag (dag : BranchGraphDag) : Prop :=
  NoDup (map n_hash (nodes dag))
  /\ Forall (fun n => n_hash n <> "" /\ NoDup (n_branches n)
                      /\ n_isMerge n = (2 <=? length (n_parents n)))
            (nodes dag)
  /\ forall l, l ∈ links dag
       <-> exists n, n ∈ nodes dag /\ l_target l = n_hash n /\ l_source l ∈ n_parents n.

(** A snapshot with a well-formed dag, no remote-tracking name among its
    branches, and three-way merges only, one per (from, to) pair. *)
Definition wellFormedSnapshot (g : BranchGraphData) : Prop :=
  (exists dag, g_dag g = Some dag /\ wellFormedDag dag)
  /\ Forall (fun b => startsWith "remotes/" b = false) (g_branches g)
  /\ Forall (fun e => m_type e = ThreeWay) (g_merges g)
  /\ NoDup (map pairOf (g_merges g)).

(** Every stored snapshot is well formed. *)
Definition storedWellFormed (storage : option Storage) : Prop :=
  match storage with
  | Some st => Forall (fun entry => wellFormedSnapshot (snd entry)) (st_graphs st)
  | None => True
  end.

(** ** Predicates on the rows and vertices of the graph view *)

(** The rows are in the order of the sort: a later row is not newer. *)
Definition newestFirst (rows : list (string * NodeEntry)) : Prop :=
  forall i j a b, i < j -> rows !! i = Some a -> rows !! j = Some b ->
    (ne_timestamp (snd b) <= ne_timestamp (snd a))%Z.

Fixpoint sortedDesc (rows : list (string * NodeEntry)) : Prop :=
  match rows with
  | [] => True
  | x :: rest =>
      Forall (fun y => (ne_timestamp (snd y) <= ne_timestamp (snd x))%Z) rest
      /\ sortedDesc rest
  end.

(** The entries with the timestamp [t], in their order. *)
Definition withTimestamp (t : Z) (rows : list (string * NodeEntry))
  : list (string * NodeEntry) :=
  List.filter (fun row => (ne_timestamp (snd row) =? t)%Z) rows.

(** What [commitLookup] makes of a parent hash: the vertex of its row, or
    the sentinel when the hash is not among the rows. *)
Definition resolveParent (sortedHashes : list string) (parentHash : string) : vref :=
  match commitLookup sortedHashes 0 parentHash with
  | Some parentIndex => Real parentIndex
  | None => Sentinel
  end.

(** The hash the marking of the current commit finds for the checked-out
    branch: that of the first row whose branches include it. *)
Definition currentCommitHash (commits : list CommitInfo) (dagNodes : list DagNode)
    (currentBranch : option string) : option string :=
  match currentBranch with
  | Some cur =>
      if truthy cur then
        match List.find (fun row => set_has (ne_branches (snd row)) cur)
                        (sortByTime (nodeMapOf (commitMapOf commits) dagNodes)) with
        | Some (currentHash, _) => Some currentHash
        | None => None
        end
      else None
  | None => None
  end.

(** The rows [buildGraphData] lays out, before they are sorted. *)
Definition nodeRows (commits : list CommitInfo) (dagNodes : list DagNode)
  : JsMap NodeEntry :=
  nodeMapOf (commitMapOf commits) dagNodes.

(** The dag lists the hash [h1] before the hash [h2]. *)
Definition listedBefore (rows : JsMap NodeEntry) (h1 h2 : string) : bool :=
  match indexOfHash (map fst rows) 0 h1, indexOfHash (map fst rows) 0 h2 with
  | Some a, Some b => a <? b
  | _, _ => false
  end.

(** Every loaded parent of a node carries an earlier timestamp than the
    node, or the same timestamp while the dag lists the node first. *)
Definition childrenFirst (rows : JsMap NodeEntry) : Prop :=
  Forall (fun row =>
            Forall (fun p =>
                      Forall (fun prow =>
                                fst prow = p ->
                                (ne_timestamp (snd prow) < ne_timestamp (snd row))%Z
                                \/ (ne_timestamp (snd prow) = ne_timestamp (snd row)
                                    /\ listedBefore rows (fst row) p = true))
                             rows)
                   (ne_parents (snd row)))
         rows.

Global Instance childrenFirst_dec rows : Decision (childrenFirst rows).
Proof. unfold childrenFirst. apply _. Defined.

(** ** Invariants of the layout *)

(** The vertex of row [i] carries the id [i], and a bound vertex is bound
    to one of the first [k] branches. *)
Definition vertsOK (k : nat) (vs : list Vertex) : Prop :=
  forall i v, vs !! i = Some v ->
    v_id v = i /\ forall b, onBranch v = Some b -> b < k.

(** A line joins a point of one row to a point of the next row, inside
    the [n] rows. *)
Definition lineOK (n : nat) (l : Line) : Prop :=
  py (p2 l) = S (py (p1 l)) /\ py (p2 l) < n.

Definition branchOK (n : nat) (br : Branch) : Prop :=
  b_end br <= n /\ Forall (lineOK n) (b_lines br).

Definition layoutOK (st : Layout) : Prop :=
  vertsOK (length (graphBranches st)) (vertices st)
  /\ Forall (branchOK (length (vertices st))) (graphBranches st).

(** The layout of the merge [m] of [a] and [b]. *)
Definition triangleLayout : list NodeLayout * list Branch :=
  match layoutGraph 9 linearLog triangleDag None with
  | Some layout => layout
  | None => ([], [])
  end.

(** The commit record [buildBranchGraphIncrementally] makes of a cached
    node, with the branch list as it stands. *)
Definition commitOfNode (node : DagNode) : CommitNodeInfo :=
  {| hash := n_hash node; parents := n_parents node;
     timestamp := n_timestamp node; branches := n_branches node |}.

(** HEAD moved from [c1] to [c2] without a new commit in between: the
    range log is empty. *)
Definition gitEmptyRange : Git :=
  {| git_logAll := None;
     git_logRange := fun _ _ => Some "";
     git_branch := Some {| bs_all := ["main"; "remotes/origin/main"]; bs_current := "main" |};
     git_mergeBase := fun _ _ => true;
     git_revparseHead := Some "c2" |}.

(** ** Tags: [getTags] and [getRemoteTags] *)

Definition TAB : ascii := ascii_of_nat 9.
Definition CR : ascii := ascii_of_nat 13.

(** The characters [.] does not match in a regular expression. *)
Definition isLineTerminator (c : ascii) : bool :=
  Ascii.eqb c LF || Ascii.eqb c CR.

Fixpoint noLineTerminator (s : string) : bool :=
  match s with
  | EmptyString => true
  | String c s' => negb (isLineTerminator c) && noLineTerminator s'
  end.

(** [s.match(/refs\/tags\/(.+)$/)]: the first group of the leftmost
    match, [None] when there is no match. *)
Fixpoint matchTagRef (s : string) : option string :=
  match s with
  | EmptyString => None
  | String _ s' =>
      let rest := dropChars 10 s in
      if startsWith "refs/tags/" s && truthy rest && noLineTerminator rest
      then Some rest
      else matchTagRef s'
  end.

(** The tag name and the hash a line of [ls-remote --tags] stands for;
    [None] where the [forEach] callback returns early. *)
Definition tagOfLine (line : string) : option (string * string) :=
  match splitChar TAB (trim line) with
  | hash :: ref :: _ =>
      if negb (truthy hash) || negb (truthy ref) then None
      else
        match matchTagRef (replaceFirst "^{}" "" ref) with
        | Some tagName => Some (tagName, hash)
        | None => None
        end
  | _ => None
  end.

(** The body of the [forEach] over the lines. *)
Definition remoteTagStep (tagsMap : JsMap string) (line : string) : JsMap string :=
  match tagOfLine line with
  | Some (tagName, hash) =>
      if map_has tagsMap tagName then tagsMap else map_set tagsMap tagName hash
  | None => tagsMap
  end.

(** [getRemoteTags], past the cache: [raw] is the output of
    [ls-remote --tags], [None] when the call throws.  The result lists
    [(name, commit)]. *)
Definition getRemoteTags (raw : option string) : list (string * string) :=
  match raw with
  | None => []
  | Some output =>
      if negb (truthy output) || negb (truthy (trim output)) then []
      else fold_left remoteTagStep (splitChar LF (trim output)) []
  end.

(** What [ls-remote --tags] prints for an annotated tag [v1]: the tag
    object, then the commit it points to. *)
Definition annotatedTagLines : string :=
  String.concat (String LF "")
    [ String.concat (String TAB "") ["1111"; "refs/tags/v1"];
      String.concat (String TAB "") ["2222"; "refs/tags/v1^{}"];
      String.concat (String TAB "") ["3333"; "refs/heads/main"] ].

(** What [getTags] returns for a tag; [None] is [undefined]. *)
Record TagInfo : Type := mkTagInfo {
  tag_name : string;
  tag_commit : string;
  tag_message : option string;
  tag_date : option string
}.

Definition PIPE : ascii := ascii_of_nat 124.

(** The callback of [map] in [getTags]: the first five pieces of the line
    go to [name], [objectName], [objectType], [subject] and [date]; a
    missing piece is [undefined]. *)
Definition tagOfRefLine (line : string) : TagInfo :=
  let pieces := splitChar PIPE line in
  let cleanMessage := trim <$> pieces !! 3 in
  let isAnnotated := String.eqb (trim (default "" (pieces !! 2))) "tag" in
  {| tag_name := match pieces !! 0 with Some name => trim name | None => "" end;
     tag_commit := trim (default "" (pieces !! 1));
     tag_message :=
       match cleanMessage with
       | Some message => if isAnnotated && truthy message then Some message else None
       | None => None
       end;
     tag_date :=
       match pieces !! 4 with
       | Some date => if truthy (trim date) then Some (trim date) else None
       | None => None
       end |}.

(** [getTags], past the cache: [raw] is the output of [for-each-ref],
    [None] when the call throws. *)
Definition getTags (raw : option string) : list TagInfo :=
  match raw with
  | None => []
  | Some tagsOutput =>
      if negb (truthy tagsOutput) || negb (truthy (trim tagsOutput)) then []
      else
        List.filter (fun tag => truthy (tag_name tag) && truthy (tag_commit tag))
          (map tagOfRefLine
               (List.filter (fun line => truthy (trim line))
                            (splitChar LF (trim tagsOutput))))
  end.

(** The string holds the code unit. *)
Fixpoint hasChar (c : ascii) (s : string) : bool :=
  match s with
  | EmptyString => false
  | String c' s' => Ascii.eqb c' c || hasChar c s'
  end.

(** The pieces joined by [|], as the format of [for-each-ref] prints
    them. *)
Definition joinPipe (pieces : list string) : string :=
  String.concat (String PIPE "") pieces.

(** Every colour slot is the colour of some branch. *)
Definition coloursUsed (st : Layout) : Prop :=
  forall j, j < length (availableColors st) ->
    exists br, br ∈ graphBranches st /\ colorIndex br = j.

(** Two children [c1] and [c2] of one parent [p]. *)
Definition forkDag : list DagNode :=
  [ {| n_hash := "c1"; n_parents := ["p"]; n_branches := ["main"];
       n_timestamp := Num 300000; n_isMerge := false |};
    {| n_hash := "c2"; n_parents := ["p"]; n_branches := ["dev"];
       n_timestamp := Num 200000; n_isMerge := false |};
    {| n_hash := "p"; n_parents := []; n_branches := [];
       n_timestamp := Num 100000; n_isMerge := false |} ].

Definition forkLayout : list NodeLayout * list Branch :=
  match layoutGraph 20 linearLog forkDag None with
  | Some layout => layout
  | None => ([], [])
  end.

(** ** The commit index of the graph view *)

(** [commitNodes.forEach((node, idx) => commitIndexMap.set(node.hash, idx))],
    from row [i0] on. *)
Fixpoint indexCommits (i0 : nat) (hashes : list string) (commitIndexMap : JsMap nat)
  : JsMap nat :=
  match hashes with
  | [] => commitIndexMap
  | h :: rest => indexCommits (S i0) rest (map_set commitIndexMap h i0)
  end.

(** The map after [clear()] and the [forEach]. *)
Definition commitIndexMapOf (hashes : list string) : JsMap nat :=
  indexCommits 0 hashes [].

(** [getCommitIndex(hash)] *)
Definition getCommitIndex (commitIndexMap : JsMap nat) (h : string) : Z :=
  match map_get commitIndexMap h with
  | Some i => Z.of_nat i
  | None => (-1)%Z
  end.


(** ** File statistics: [getFileStats] *)

(** [files.forEach(file => ...)]: one more for the trimmed path of every
    line. *)
Definition countFiles (fileStats : JsMap nat) (files : list string) : JsMap nat :=
  fold_left
    (fun stats file =>
       let path := trim file in
       if truthy path
       then map_set stats path (default 0 (map_get stats path) + 1)
       else stats)
    files fileStats.

(** The lines of a [diff-tree --name-only] output that are counted. *)
Definition diffTreeFiles (result : string) : list string :=
  List.filter (fun line => 0 <? String.length (trim line)) (splitChar LF (trim result)).

(** The lines of a [show --name-only] output that are counted. *)
Definition showFiles (showResult : string) : list string :=
  List.filter
    (fun line =>
       let trimmed := trim line in
       truthy trimmed
       && negb (startsWith "commit" trimmed)
       && negb (startsWith "Author" trimmed)
       && negb (startsWith "Date" trimmed)
       && negb (startsWith "diff" trimmed)
       && negb (startsWith "index" trimmed)
       && negb (startsWith "---" trimmed)
       && negb (startsWith "+++" trimmed)
       && negb (startsWith "@@" trimmed)
       && (0 <? String.length trimmed))
    (splitChar LF (trim showResult)).

Section FileStats.
(** The outputs of [diff-tree] and of [show] for a commit hash; [None]
    when the call throws. *)
Variable diffTree : string -> option string.
Variable showNames : string -> option string.

(** The lines one commit contributes. *)
Definition filesOfCommit (commitHash : string) : list string :=
  match diffTree commitHash with
  | Some result => if truthy result then diffTreeFiles result else []
  | None =>
      match showNames commitHash with
      | Some showResult => if truthy showResult then showFiles showResult else []
      | None => []
      end
  end.

(** One turn of [for (const commit of commitsToProcess)]. *)
Definition fileStatsStep (fileStats : JsMap nat) (commitHash : string) : JsMap nat :=
  match diffTree commitHash with
  | Some result =>
      if truthy result then countFiles fileStats (diffTreeFiles result) else fileStats
  | None =>
      match showNames commitHash with
      | Some showResult =>
          if truthy showResult then countFiles fileStats (showFiles showResult)
          else fileStats
      | None => fileStats
      end
  end.

(** [getFileStats]: [log] holds the hashes of [log.all], [None] when
    [git.log] throws. *)
Definition getFileStats (log : option (list string)) : JsMap nat :=
  match log with
  | None => []
  | Some all =>
      if length all =? 0 then []
      else fold_left fileStatsStep (take 100 all) []
  end.
End FileStats.

(** How often the path is named. *)
Definition occurrences (path : string) (paths : list string) : nat :=
  length (List.filter (String.eqb path) paths).

(** [fileStats.get(path) || 0] *)
Definition countOf (fileStats : JsMap nat) (path : string) : nat :=
  default 0 (map_get fileStats path).

(** Three commits: the first changes [a.ts] and [b.ts], [diff-tree]
    fails on the second and [show] lists [a.ts] and [index.ts] for it,
    nothing can be read of the third. *)
Definition sampleDiffTree (commitHash : string) : option string :=
  if String.eqb commitHash "h1" then Some (String.concat (String LF "") ["a.ts"; "b.ts"; ""])
  else None.

Definition sampleShow (commitHash : string) : option string :=
  if String.eqb commitHash "h2" then Some (String.concat (String LF "") ["a.ts"; "index.ts"])
  else None.

(** The storage with the snapshot of H1 and, stored after it, a snapshot
    of a head [c0] that is no ancestor of [c2]. *)
Definition storedTwice : Storage :=
  {| st_graphs := [("c1", cachedAtC1); ("c0", baseSnapshot)]; st_index := ["c1"; "c0"] |}.

(** HEAD is at [c1] and the log cannot be read. *)
Definition gitLogFails : Git :=
  {| git_logAll := None;
     git_logRange := fun _ _ => None;
     git_branch := Some {| bs_all := ["main"]; bs_current := "main" |};
     git_mergeBase := fun _ _ => false;
     git_revparseHead := Some "c1" |}.

(** A dag with a commit whose hash is the key [__proto__], parent of the
    commit above it. *)
Definition protoDag : list DagNode :=
  [ {| n_hash := "c2"; n_parents := [PROTO_KEY; "c0"]; n_branches := ["main"];
       n_timestamp := Num 200000; n_isMerge := false |};
    {| n_hash := PROTO_KEY; n_parents := ["c0"]; n_branches := [];
       n_timestamp := Num 100000; n_isMerge := false |};
    {| n_hash := "c0"; n_parents := []; n_branches := [];
       n_timestamp := Num 50000; n_isMerge := false |} ].

(* ================================================================== *)
(** * Part II: theorems *)
(* ================================================================== *)

(** ** Insertion-ordered maps *)

Section JsMapFacts.
Context {V : Type}.
Implicit Types (m : JsMap V) (k : string) (v : V).

Lemma map_get_app_notin m1 m2 k :
  k ∉ map_keys m1 -> map_get (m1 ++ m2) k = map_get m2 k.
Proof.
  induction m1 as [|[k' v'] m1 IH]; simpl; intros Hk; [done|].
  apply not_elem_of_cons in Hk as [Hne Hk].
  destruct (String.eqb_spec k' k) as [->|_]; [done|]. by apply IH.
Qed.

Lemma map_get_None m k : map_get m k = None <-> k ∉ map_keys m.
Proof.
  induction m as [|[k' v'] m IH]; simpl.
  - split; [intros _; apply not_elem_of_nil | done].
  - destruct (String.eqb_spec k' k) as [->|Hne].
    + split; [done|]. intros H. exfalso. apply H. left.
    + rewrite IH, not_elem_of_cons. split; [by intros ?|by intros [_ ?]].
Qed.

Lemma map_get_Some_in m k v : map_get m k = Some v -> (k, v) ∈ m.
Proof.
  induction m as [|[k' v'] m IH]; simpl; [done|].
  destruct (String.eqb_spec k' k) as [->|_].
  - intros [= ->]. left.
  - intros H. right. by apply IH.
Qed.

Lemma map_get_in_NoDup m k v :
  NoDup (map_keys m) -> (k, v) ∈ m -> map_get m k = Some v.
Proof.
  induction m as [|[k' v'] m IH]; simpl; intros Hnd Hin.
  - by apply elem_of_nil in Hin.
  - apply NoDup_cons in Hnd as [Hk' Hnd].
    apply elem_of_cons in Hin as [[= <- <-]|Hin].
    + by rewrite String.eqb_refl.
    + destruct (String.eqb_spec k' k) as [->|_]; [|by apply IH].
      exfalso. apply Hk'. unfold map_keys.
      change k with (fst (k, v)). by apply list_elem_of_fmap_2.
Qed.

Lemma map_set_keys_present m k v :
  k ∈ map_keys m -> map_keys (map_set m k v) = map_keys m.
Proof.
  induction m as [|[k' v'] m IH]; simpl; intros Hk.
  - by apply elem_of_nil in Hk.
  - destruct (String.eqb_spec k' k) as [->|Hne]; [done|].
    simpl. f_equal. apply IH.
    apply elem_of_cons in Hk as [->|Hk]; [done|exact Hk].
Qed.

Lemma map_set_fresh m k v : k ∉ map_keys m -> map_set m k v = m ++ [(k, v)].
Proof.
  induction m as [|[k' v'] m IH]; simpl; intros Hk; [done|].
  apply not_elem_of_cons in Hk as [Hne Hk].
  destruct (String.eqb_spec k' k) as [->|_]; [done|].
  f_equal. by apply IH.
Qed.

Lemma map_set_keys m k v :
  (map_keys (map_set m k v) = map_keys m)
  \/ ((k ∉ map_keys m) /\ (map_keys (map_set m k v) = map_keys m ++ [k])).
Proof.
  destruct (decide (k ∈ map_keys m)) as [Hin|Hnin].
  - left. by apply map_set_keys_present.
  - right. split; [done|]. rewrite map_set_fresh by done.
    unfold map_keys. by rewrite map_app.
Qed.

Lemma map_set_NoDup m k v : NoDup (map_keys m) -> NoDup (map_keys (map_set m k v)).
Proof.
  intros Hnd. destruct (map_set_keys m k v) as [->|[Hk ->]]; [done|].
  apply NoDup_app. split; [done|]. split.
  - intros x Hx Hx'. apply list_elem_of_singleton in Hx' as ->. done.
  - apply NoDup_singleton.
Qed.

Lemma map_delete_snoc m k v : k ∉ map_keys m -> map_delete (m ++ [(k, v)]) k = m.
Proof.
  induction m as [|[k' v'] m IH]; simpl; intros Hk.
  - by rewrite String.eqb_refl.
  - apply not_elem_of_cons in Hk as [Hne Hk].
    destruct (String.eqb_spec k' k) as [->|_]; [done|].
    f_equal. by apply IH.
Qed.

Lemma map_delete_size m k :
  k ∈ map_keys m -> S (map_size (map_delete m k)) = map_size m.
Proof.
  induction m as [|[k' v'] m IH]; simpl; intros Hk.
  - by apply elem_of_nil in Hk.
  - destruct (String.eqb_spec k' k) as [->|Hne]; [done|].
    simpl. f_equal. apply IH.
    apply elem_of_cons in Hk as [->|Hk]; [done|exact Hk].
Qed.

Lemma map_delete_keys_subseteq m k x :
  x ∈ map_keys (map_delete m k) -> x ∈ map_keys m.
Proof.
  induction m as [|[k' v'] m IH]; simpl; [done|].
  destruct (String.eqb_spec k' k) as [->|Hne].
  - intros H. by right.
  - simpl. intros H. apply elem_of_cons in H as [->|H]; [left|right; by apply IH].
Qed.
End JsMapFacts.

(** ** [enforceCommitLimit] *)

Lemma lastKeyOf_snoc (m : JsMap CommitNodeInfo) k v : lastKeyOf (m ++ [(k, v)]) = Some k.
Proof.
  unfold lastKeyOf, map_keys. rewrite map_app, fold_left_app. reflexivity.
Qed.

Lemma lastKeyOf_nil : lastKeyOf [] = None.
Proof. reflexivity. Qed.

Lemma lastKeyOf_in (m : JsMap CommitNodeInfo) k : lastKeyOf m = Some k -> k ∈ map_keys m.
Proof.
  destruct m as [|e m] using rev_ind; [done|].
  destruct e as [k' v']. rewrite lastKeyOf_snoc. intros [= ->].
  unfold map_keys. rewrite map_app. apply elem_of_app. right. simpl. left.
Qed.

Lemma truthy_nonempty s : truthy s = true <-> s <> "".
Proof. destruct s; simpl; split; congruence. Qed.

Lemma keysNonEmpty_delete m k : keysNonEmpty m -> keysNonEmpty (map_delete m k).
Proof.
  unfold keysNonEmpty. rewrite !Forall_forall. intros H x Hx.
  apply H. eapply map_delete_keys_subseteq. exact Hx.
Qed.

Lemma enforceLoop_size fuel limit m :
  keysNonEmpty m -> map_size m <= limit + fuel ->
  map_size (enforceLoop fuel limit m) <= limit.
Proof.
  revert m. induction fuel as [|fuel IH]; intros m Hne Hsz; simpl.
  - lia.
  - destruct (Nat.ltb_spec limit (map_size m)) as [Hlt|Hge]; [|lia].
    destruct (lastKeyOf m) as [k|] eqn:Hk.
    + pose proof (lastKeyOf_in _ _ Hk) as Hin.
      assert (truthy k = true) as ->.
      { apply truthy_nonempty. unfold keysNonEmpty in Hne.
        rewrite Forall_forall in Hne. by apply Hne. }
      apply IH; [by apply keysNonEmpty_delete|].
      pose proof (map_delete_size m k Hin). lia.
    + destruct m as [|e m] using rev_ind; [simpl in Hlt; lia|].
      destruct e. by rewrite lastKeyOf_snoc in Hk.
Qed.

Lemma enforceLoop_take fuel limit m :
  wellKeyed m -> map_size m <= limit + fuel ->
  enforceLoop fuel limit m = take limit m.
Proof.
  revert m. induction fuel as [|fuel IH]; intros m [Hnd Hne] Hsz; simpl.
  - unfold map_size in Hsz. rewrite take_ge by lia. done.
  - destruct (Nat.ltb_spec limit (map_size m)) as [Hlt|Hge];
      [|unfold map_size in Hge; by rewrite take_ge by lia].
    destruct m as [|[k v] m _] using rev_ind; [simpl in Hlt; lia|].
    rewrite lastKeyOf_snoc.
    unfold keysNonEmpty, map_keys in Hne, Hnd. rewrite map_app in Hne, Hnd.
    apply Forall_app in Hne as [Hne Hk]. apply Forall_inv in Hk. simpl in Hk.
    apply NoDup_app in Hnd as (Hnd & Hdisj & _).
    assert (k ∉ map_keys m) as Hfresh.
    { intros Hin. apply (Hdisj k Hin). simpl. left. }
    assert (truthy k = true) as Htr by by apply truthy_nonempty.
    rewrite Htr, map_delete_snoc by done.
    unfold map_size in *. rewrite length_app in Hlt, Hsz. simpl in Hlt, Hsz.
    rewrite IH; [|done|unfold map_size; lia].
    rewrite take_app_le by lia. done.
Qed.

Lemma enforceCommitLimit_take limit m :
  wellKeyed m -> enforceCommitLimit limit m = take limit m.
Proof. intros H. apply enforceLoop_take; [done|lia]. Qed.

Lemma enforceCommitLimit_small limit m :
  map_size m <= limit -> enforceCommitLimit limit m = m.
Proof.
  unfold enforceCommitLimit. destruct (map_size m) eqn:E; simpl; [done|].
  intros H. destruct (Nat.ltb_spec limit (map_size m)); [lia|done].
Qed.

(** ** The parser builds well-keyed maps *)

Lemma map_set_wellKeyed m k v : wellKeyed m -> k <> "" -> wellKeyed (map_set m k v).
Proof.
  intros [Hnd Hne] Hk. split; [by apply map_set_NoDup|].
  unfold keysNonEmpty. destruct (map_set_keys m k v) as [->|[_ ->]]; [done|].
  apply Forall_app. split; [done|]. by apply Forall_singleton.
Qed.

Lemma parseLine_wellKeyed now m line : wellKeyed m -> wellKeyed (parseLine now m line).
Proof.
  intros Hwk. unfold parseLine.
  destruct (length (splitChar NUL line) <? 4); [done|].
  destruct (truthy (trim (nth 0 (splitChar NUL line) ""))) eqn:Hh; simpl; [|done].
  apply map_set_wellKeyed; [done|]. by apply truthy_nonempty.
Qed.

Lemma parseLines_wellKeyed clock i lines m :
  wellKeyed m -> wellKeyed (parseLines clock i lines m).
Proof.
  revert i m. induction lines as [|line rest IH]; intros i m Hwk; simpl; [done|].
  apply IH. by apply parseLine_wellKeyed.
Qed.

Lemma wellKeyed_nil : wellKeyed [].
Proof. split; [apply NoDup_nil_2 | apply Forall_nil_2]. Qed.

Lemma parseGitLogToCommitMap_wellKeyed clock logOutput :
  wellKeyed (parseGitLogToCommitMap clock logOutput).
Proof.
  unfold parseGitLogToCommitMap.
  destruct (negb (truthy logOutput) || negb (truthy (trim logOutput)));
    [apply wellKeyed_nil|].
  apply parseLines_wellKeyed, wellKeyed_nil.
Qed.

(** ** C5 and C7: eviction *)

(** C5, as the claim reads: with more than the limit, the entries inserted
    first are the ones removed, so the entries inserted last remain.  The
    code does the opposite on a map of three with a limit of two: it keeps
    [c3] and [c2], inserted first, and removes [c1], inserted last. *)
Lemma enforceCommitLimit_removes_latest :
  2 < map_size threeCommits
  /\ enforceCommitLimit 2 threeCommits = [("c3", sampleCommit "c3"); ("c2", sampleCommit "c2")]
  /\ enforceCommitLimit 2 threeCommits <> drop (map_size threeCommits - 2) threeCommits.
Proof.
  split; [simpl; lia|]. split; [reflexivity|]. vm_compute. discriminate.
Qed.

(** C5, amended: for a commit map of more than [limit] entries (a key held
    once, no empty key), eviction removes the excess from the end of the
    insertion order: the [limit] entries inserted first remain, in order,
    and the entries inserted after them are the ones removed. *)
Theorem enforceCommitLimit_keeps_earliest (limit : nat) (m : JsMap CommitNodeInfo) :
  wellKeyed m -> limit < map_size m ->
  enforceCommitLimit limit m = take limit m
  /\ m = enforceCommitLimit limit m ++ drop limit m
  /\ map_size (enforceCommitLimit limit m) = limit.
Proof.
  intros Hwk Hlt. rewrite enforceCommitLimit_take by done.
  split; [done|]. split; [by rewrite take_drop|].
  unfold map_size in *. rewrite length_take. lia.
Qed.

Lemma enforceCommitLimit_keeps_earliest_witness :
  enforceCommitLimit 2 threeCommits = take 2 threeCommits
  /\ threeCommits = enforceCommitLimit 2 threeCommits ++ drop 2 threeCommits
  /\ map_size (enforceCommitLimit 2 threeCommits) = 2.
Proof.
  apply (enforceCommitLimit_keeps_earliest 2 threeCommits).
  - apply (bool_decide_unpack _). vm_compute. exact I.
  - simpl. lia.
Defined.

(** C7: after enforcement the node count is at most the limit; a map
    within the limit is left as it is; with a limit of 2 and 5 commits the
    snapshot built from the enforced map has exactly 2 nodes.  The map has
    no empty key, as every map the parser builds. *)
Theorem enforceCommitLimit_bound (limit : nat) (m : JsMap CommitNodeInfo) :
  keysNonEmpty m ->
  map_size (enforceCommitLimit limit m) <= limit
  /\ (map_size m <= limit -> enforceCommitLimit limit m = m)
  /\ (limit = 2 -> map_size m = 5 ->
      forall recorded branchSummary,
        exists dag,
          g_dag (buildBranchGraphFromCommitMap recorded (enforceCommitLimit limit m)
                   branchSummary) = Some dag
          /\ length (nodes dag) = 2).
Proof.
  intros Hne.
  assert (map_size (enforceCommitLimit limit m) <= limit) as Hle
    by (apply enforceLoop_size; [done|lia]).
  split; [done|]. split; [apply enforceCommitLimit_small|].
  intros -> H5 recorded bs. eexists. split; [reflexivity|]. simpl.
  unfold map_values. rewrite !length_map.
  change (map_size (enforceCommitLimit 2 m) = 2).
  unfold enforceCommitLimit. rewrite H5.
  (* five turns at most: three delete, the fourth leaves the loop *)
  assert (forall fuel m', keysNonEmpty m' -> 2 < map_size m' ->
            map_size m' <= 2 + fuel -> map_size (enforceLoop fuel 2 m') = 2) as Hloop.
  { induction fuel as [|fuel IH]; intros m' Hne' Hlt Hsz; [lia|]. simpl.
    destruct (Nat.ltb_spec 2 (map_size m')) as [_|?]; [|lia].
    destruct (lastKeyOf m') as [k|] eqn:Hk.
    - pose proof (lastKeyOf_in _ _ Hk) as Hin.
      assert (truthy k = true) as ->.
      { apply truthy_nonempty. unfold keysNonEmpty in Hne'.
        rewrite Forall_forall in Hne'. by apply Hne'. }
      pose proof (map_delete_size m' k Hin) as Hd.
      destruct (decide (map_size (map_delete m' k) = 2)) as [E|NE].
      + destruct fuel; simpl; [done|].
        destruct (Nat.ltb_spec 2 (map_size (map_delete m' k))); [lia|done].
      + apply IH; [by apply keysNonEmpty_delete|lia|lia].
    - destruct m' as [|e m'] using rev_ind; [simpl in Hlt; lia|].
      destruct e. by rewrite lastKeyOf_snoc in Hk. }
  apply Hloop; [done|lia|lia].
Qed.

Lemma enforceCommitLimit_bound_witness :
  let m := parseGitLogToCommitMap (fun _ => 0%Z) fiveLines in
  map_size m = 5
  /\ map_size (enforceCommitLimit 2 m) <= 2
  /\ forall recorded branchSummary,
       exists dag,
         g_dag (buildBranchGraphFromCommitMap recorded (enforceCommitLimit 2 m)
                  branchSummary) = Some dag
         /\ length (nodes dag) = 2.
Proof.
  intros m.
  assert (map_size m = 5) as H5 by (vm_compute; reflexivity).
  destruct (enforceCommitLimit_bound 2 m) as (Hle & _ & Hnodes).
  - apply (bool_decide_unpack _). vm_compute. exact I.
  - split; [exact H5|]. split; [exact Hle|]. apply Hnodes; [reflexivity|exact H5].
Defined.

(** ** C4 and C10: merge inference *)

Lemma set_has_elem_of s x : set_has s x = true <-> x ∈ s.
Proof.
  unfold set_has. rewrite existsb_exists. split.
  - intros (y & Hy & Heq). apply String.eqb_eq in Heq as ->. by apply list_elem_of_In.
  - intros H. exists x. split; [by apply list_elem_of_In | apply String.eqb_refl].
Qed.

Lemma set_has_not_elem_of s x : set_has s x = false <-> x ∉ s.
Proof.
  rewrite <- set_has_elem_of. destruct (set_has s x); split; congruence.
Qed.

Lemma elem_of_List_filter {A} (f : A -> bool) (l : list A) x :
  x ∈ List.filter f l <-> x ∈ l /\ f x = true.
Proof. rewrite !list_elem_of_In. apply filter_In. Qed.

Lemma toBranchCandidates_spec c p1 p2 b :
  b ∈ toBranchCandidates c p1 p2
  <-> b ∈ branches c /\ b ∈ branches p1 /\ b ∉ branches p2.
Proof.
  unfold toBranchCandidates. rewrite elem_of_List_filter, andb_true_iff, negb_true_iff.
  by rewrite set_has_elem_of, set_has_not_elem_of.
Qed.

Lemma fromBranchCandidates_spec c p1 p2 b :
  b ∈ fromBranchCandidates c p1 p2
  <-> b ∈ branches p2 /\ (b ∉ branches p1 \/ b ∈ branches c).
Proof.
  unfold fromBranchCandidates. rewrite elem_of_List_filter.
  split; intros [H2 H]; (split; [exact H2|]).
  - destruct (set_has (branches p1) b) eqn:H1.
    + apply andb_true_iff in H as [Hc _]. right. by apply set_has_elem_of.
    + left. by apply set_has_not_elem_of.
  - destruct (set_has (branches p1) b) eqn:H1; [|done].
    apply andb_true_iff. destruct H as [H|H].
    + apply set_has_not_elem_of in H. congruence.
    + split; [by apply set_has_elem_of|]. apply negb_true_iff, set_has_not_elem_of.
      rewrite toBranchCandidates_spec. intros (_ & _ & Hn2). done.
Qed.

Lemma hasMerge_pairs merges from to :
  hasMerge merges from to = existsb (fun p => pair_eqb p (from, to)) (map pairOf merges).
Proof. unfold hasMerge. induction merges as [|m ms IH]; simpl; [done|]. by rewrite IH. Qed.

Lemma mergeStep_proposedEdge commits cur merges entry :
  mergeStep commits cur merges entry =
  match proposedEdge commits cur entry with
  | None => merges
  | Some e => if hasMerge merges (m_from e) (m_to e) then merges else merges ++ [e]
  end.
Proof.
  destruct entry as [h c]. unfold mergeStep, proposedEdge. cbn [fst snd].
  destruct (2 <=? length (parents c)); [|done].
  destruct (map_get commits (nth 0 (parents c) "")) as [p1|]; [|done].
  destruct (map_get commits (nth 1 (parents c) "")) as [p2|]; [|done].
  destruct (toBranchCandidates c p1 p2) as [|to0 tos]; [done|].
  destruct (fromBranchCandidates c p1 p2) as [|from0 froms]; [done|].
  destruct (String.eqb from0 _); simpl; done.
Qed.

Lemma fold_mergeStep_keepFirst commits cur entries acc :
  fold_left (mergeStep commits cur) entries acc
  = acc ++ keepFirstPerPair (map pairOf acc) (omap (proposedEdge commits cur) entries).
Proof.
  revert acc. induction entries as [|entry rest IH]; intros acc; simpl.
  - by rewrite app_nil_r.
  - rewrite IH, mergeStep_proposedEdge.
    destruct (proposedEdge commits cur entry) as [e|]; simpl; [|done].
    rewrite hasMerge_pairs. fold (pairOf e).
    destruct (existsb _ (map pairOf acc)); [done|].
    rewrite map_app, <- app_assoc. done.
Qed.

Lemma keepFirstPerPair_sub seen edges e :
  e ∈ keepFirstPerPair seen edges -> e ∈ edges.
Proof.
  revert seen. induction edges as [|e' es IH]; intros seen; simpl; [done|].
  destruct (existsb _ seen).
  - intros H. right. by eapply IH.
  - intros H. apply elem_of_cons in H as [->|H]; [left|right; by eapply IH].
Qed.

Lemma pair_eqb_eq p q : pair_eqb p q = true <-> p = q.
Proof.
  destruct p, q. unfold pair_eqb. simpl.
  rewrite andb_true_iff, !String.eqb_eq. split; [intros [-> ->]|intros [= -> ->]]; done.
Qed.

Lemma keepFirstPerPair_fresh seen edges e :
  e ∈ keepFirstPerPair seen edges -> pairOf e ∉ seen.
Proof.
  revert seen. induction edges as [|e' es IH]; intros seen; simpl.
  - intros H. by apply elem_of_nil in H.
  - destruct (existsb _ seen) eqn:Hex; [apply IH|].
    intros H. apply elem_of_cons in H as [->|H].
    + intros Hin. apply not_true_iff_false in Hex. apply Hex.
      apply existsb_exists. exists (pairOf e'). split; [by apply list_elem_of_In|].
      by apply pair_eqb_eq.
    + apply IH in H. intros Hin. apply H. apply elem_of_app. by left.
Qed.

Lemma keepFirstPerPair_NoDup seen edges :
  NoDup (map pairOf (keepFirstPerPair seen edges)).
Proof.
  revert seen. induction edges as [|e es IH]; intros seen; simpl; [apply NoDup_nil_2|].
  destruct (existsb _ seen); [apply IH|]. simpl. apply NoDup_cons. split; [|apply IH].
  intros Hin. apply list_elem_of_fmap in Hin as (e' & Heq & Hin).
  apply keepFirstPerPair_fresh in Hin. apply Hin. rewrite <- Heq.
  apply elem_of_app. right. left.
Qed.

Lemma inferMerges_keepFirst commits cur :
  inferMerges commits cur
  = keepFirstPerPair [] (omap (proposedEdge commits cur) commits).
Proof. unfold inferMerges. by rewrite fold_mergeStep_keepFirst. Qed.

Lemma proposedEdge_inv commits cur h c e :
  proposedEdge commits cur (h, c) = Some e ->
  exists p1 p2 to0 tos from0 froms,
    2 <= length (parents c)
    /\ map_get commits (nth 0 (parents c) "") = Some p1
    /\ map_get commits (nth 1 (parents c) "") = Some p2
    /\ toBranchCandidates c p1 p2 = to0 :: tos
    /\ fromBranchCandidates c p1 p2 = from0 :: froms
    /\ m_commit e = h
    /\ m_from e = from0
    /\ m_to e = (if set_has (to0 :: tos) cur then cur else to0)
    /\ m_from e <> m_to e.
Proof.
  unfold proposedEdge. cbn [fst snd].
  destruct (Nat.leb_spec 2 (length (parents c))) as [Hlen|]; [|done].
  destruct (map_get commits (nth 0 (parents c) "")) as [p1|]; [|done].
  destruct (map_get commits (nth 1 (parents c) "")) as [p2|]; [|done].
  destruct (toBranchCandidates c p1 p2) as [|to0 tos] eqn:Hto; [done|].
  destruct (fromBranchCandidates c p1 p2) as [|from0 froms] eqn:Hfrom; [done|].
  destruct (String.eqb_spec from0 (if set_has (to0 :: tos) cur then cur else to0))
    as [|Hne]; [done|].
  intros [= <-]. exists p1, p2, to0, tos, from0, froms. simpl. done.
Qed.

(** C4, as the claim reads: the "from" candidates are the names of parent
    2's set that were not claimed as "to".  Here [x] is in parent 2's set
    and is no "to" candidate, yet the code does not take it: [x] is also in
    parent 1's set and not in the vertex's own, and no merge is inferred. *)
Lemma fromBranchCandidates_stricter :
  toBranchCandidates mergeCommit firstParent secondParent = ["main"]
  /\ claimedFromCandidates mergeCommit firstParent secondParent = ["x"]
  /\ fromBranchCandidates mergeCommit firstParent secondParent = []
  /\ fromBranchCandidates mergeCommit firstParent secondParent
     <> claimedFromCandidates mergeCommit firstParent secondParent
  /\ inferMerges mergeMap "main" = [].
Proof. repeat split; try reflexivity. vm_compute. discriminate. Qed.

(** C4, amended: at a merge vertex whose first two parents are loaded, the
    "to" candidates are the names of the vertex's set that are in parent
    1's set and not in parent 2's; the "from" candidates are the names of
    parent 2's set that are absent from parent 1's set or present in the
    vertex's own set; with both lists non-empty the edge goes from the
    first "from" candidate to the checked-out branch if that is a "to"
    candidate and else to the first "to" candidate, unless both are the
    same name; and of the edges so proposed, in the order of the map, the
    first one of every [(from, to)] pair is kept. *)
Theorem inferMerges_spec (commits : JsMap CommitNodeInfo) (currentBranch : string) :
  (forall c p1 p2 b,
      b ∈ toBranchCandidates c p1 p2
      <-> b ∈ branches c /\ b ∈ branches p1 /\ b ∉ branches p2)
  /\ (forall c p1 p2 b,
      b ∈ fromBranchCandidates c p1 p2
      <-> b ∈ branches p2 /\ (b ∉ branches p1 \/ b ∈ branches c))
  /\ (forall h c e,
      proposedEdge commits currentBranch (h, c) = Some e ->
      exists p1 p2,
        map_get commits (nth 0 (parents c) "") = Some p1
        /\ map_get commits (nth 1 (parents c) "") = Some p2
        /\ m_commit e = h
        /\ Some (m_from e) = head (fromBranchCandidates c p1 p2)
        /\ m_to e ∈ toBranchCandidates c p1 p2
        /\ (currentBranch ∈ toBranchCandidates c p1 p2 -> m_to e = currentBranch)
        /\ (currentBranch ∉ toBranchCandidates c p1 p2 ->
            Some (m_to e) = head (toBranchCandidates c p1 p2))
        /\ m_from e <> m_to e)
  /\ inferMerges commits currentBranch
     = keepFirstPerPair [] (omap (proposedEdge commits currentBranch) commits)
  /\ NoDup (map pairOf (inferMerges commits currentBranch)).
Proof.
  split; [apply toBranchCandidates_spec|]. split; [apply fromBranchCandidates_spec|].
  split; [|split; [apply inferMerges_keepFirst|
                   rewrite inferMerges_keepFirst; apply keepFirstPerPair_NoDup]].
  intros h c e He.
  apply proposedEdge_inv in He
    as (p1 & p2 & to0 & tos & from0 & froms & _ & H1 & H2 & Hto & Hfrom & Hc & Hf & Ht & Hne).
  exists p1, p2. rewrite Hto, Hfrom. simpl. repeat split; try done.
  - by rewrite Hf.
  - rewrite Ht. destruct (set_has (to0 :: tos) currentBranch) eqn:E.
    + by apply set_has_elem_of.
    + left.
  - intros Hin. apply set_has_elem_of in Hin. by rewrite Ht, Hin.
  - intros Hnin. apply set_has_not_elem_of in Hnin. by rewrite Ht, Hnin.
Qed.

(** ** C10: a merge with a parent outside the loaded window *)

Lemma fold_historyStep_sub allBranches items acc e :
  e ∈ fold_left (historyStep allBranches) items acc -> e ∈ acc \/ e ∈ items.
Proof.
  revert acc. induction items as [|item rest IH]; intros acc; simpl; [by left|].
  intros H. apply IH in H as [H|H]; [|right; by right].
  unfold historyStep in H.
  destruct (negb (MergeType_eqb (m_type item) ThreeWay)); [by left|].
  destruct (negb (set_has allBranches (m_from item)) || negb (set_has allBranches (m_to item)));
    [by left|].
  destruct (hasMerge acc (m_from item) (m_to item)); [by left|].
  apply elem_of_app in H as [H|H]; [by left|].
  apply list_elem_of_singleton in H as ->. right. left.
Qed.

Lemma inferMerges_from_entry commits cur e :
  e ∈ inferMerges commits cur ->
  exists c, (m_commit e, c) ∈ commits
            /\ proposedEdge commits cur (m_commit e, c) = Some e.
Proof.
  rewrite inferMerges_keepFirst. intros H. apply keepFirstPerPair_sub in H.
  apply list_elem_of_omap in H as ([h c] & Hin & He).
  pose proof (proposedEdge_inv _ _ _ _ _ He)
    as (_ & _ & _ & _ & _ & _ & _ & _ & _ & _ & _ & Hc & _).
  subst h. by exists c.
Qed.

Lemma proposedEdge_threeWay commits cur entry e :
  proposedEdge commits cur entry = Some e -> m_type e = ThreeWay.
Proof.
  unfold proposedEdge.
  destruct (2 <=? length (parents (snd entry))); [|done].
  destruct (map_get commits (nth 0 (parents (snd entry)) "")) as [p1|]; [|done].
  destruct (map_get commits (nth 1 (parents (snd entry)) "")) as [p2|]; [|done].
  destruct (toBranchCandidates (snd entry) p1 p2) as [|to0 tos]; [done|].
  destruct (fromBranchCandidates (snd entry) p1 p2) as [|from0 froms]; [done|].
  destruct (String.eqb from0 _); [done|]. by intros [= <-].
Qed.

Lemma inferMerges_threeWay commits cur :
  Forall (fun e => m_type e = ThreeWay) (inferMerges commits cur).
Proof.
  apply Forall_forall. intros e He. rewrite inferMerges_keepFirst in He.
  apply keepFirstPerPair_sub in He. apply list_elem_of_omap in He as (entry & _ & He).
  by eapply proposedEdge_threeWay.
Qed.

Lemma List_filter_all {A} (P : A -> bool) (l : list A) :
  Forall (fun x => P x = true) l -> List.filter P l = l.
Proof.
  induction 1 as [|x l Hx _ IH]; simpl; [done|]. by rewrite Hx, IH.
Qed.

Lemma hasMerge_app merges1 merges2 from to :
  hasMerge (merges1 ++ merges2) from to
  = hasMerge merges1 from to || hasMerge merges2 from to.
Proof. unfold hasMerge. apply existsb_app. Qed.

Lemma historyStep_cases allBranches merges item :
  historyStep allBranches merges item
  = if passesHistoryGuards allBranches item
       && negb (hasMerge merges (m_from item) (m_to item))
    then merges ++ [item] else merges.
Proof.
  unfold historyStep, passesHistoryGuards.
  destruct (MergeType_eqb (m_type item) ThreeWay); [|done].
  destruct (set_has allBranches (m_from item)); [|done].
  destruct (set_has allBranches (m_to item)); [|done].
  by destruct (hasMerge merges (m_from item) (m_to item)).
Qed.

(** What the history loop leaves in [merges]: the edges it found there and
    every item that passes the guards and whose pair neither an edge found
    there nor an earlier item past the guards holds. *)
Lemma fold_historyStep_elem allBranches items acc e :
  e ∈ fold_left (historyStep allBranches) items acc
  <-> e ∈ acc
      \/ exists before after,
           items = before ++ e :: after
           /\ passesHistoryGuards allBranches e = true
           /\ hasMerge acc (m_from e) (m_to e) = false
           /\ hasMerge (List.filter (passesHistoryGuards allBranches) before)
                       (m_from e) (m_to e) = false.
Proof.
  revert acc. induction items as [|item rest IH]; intros acc.
  - simpl. split; [by left|]. intros [H|(before & after & Heq & _)]; [done|].
    by destruct before.
  - cbn [fold_left]. rewrite IH, historyStep_cases.
    destruct (passesHistoryGuards allBranches item) eqn:Hg; cbn [andb].
    + destruct (hasMerge acc (m_from item) (m_to item)) eqn:Hm; cbn [negb].
      * split.
        -- intros [H|(before & after & -> & Hge & Hacc & Hbefore)]; [by left|].
           right. exists (item :: before), after. split; [done|]. split; [done|].
           split; [done|]. cbn [List.filter]. rewrite Hg. cbn [hasMerge existsb].
           fold (hasMerge (List.filter (passesHistoryGuards allBranches) before)
                          (m_from e) (m_to e)).
           rewrite Hbefore, orb_false_r. apply andb_false_iff.
           destruct (String.eqb_spec (m_from item) (m_from e)) as [Hf|]; [|by left].
           destruct (String.eqb_spec (m_to item) (m_to e)) as [Ht|]; [|by right].
           rewrite Hf, Ht in Hm. congruence.
        -- intros [H|(before & after & Heq & Hge & Hacc & Hbefore)]; [by left|].
           destruct before as [|item' before]; simpl in Heq.
           ++ injection Heq as -> ->. congruence.
           ++ injection Heq as <- ->. right. exists before, after.
              split; [done|]. split; [done|]. split; [done|].
              cbn [List.filter] in Hbefore. rewrite Hg in Hbefore.
              cbn [hasMerge existsb] in Hbefore.
              by apply orb_false_iff in Hbefore as [_ Hbefore].
      * split.
        -- intros [H|(before & after & -> & Hge & Hacc & Hbefore)].
           ++ apply elem_of_app in H as [H|H]; [by left|].
              apply list_elem_of_singleton in H as ->. right.
              exists [], rest. by repeat split.
           ++ rewrite hasMerge_app in Hacc. apply orb_false_iff in Hacc as [Hacc Hitem].
              right. exists (item :: before), after. split; [done|]. split; [done|].
              split; [done|]. cbn [List.filter]. rewrite Hg.
              change (item :: List.filter (passesHistoryGuards allBranches) before)
                with ([item] ++ List.filter (passesHistoryGuards allBranches) before).
              by rewrite hasMerge_app, Hitem, Hbefore.
        -- intros [H|(before & after & Heq & Hge & Hacc & Hbefore)].
           ++ left. apply elem_of_app. by left.
           ++ destruct before as [|item' before]; simpl in Heq.
              ** injection Heq as -> ->. left. apply elem_of_app. right. left.
              ** injection Heq as <- ->. right. exists before, after.
                 cbn [List.filter] in Hbefore. rewrite Hg in Hbefore.
                 change (item :: List.filter (passesHistoryGuards allBranches) before)
                   with ([item] ++ List.filter (passesHistoryGuards allBranches) before)
                   in Hbefore.
                 rewrite hasMerge_app in Hbefore.
                 apply orb_false_iff in Hbefore as [Hitem Hbefore].
                 split; [done|]. split; [done|]. split; [|done].
                 by rewrite hasMerge_app, Hacc, Hitem.
    + split.
      * intros [H|(before & after & -> & Hge & Hacc & Hbefore)]; [by left|].
        right. exists (item :: before), after. split; [done|]. split; [done|].
        split; [done|]. cbn [List.filter]. by rewrite Hg.
      * intros [H|(before & after & Heq & Hge & Hacc & Hbefore)]; [by left|].
        destruct before as [|item' before]; simpl in Heq.
        -- injection Heq as -> ->. congruence.
        -- injection Heq as <- ->. right. exists before, after.
           cbn [List.filter] in Hbefore. rewrite Hg in Hbefore. by repeat split.
Qed.

(** C10, as the claim reads: a merge whose parent lies outside the loaded
    window is left out of the snapshot's merges list.  Here the second
    parent [c2] of the merge commit [c4] is not loaded, inference gives no
    edge, and the snapshot's merges list holds the recorded three-way item
    for [c4] all the same. *)
Lemma recorded_merge_in_snapshot :
  ("c4", mergeCommit) ∈ truncatedMap
  /\ 2 <= length (parents mergeCommit)
  /\ map_get truncatedMap (nth 1 (parents mergeCommit) "") = None
  /\ inferMerges truncatedMap "main" = []
  /\ m_commit recordedMerge = "c4"
  /\ g_merges (buildBranchGraphFromCommitMap (Some [recordedMerge]) truncatedMap
                 {| bs_all := ["main"; "x"]; bs_current := "main" |})
     = [recordedMerge].
Proof.
  split; [left|]. split; [simpl; lia|]. by repeat split.
Qed.

(** C10, amended: a merge vertex whose first or second parent hash is not
    a key of the loaded commit map gets no inferred merge edge.  The
    snapshot's merges list names that commit all the same exactly when the
    recorded merge history holds a three-way item for it between two local
    branches whose pair of branches neither an inferred edge nor an earlier
    such item of the history has. *)
Theorem missing_parent_no_merge (commits : JsMap CommitNodeInfo) (currentBranch : string)
    (recorded : option (list MergeEdge)) (branchSummary : BranchSummary)
    (h : string) (c : CommitNodeInfo) :
  NoDup (map_keys commits) ->
  (h, c) ∈ commits ->
  2 <= length (parents c) ->
  map_get commits (nth 0 (parents c) "") = None
  \/ map_get commits (nth 1 (parents c) "") = None ->
  (forall e, e ∈ inferMerges commits currentBranch -> m_commit e <> h)
  /\ (forall e,
        m_commit e = h ->
        e ∈ g_merges (buildBranchGraphFromCommitMap recorded commits branchSummary)
        <-> exists items before after,
              recorded = Some items
              /\ items = before ++ e :: after
              /\ passesHistoryGuards (localBranches branchSummary) e = true
              /\ hasMerge (g_merges (buildBranchGraphFromCommitMap None commits
                                       branchSummary))
                          (m_from e) (m_to e) = false
              /\ hasMerge (List.filter (passesHistoryGuards (localBranches branchSummary))
                                       before)
                          (m_from e) (m_to e) = false).
Proof.
  intros Hnd Hin Hlen Hmiss.
  assert (forall cur e, e ∈ inferMerges commits cur -> m_commit e <> h) as Hinf.
  { intros cur e He Heq. apply inferMerges_from_entry in He as (c' & Hin' & Hp).
    rewrite Heq in Hin', Hp.
    assert (c' = c) as ->.
    { pose proof (map_get_in_NoDup _ _ _ Hnd Hin) as G1.
      pose proof (map_get_in_NoDup _ _ _ Hnd Hin') as G2. congruence. }
    apply proposedEdge_inv in Hp as (p1 & p2 & _ & _ & _ & _ & _ & G1 & G2 & _).
    destruct Hmiss; congruence. }
  split; [apply Hinf|].
  intros e Hc. unfold buildBranchGraphFromCommitMap. cbn [g_merges].
  set (cur := if truthy (bs_current branchSummary) then bs_current branchSummary
              else "main").
  rewrite (List_filter_all _ (inferMerges commits cur))
    by (eapply Forall_impl; [apply inferMerges_threeWay|]; by intros e' ->).
  rewrite elem_of_List_filter.
  destruct recorded as [items|].
  - rewrite fold_historyStep_elem. split.
    + intros [[He|(before & after & Heq & Hg & Hacc & Hbefore)] _];
        [by apply Hinf in He|].
      by exists items, before, after.
    + intros (items' & before & after & [= <-] & Heq & Hg & Hacc & Hbefore).
      split; [right; by exists before, after|].
      unfold passesHistoryGuards in Hg.
      by apply andb_true_iff in Hg as [[Hg _]%andb_true_iff _].
  - split.
    + intros [He _]. by apply Hinf in He.
    + by intros (items' & before & after & [=] & _).
Qed.

Lemma missing_parent_no_merge_witness :
  (forall e, e ∈ inferMerges truncatedMap "main" -> m_commit e <> "c4")
  /\ recordedMerge
     ∈ g_merges (buildBranchGraphFromCommitMap (Some [recordedMerge]) truncatedMap
                   {| bs_all := ["main"; "x"]; bs_current := "main" |}).
Proof.
  destruct (missing_parent_no_merge truncatedMap "main" (Some [recordedMerge])
              {| bs_all := ["main"; "x"]; bs_current := "main" |} "c4" mergeCommit)
    as [Hinfer Hsnapshot].
  - apply (bool_decide_unpack _). vm_compute. exact I.
  - left.
  - simpl. lia.
  - right. reflexivity.
  - split; [exact Hinfer|].
    apply (Hsnapshot recordedMerge); [reflexivity|].
    exists [recordedMerge], [], []. by repeat split.
Defined.

(** ** C8: the log normalizer *)

Lemma splitWs_head s :
  exists t ts, splitWs s = t :: ts /\ truthy t = startsWithNonWs s.
Proof.
  induction s as [|c s' (t & ts & IH & Ht)]; simpl; [by exists "", []|].
  destruct (isWhiteSpace c) eqn:Hc; simpl.
  - destruct (startsWithWs s') eqn:Hs'.
    + exists t, ts. split; [done|]. rewrite Ht.
      destruct s'; simpl in *; [done|]. by rewrite Hs'.
    + by exists "", (splitWs s').
  - rewrite IH. simpl. by exists (String c t), ts.
Qed.

Lemma splitWs_filter_tokens s : List.filter truthy (splitWs s) = wsTokens s.
Proof.
  induction s as [|c s' IH]; simpl; [done|].
  destruct (isWhiteSpace c) eqn:Hc.
  - destruct (startsWithWs s'); simpl; exact IH.
  - destruct (splitWs_head s') as (t & ts & Hsp & Ht).
    rewrite Hsp in *. simpl in *. rewrite <- Ht.
    destruct t; simpl in *; by rewrite <- IH.
Qed.

Lemma trimEnd_noWs s : noWs s = true -> trimEnd s = s.
Proof.
  induction s as [|c s' IH]; simpl; [done|].
  intros [Hc Hs']%andb_true_iff. rewrite (IH Hs').
  apply negb_true_iff in Hc. rewrite Hc. by destruct s'.
Qed.

Lemma trim_noWs s : noWs s = true -> trim s = s.
Proof.
  intros H. unfold trim.
  assert (trimStart s = s) as ->.
  { destruct s; simpl in *; [done|].
    apply andb_true_iff in H as [Hc _]. apply negb_true_iff in Hc. by rewrite Hc. }
  by apply trimEnd_noWs.
Qed.

Lemma splitWs_noWs s : Forall (fun p => noWs p = true) (splitWs s).
Proof.
  induction s as [|c s' IH]; simpl; [by repeat constructor|].
  destruct (isWhiteSpace c) eqn:Hc.
  - destruct (startsWithWs s'); [done|]. by constructor.
  - destruct (splitWs s') as [|t ts]; simpl.
    + repeat constructor. simpl. by rewrite Hc.
    + apply Forall_cons in IH as [Ht Hts]. constructor; [|done].
      simpl. by rewrite Hc, Ht.
Qed.

Lemma filter_trim_splitWs s :
  List.filter (fun p => truthy (trim p)) (splitWs s) = wsTokens s.
Proof.
  rewrite <- splitWs_filter_tokens.
  pose proof (splitWs_noWs s) as H.
  induction (splitWs s) as [|p ps IH]; simpl; [done|].
  apply Forall_cons in H as [Hp Hps]. rewrite (trim_noWs _ Hp).
  destruct (truthy p); by rewrite IH.
Qed.

Lemma wsTokens_trimStart s : wsTokens (trimStart s) = wsTokens s.
Proof.
  induction s as [|c s' IH]; simpl; [done|].
  destruct (isWhiteSpace c) eqn:Hc; [done|]. simpl. by rewrite Hc.
Qed.

Lemma startsWithNonWs_trimEnd s : startsWithNonWs (trimEnd s) = startsWithNonWs s.
Proof.
  destruct s as [|c s']; simpl; [done|].
  destruct (trimEnd s'); [|done].
  destruct (isWhiteSpace c) eqn:E; simpl; by rewrite ?E.
Qed.

Lemma wsTokens_trimEnd s : wsTokens (trimEnd s) = wsTokens s.
Proof.
  induction s as [|c s' IH]; simpl; [done|].
  pose proof (startsWithNonWs_trimEnd s') as Hhd.
  destruct (trimEnd s') as [|a t] eqn:Ht.
  - simpl in IH, Hhd. rewrite <- IH, <- Hhd.
    destruct (isWhiteSpace c) eqn:Hc; simpl; [done|]. by rewrite Hc.
  - rewrite <- IH, <- Hhd. reflexivity.
Qed.

Lemma wsTokens_trim s : wsTokens (trim s) = wsTokens s.
Proof. unfold trim. by rewrite wsTokens_trimEnd, wsTokens_trimStart. Qed.

(** What the source computes for [parents] is the token list of field 2. *)
Lemma parents_wsTokens f1 :
  (if truthy (trim f1)
   then List.filter (fun p => truthy (trim p)) (splitWs (trim f1))
   else []) = wsTokens f1.
Proof.
  rewrite filter_trim_splitWs, wsTokens_trim.
  destruct (trim f1) eqn:E; simpl; [|done].
  by rewrite <- wsTokens_trim, E.
Qed.

Lemma prefix_dropChars p s :
  String.prefix p s = true -> replaceFirst p "" s = dropChars (String.length p) s.
Proof.
  intros H. destruct s as [|c s']; cbn [replaceFirst].
  - destruct p; simpl in *; [done|discriminate].
  - by rewrite H.
Qed.

Lemma branchNames_branchOfRef refs :
  map (fun r => replaceFirst "refs/heads/" "" r)
      (List.filter (startsWith "refs/heads/") refs)
  = omap branchOfRef refs.
Proof.
  induction refs as [|r rs IH]; simpl; [done|].
  unfold branchOfRef at 1. destruct (startsWith "refs/heads/" r) eqn:E; simpl; [|done].
  rewrite IH. f_equal. by apply prefix_dropChars.
Qed.

Lemma refs_refsOfField f2 :
  (if truthy (trim f2)
   then List.filter truthy (map trim (splitChar "," (trim f2)))
   else []) = refsOfField f2.
Proof.
  unfold refsOfField. destruct (trim f2) eqn:E; simpl; done.
Qed.

Lemma parseLine_record now m line f0 f1 f2 f3 more :
  splitChar NUL line = f0 :: f1 :: f2 :: f3 :: more ->
  trim f0 <> "" ->
  parseLine now m line = map_set m (trim f0) (recordOfFields now f0 f1 f2 f3).
Proof.
  intros Hsp Hh. unfold parseLine, recordOfFields. rewrite Hsp.
  cbn [length nth Nat.ltb Nat.leb].
  apply truthy_nonempty in Hh. rewrite Hh. cbn [negb].
  by rewrite parents_wsTokens, refs_refsOfField, branchNames_branchOfRef.
Qed.

Lemma parseLine_malformed now m line :
  malformedLine line = true -> parseLine now m line = m.
Proof.
  unfold malformedLine, parseLine. intros H.
  destruct (length (splitChar NUL line) <? 4); [done|].
  simpl in H. by rewrite H.
Qed.

Lemma isDigit_facts c :
  isDigit c = true ->
  isWhiteSpace c = false /\ Ascii.eqb c "-" = false /\ Ascii.eqb c "+" = false.
Proof.
  destruct c as [[|] [|] [|] [|] [|] [|] [|] [|]]; vm_compute; intros H;
    first [discriminate H | done].
Qed.

Lemma readDigits_allDigits s acc :
  allDigits s = true ->
  readDigits s acc true
  = Some (acc * 10 ^ Z.of_nat (String.length s) + decimalValue s)%Z.
Proof.
  revert acc. induction s as [|c s' IH]; intros acc; simpl.
  - intros _. f_equal. lia.
  - intros [Hc Hs']%andb_true_iff. rewrite Hc, (IH _ Hs'). f_equal.
    rewrite Nat2Z.inj_succ, Z.pow_succ_r by lia. lia.
Qed.

Lemma parseInt10_allDigits d :
  allDigits d = true -> d <> "" -> parseInt10 d = Num (decimalValue d).
Proof.
  destruct d as [|c r]; [done|]. intros Hd _.
  pose proof Hd as [Hc Hr]%andb_true_iff.
  destruct (isDigit_facts c Hc) as (Hws & Hm & Hp).
  unfold parseInt10. cbn [trimStart]. rewrite Hws, Hm, Hp.
  cbn [readDigits]. rewrite Hc, (readDigits_allDigits _ _ Hr).
  cbn [decimalValue]. f_equal; try lia.
Qed.

Lemma map_set_elem_of {V} (m : JsMap V) k v e :
  e ∈ map_set m k v -> e ∈ m \/ e = (k, v).
Proof.
  induction m as [|[k' v'] m IH]; simpl.
  - intros H. apply list_elem_of_singleton in H. by right.
  - destruct (String.eqb k' k).
    + intros H. apply elem_of_cons in H as [->|H]; [by right|left; by right].
    + intros H. apply elem_of_cons in H as [->|H]; [left; left|].
      destruct (IH H) as [?|?]; [left; by right|by right].
Qed.

Lemma map_set_keyedByHash m k r :
  keyedByHash m -> hash r = k -> keyedByHash (map_set m k r).
Proof.
  unfold keyedByHash. rewrite !Forall_forall. intros Hm Hr e He.
  apply map_set_elem_of in He as [He| ->]; [by apply Hm|done].
Qed.

Lemma parseLine_keyedByHash now m line : keyedByHash m -> keyedByHash (parseLine now m line).
Proof.
  intros Hm. unfold parseLine.
  destruct (length (splitChar NUL line) <? 4); [done|].
  destruct (negb (truthy (trim (nth 0 (splitChar NUL line) "")))); [done|].
  by apply map_set_keyedByHash.
Qed.

Lemma parseLines_keyedByHash clock i lines m :
  keyedByHash m -> keyedByHash (parseLines clock i lines m).
Proof.
  revert i m. induction lines as [|line rest IH]; intros i m Hm; simpl; [done|].
  apply IH. by apply parseLine_keyedByHash.
Qed.

Lemma parseGitLogToCommitMap_keyedByHash clock logOutput :
  keyedByHash (parseGitLogToCommitMap clock logOutput).
Proof.
  unfold parseGitLogToCommitMap.
  destruct (negb (truthy logOutput) || negb (truthy (trim logOutput)));
    [apply Forall_nil_2|].
  apply parseLines_keyedByHash, Forall_nil_2.
Qed.

Lemma parseGitLogToCommitMap_lines clock logOutput :
  parseGitLogToCommitMap clock logOutput = parseLines clock 0 (logLinesOf logOutput) [].
Proof.
  unfold parseGitLogToCommitMap, logLinesOf.
  destruct logOutput as [|c s]; [done|]. cbn [truthy negb orb].
  destruct (trim (String c s)) eqn:E; simpl; done.
Qed.

Lemma malformedLine_false line :
  malformedLine line = false ->
  exists f0 f1 f2 f3 more,
    splitChar NUL line = f0 :: f1 :: f2 :: f3 :: more /\ trim f0 <> "".
Proof.
  unfold malformedLine. intros [Hlen Hh]%orb_false_iff.
  apply Nat.ltb_ge in Hlen. apply negb_false_iff, truthy_nonempty in Hh.
  destruct (splitChar NUL line) as [|f0 [|f1 [|f2 [|f3 more]]]]; simpl in Hlen; try lia.
  by exists f0, f1, f2, f3, more.
Qed.

Lemma splitChar_single sep piece : hasChar sep piece = false -> splitChar sep piece = [piece].
Proof.
  induction piece as [|c piece IH]; simpl; intros Hno; [done|].
  apply orb_false_iff in Hno as [Hc Hno]. rewrite Hc, IH by done. done.
Qed.

Lemma splitChar_nonempty sep s : exists t ts, splitChar sep s = t :: ts.
Proof.
  induction s as [|c s' (t & ts & IH)]; simpl; [by eexists _, _|].
  destruct (Ascii.eqb c sep); [by eexists _, _|]. rewrite IH. by eexists _, _.
Qed.

Lemma isWhiteSpace_NUL c : isWhiteSpace c = true -> Ascii.eqb c NUL = false.
Proof.
  destruct c as [[|] [|] [|] [|] [|] [|] [|] [|]]; vm_compute; intros H;
    first [discriminate H | done].
Qed.

Lemma isWhiteSpace_LF c : Ascii.eqb c LF = true -> isWhiteSpace c = true.
Proof. intros H. apply Ascii.eqb_eq in H. by subst c. Qed.

Lemma trim_ws_cons c s : isWhiteSpace c = true -> trim (String c s) = trim s.
Proof. intros H. unfold trim. simpl. by rewrite H. Qed.

Lemma trimStart_allWs s : allWs s = true -> trimStart s = "".
Proof.
  induction s as [|c s' IH]; simpl; [done|].
  intros [Hc Hs]%andb_true_iff. rewrite Hc. by apply IH.
Qed.

Lemma trim_allWs s : allWs s = true -> trim s = "".
Proof. intros H. unfold trim. by rewrite trimStart_allWs. Qed.

Lemma trimEnd_empty_allWs s : trimEnd s = "" -> allWs s = true.
Proof.
  induction s as [|c s' IH]; simpl; [done|].
  destruct (trimEnd s') eqn:E; [|done].
  destruct (isWhiteSpace c); [|done]. intros _. by apply IH.
Qed.

Lemma trimStart_empty_allWs s : trimStart s = "" -> allWs s = true.
Proof.
  induction s as [|c s' IH]; simpl; [done|].
  destruct (isWhiteSpace c); [|done]. exact IH.
Qed.

Lemma trim_empty_allWs s : trim s = "" -> allWs s = true.
Proof.
  unfold trim. intros H. apply trimEnd_empty_allWs in H.
  induction s as [|c s' IH]; simpl in *; [done|].
  destruct (isWhiteSpace c) eqn:Hc; simpl; [by apply IH|].
  simpl in H. by rewrite Hc in H.
Qed.

Lemma trimEnd_allWs w : allWs w = true -> trimEnd w = "".
Proof.
  induction w as [|c w IH]; simpl; [done|].
  intros [Hc Hw]%andb_true_iff. by rewrite (IH Hw), Hc.
Qed.

Lemma trimEnd_app_ws s w : allWs w = true -> trimEnd (String.append s w) = trimEnd s.
Proof.
  intros Hw. induction s as [|c s' IH]; simpl; [by apply trimEnd_allWs|].
  by rewrite IH.
Qed.

Lemma trim_app_ws s w : allWs w = true -> trim (String.append s w) = trim s.
Proof.
  intros Hw. induction s as [|c s' IH].
  - simpl. by apply trim_allWs.
  - destruct (isWhiteSpace c) eqn:Hc.
    + change (String.append (String c s') w) with (String c (String.append s' w)).
      by rewrite !trim_ws_cons.
    + unfold trim. change (String.append (String c s') w) with (String c (String.append s' w)).
      cbn [trimStart]. rewrite Hc.
      change (String c (String.append s' w)) with (String.append (String c s') w).
      by apply trimEnd_app_ws.
Qed.

Lemma allWs_hasChar_NUL w : allWs w = true -> hasChar NUL w = false.
Proof.
  induction w as [|c w IH]; simpl; [done|].
  intros [Hc Hw]%andb_true_iff. by rewrite (isWhiteSpace_NUL c Hc), IH.
Qed.

Lemma splitChar_app_nosep sep l w :
  hasChar sep w = false ->
  exists pieces last,
    splitChar sep l = pieces ++ [last]
    /\ splitChar sep (String.append l w) = pieces ++ [String.append last w].
Proof.
  intros Hw. induction l as [|c l (pieces & last & IH1 & IH2)].
  - exists [], "". split; [done|]. simpl. by apply splitChar_single.
  - simpl. destruct (Ascii.eqb c sep).
    + exists ("" :: pieces), last. by rewrite IH1, IH2.
    + rewrite IH1, IH2. destruct pieces as [|p pieces].
      * by exists [], (String c last).
      * by exists (String c p :: pieces), last.
Qed.

Lemma fieldsOf_app_ws l w : allWs w = true -> fieldsOf (String.append l w) = fieldsOf l.
Proof.
  intros Hw. unfold fieldsOf.
  destruct (splitChar_app_nosep NUL l w (allWs_hasChar_NUL w Hw))
    as (pieces & last & -> & ->).
  rewrite !map_app. simpl. by rewrite trim_app_ws.
Qed.

Lemma fieldsOf_ws_cons c l : isWhiteSpace c = true -> fieldsOf (String c l) = fieldsOf l.
Proof.
  intros Hc. unfold fieldsOf. simpl. rewrite (isWhiteSpace_NUL c Hc).
  destruct (splitChar_nonempty NUL l) as (t & ts & ->). simpl.
  by rewrite trim_ws_cons.
Qed.

(** The lines of a text and of the text without its trailing white space:
    the same up to the last line of the shorter text, which the longer
    one continues with white space and follows with blank lines. *)
Lemma splitChar_trimEnd s :
  exists pieces last w blanks,
    splitChar LF (trimEnd s) = pieces ++ [last]
    /\ splitChar LF s = pieces ++ String.append last w :: blanks
    /\ allWs w = true
    /\ Forall (fun b => allWs b = true) blanks.
Proof.
  induction s as [|c s (pieces & last & w & blanks & IH1 & IH2 & Hw & Hblanks)].
  - by exists [], "", "", [].
  - cbn [trimEnd]. destruct (trimEnd s) as [|a t] eqn:Ht.
    + simpl in IH1. destruct pieces as [|p pieces]; [|by destruct pieces].
      injection IH1 as <-. simpl in IH2.
      destruct (isWhiteSpace c) eqn:Hc.
      * cbn [splitChar]. rewrite IH2. destruct (Ascii.eqb c LF).
        -- exists [], "", "", (w :: blanks).
           split; [done|]. split; [done|]. split; [done|]. by constructor.
        -- exists [], "", (String c w), blanks.
           split; [done|]. split; [done|]. split; [|done]. simpl. by rewrite Hc.
      * cbn [splitChar]. rewrite IH2.
        destruct (Ascii.eqb c LF) eqn:E; [apply isWhiteSpace_LF in E; congruence|].
        by exists [], (String c ""), w, blanks.
    + change (splitChar LF (String c (String a t)))
        with (if Ascii.eqb c LF then "" :: splitChar LF (String a t)
              else consHead c (splitChar LF (String a t))).
      rewrite IH1. cbn [splitChar]. rewrite IH2. destruct (Ascii.eqb c LF).
      * by exists ("" :: pieces), last, w, blanks.
      * destruct pieces as [|p pieces].
        -- by exists [], (String c last), w, blanks.
        -- by exists (String c p :: pieces), last, w, blanks.
Qed.

Lemma Forall2_refl_eq {A} (R : A -> A -> Prop) (l : list A) :
  (forall x, R x x) -> Forall2 R l l.
Proof. intros HR. induction l; by constructor. Qed.

Lemma filter_blanks blanks :
  Forall (fun b => allWs b = true) blanks ->
  List.filter (fun line => truthy (trim line)) blanks = [].
Proof.
  induction 1 as [|b blanks Hb _ IH]; [done|]. simpl. by rewrite (trim_allWs b Hb).
Qed.

Lemma lines_trimEnd s :
  Forall2 (fun l1 l2 => fieldsOf l1 = fieldsOf l2)
    (List.filter (fun line => truthy (trim line)) (splitChar LF (trimEnd s)))
    (List.filter (fun line => truthy (trim line)) (splitChar LF s)).
Proof.
  destruct (splitChar_trimEnd s) as (pieces & last & w & blanks & -> & -> & Hw & Hblanks).
  rewrite !List.filter_app. apply Forall2_app; [by apply Forall2_refl_eq|].
  cbn [List.filter]. rewrite (filter_blanks _ Hblanks), (trim_app_ws _ _ Hw).
  destruct (truthy (trim last)); [|constructor].
  constructor; [|constructor]. symmetry. by apply fieldsOf_app_ws.
Qed.

Lemma lines_trimStart s :
  Forall2 (fun l1 l2 => fieldsOf l1 = fieldsOf l2)
    (List.filter (fun line => truthy (trim line)) (splitChar LF (trimStart s)))
    (List.filter (fun line => truthy (trim line)) (splitChar LF s)).
Proof.
  induction s as [|c s IH]; [by apply Forall2_refl_eq|].
  cbn [trimStart]. destruct (isWhiteSpace c) eqn:Hc; [|by apply Forall2_refl_eq].
  cbn [splitChar]. destruct (Ascii.eqb c LF); [exact IH|].
  destruct (splitChar_nonempty LF s) as (t & ts & Hsp). rewrite Hsp in *.
  cbn [consHead List.filter] in *. rewrite (trim_ws_cons c t Hc).
  destruct (truthy (trim t)); [|exact IH].
  inversion IH as [|l1 l2 ls1 ls2 Hhd Htl Heq1 Heq2]; subst.
  constructor; [|done]. by rewrite fieldsOf_ws_cons.
Qed.

Lemma Forall2_trans_eq {A B} (f : A -> B) (l1 l2 l3 : list A) :
  Forall2 (fun x y => f x = f y) l1 l2 -> Forall2 (fun x y => f x = f y) l2 l3 ->
  Forall2 (fun x y => f x = f y) l1 l3.
Proof.
  intros H. revert l3. induction H as [|x y l1 l2 Hxy _ IH]; intros l3 H23.
  - by inversion H23.
  - inversion H23 as [|y' z l2' l3' Hyz Htl]; subst. constructor; [congruence|by apply IH].
Qed.

Lemma logLinesOf_raw logOutput :
  Forall2 (fun l1 l2 => fieldsOf l1 = fieldsOf l2)
    (logLinesOf logOutput)
    (List.filter (fun line => truthy (trim line)) (splitChar LF logOutput)).
Proof.
  unfold logLinesOf, trim at 2.
  eapply Forall2_trans_eq; [apply lines_trimEnd|apply lines_trimStart].
Qed.

Lemma parseLine_fieldsOf now m l1 l2 :
  fieldsOf l1 = fieldsOf l2 -> parseLine now m l1 = parseLine now m l2.
Proof.
  intros H. unfold fieldsOf in H.
  assert (length (splitChar NUL l1) = length (splitChar NUL l2)) as Hlen.
  { apply (f_equal length) in H. by rewrite !length_map in H. }
  assert (forall k, trim (nth k (splitChar NUL l1) "") = trim (nth k (splitChar NUL l2) ""))
    as Hn.
  { assert (forall l k, trim (nth k l "") = nth k (map trim l) "") as Hmap
      by (intros l k; symmetry; exact (map_nth trim l "" k)).
    intros k. by rewrite !Hmap, H. }
  unfold parseLine. cbv zeta. by rewrite Hlen, (Hn 0), (Hn 1), (Hn 2), (Hn 3).
Qed.

Lemma parseLines_fieldsOf clock i ls1 ls2 m :
  Forall2 (fun l1 l2 => fieldsOf l1 = fieldsOf l2) ls1 ls2 ->
  parseLines clock i ls1 m = parseLines clock i ls2 m.
Proof.
  intros H. revert i m. induction H as [|l1 l2 ls1 ls2 Hl _ IH]; intros i m; [done|].
  simpl. by rewrite (parseLine_fieldsOf _ _ _ _ Hl), IH.
Qed.

Lemma parseGitLogToCommitMap_raw clock logOutput :
  parseGitLogToCommitMap clock logOutput
  = parseLines clock 0
      (List.filter (fun line => truthy (trim line)) (splitChar LF logOutput)) [].
Proof.
  rewrite parseGitLogToCommitMap_lines. apply parseLines_fieldsOf, logLinesOf_raw.
Qed.

Lemma map_set_keys_set_add {V} (m : JsMap V) k v :
  map_keys (map_set m k v) = set_add (map_keys m) k.
Proof.
  induction m as [|[k' v'] m IH]; [done|].
  unfold set_add in *. simpl. destruct (String.eqb_spec k' k) as [->|Hne].
  - by rewrite String.eqb_refl.
  - simpl. rewrite IH. destruct (String.eqb_spec k k') as [->|_]; [done|]. simpl.
    by destruct (set_has (map_keys m) k).
Qed.

Lemma blank_malformed line : truthy (trim line) = false -> malformedLine line = true.
Proof.
  intros H. assert (trim line = "") as Ht by (by destruct (trim line)).
  apply trim_empty_allWs in Ht. unfold malformedLine.
  by rewrite (splitChar_single NUL line (allWs_hasChar_NUL line Ht)).
Qed.

Lemma filter_wellFormed_nonBlank lines :
  List.filter (fun line => negb (malformedLine line))
    (List.filter (fun line => truthy (trim line)) lines)
  = List.filter (fun line => negb (malformedLine line)) lines.
Proof.
  induction lines as [|line lines IH]; [done|]. simpl.
  destruct (truthy (trim line)) eqn:E; simpl; [by rewrite IH|].
  by rewrite (blank_malformed line E).
Qed.

Lemma parseLine_keys now m line :
  map_keys (parseLine now m line)
  = if malformedLine line then map_keys m else set_add (map_keys m) (hashOfLine line).
Proof.
  unfold parseLine, malformedLine, hashOfLine.
  destruct (length (splitChar NUL line) <? 4); [done|]. simpl.
  destruct (truthy (trim (nth 0 (splitChar NUL line) ""))); [|done].
  apply map_set_keys_set_add.
Qed.

Lemma parseLines_keys clock i lines m :
  map_keys (parseLines clock i lines m)
  = fold_left set_add
      (map hashOfLine (List.filter (fun line => negb (malformedLine line)) lines))
      (map_keys m).
Proof.
  revert i m. induction lines as [|line lines IH]; intros i m; [done|].
  cbn [parseLines List.filter]. rewrite IH, parseLine_keys.
  by destruct (malformedLine line).
Qed.

Lemma parseLines_entries clock (P : string * CommitNodeInfo -> Prop) i lines m :
  Forall P m ->
  (forall k line f0 f1 f2 f3 more,
      line ∈ lines -> splitChar NUL line = f0 :: f1 :: f2 :: f3 :: more -> trim f0 <> "" ->
      P (trim f0, recordOfFields (clock k) f0 f1 f2 f3)) ->
  Forall P (parseLines clock i lines m).
Proof.
  revert i m. induction lines as [|line lines IH]; intros i m Hm HP; [done|].
  cbn [parseLines]. apply IH.
  - destruct (malformedLine line) eqn:Hbad; [by rewrite parseLine_malformed|].
    destruct (malformedLine_false _ Hbad) as (f0 & f1 & f2 & f3 & more & Hsp & Hh).
    rewrite (parseLine_record _ _ _ _ _ _ _ _ Hsp Hh).
    apply Forall_forall. intros e He. apply map_set_elem_of in He as [He| ->].
    + by eapply Forall_forall in Hm.
    + eapply HP; [left|done|done].
  - intros k l f0 f1 f2 f3 more Hin. apply HP. by right.
Qed.

(** C8: the normalizer is a total function of the raw log.  It reads
    every non-blank line of the raw log, in order: trimming the log as a
    whole and returning early on a blank log change nothing.  A blank line
    and a line with fewer than four NUL-separated fields (or an empty hash
    field) is skipped and the loop goes on; any other line sets, under its
    trimmed hash, the record whose parents are the non-empty
    white-space-separated tokens of field 2, whose branches are the refs
    prefixed [refs/heads/] with the prefix stripped, and whose timestamp is
    the decimal seconds field times 1000 (exact up to 2^53), or the current
    time when the field is empty.  So the result holds the hashes of the
    well-formed lines of the raw log, all of them and no other, each once
    and in the order of their first line, every one with the record of a
    line of the log. *)
Theorem parseGitLogToCommitMap_spec (clock : nat -> Z) :
  (forall logOutput,
      parseGitLogToCommitMap clock logOutput
      = parseLines clock 0
          (List.filter (fun line => truthy (trim line)) (splitChar LF logOutput)) [])
  /\ (forall line,
        trim line = "" \/ length (splitChar NUL line) < 4 -> malformedLine line = true)
  /\ (forall i line rest m,
        malformedLine line = true ->
        parseLines clock i (line :: rest) m = parseLines clock (S i) rest m)
  /\ (forall i line rest m,
        malformedLine line = false ->
        exists f0 f1 f2 f3 more,
          splitChar NUL line = f0 :: f1 :: f2 :: f3 :: more
          /\ trim f0 <> ""
          /\ parseLines clock i (line :: rest) m
             = parseLines clock (S i) rest
                 (map_set m (trim f0) (recordOfFields (clock i) f0 f1 f2 f3)))
  /\ (forall logOutput,
        map_keys (parseGitLogToCommitMap clock logOutput)
        = newSet (map hashOfLine
                      (List.filter (fun line => negb (malformedLine line))
                                   (splitChar LF logOutput))))
  /\ (forall logOutput,
        Forall (fun entry =>
                  exists i line f0 f1 f2 f3 more,
                    line ∈ splitChar LF logOutput
                    /\ splitChar NUL line = f0 :: f1 :: f2 :: f3 :: more
                    /\ trim f0 <> ""
                    /\ entry = (trim f0, recordOfFields (clock i) f0 f1 f2 f3))
               (parseGitLogToCommitMap clock logOutput))
  /\ (forall now f0 f1 f2 f3,
        hash (recordOfFields now f0 f1 f2 f3) = trim f0
        /\ parents (recordOfFields now f0 f1 f2 f3) = wsTokens f1
        /\ branches (recordOfFields now f0 f1 f2 f3)
           = newSet (omap branchOfRef (refsOfField f2)))
  /\ (forall now f0 f1 f2 f3,
        trim f3 = "" -> timestamp (recordOfFields now f0 f1 f2 f3) = Num now)
  /\ (forall now f0 f1 f2 f3,
        allDigits (trim f3) = true -> trim f3 <> "" ->
        (decimalValue (trim f3) * 1000 <= 2 ^ 53)%Z ->
        timestamp (recordOfFields now f0 f1 f2 f3)
        = Num (decimalValue (trim f3) * 1000))
  /\ (forall logOutput,
        wellKeyed (parseGitLogToCommitMap clock logOutput)
        /\ keyedByHash (parseGitLogToCommitMap clock logOutput)).
Proof.
  split; [apply parseGitLogToCommitMap_raw|].
  split.
  { intros line [Hblank|Hshort].
    - apply blank_malformed. by rewrite Hblank.
    - unfold malformedLine. apply Nat.ltb_lt in Hshort. by rewrite Hshort. }
  split.
  { intros i line rest m Hbad. simpl. by rewrite parseLine_malformed. }
  split.
  { intros i line rest m Hok.
    destruct (malformedLine_false _ Hok) as (f0 & f1 & f2 & f3 & more & Hsp & Hh).
    exists f0, f1, f2, f3, more. split; [done|]. split; [done|].
    simpl. by rewrite (parseLine_record _ _ _ _ _ _ _ _ Hsp Hh). }
  split.
  { intros logOutput.
    by rewrite parseGitLogToCommitMap_raw, parseLines_keys, filter_wellFormed_nonBlank. }
  split.
  { intros logOutput. rewrite parseGitLogToCommitMap_raw.
    apply parseLines_entries; [apply Forall_nil_2|].
    intros k line f0 f1 f2 f3 more Hin Hsp Hh.
    apply elem_of_List_filter in Hin as [Hin _].
    by exists k, line, f0, f1, f2, f3, more. }
  split; [done|].
  split.
  { intros now f0 f1 f2 f3 E. simpl. by rewrite E. }
  split.
  { intros now f0 f1 f2 f3 Hd Hne _. simpl.
    apply truthy_nonempty in Hne as Htr. rewrite Htr.
    by rewrite parseInt10_allDigits. }
  intros logOutput. split;
    [apply parseGitLogToCommitMap_wellKeyed | apply parseGitLogToCommitMap_keyedByHash].
Qed.

Lemma parseGitLogToCommitMap_spec_witness :
  parseGitLogToCommitMap (fun _ => 42%Z) sampleLog
  = [("c2", {| hash := "c2"; parents := ["c1"; "c0"];
               timestamp := Num 1700000000000; branches := ["dev"] |});
     ("c1", {| hash := "c1"; parents := []; timestamp := Num 42; branches := [] |})]
  /\ malformedLine "garbage" = true
  /\ parseLines (fun _ => 42%Z) 1 ["garbage"] [] = []
  /\ timestamp (recordOfFields 42 "c2" "" "" " 1700000000 ") = Num (1700000000 * 1000).
Proof.
  destruct (parseGitLogToCommitMap_spec (fun _ => 42%Z))
    as (_ & Hshort & Hbad & _ & _ & _ & _ & _ & Hts & _).
  split; [vm_compute; reflexivity|]. split; [|split].
  - apply Hshort. right. vm_compute. lia.
  - apply (Hbad 1 "garbage" [] []). vm_compute. reflexivity.
  - apply (Hts 42%Z "c2" "" "" " 1700000000 "); vm_compute; [reflexivity| |]; discriminate.
Defined.

(** ** C6: failures during a rebuild *)

Section RebuildFailures.
Variable limit : nat.
Variable clock : nat -> Z.
Variable recorded : option (list MergeEdge).

Lemma buildFullBranchGraph_has_dag git :
  exists dag, g_dag (buildFullBranchGraph limit clock recorded git) = Some dag.
Proof.
  unfold buildFullBranchGraph.
  destruct (git_logAll git); [|by eexists].
  destruct (git_branch git); [|by eexists].
  destruct (_ =? 0); by eexists.
Qed.

Lemma tryCandidates_all_fetches_fail git storage headHash candidates :
  (forall baseHash, git_logRange git baseHash headHash = None) ->
  tryCandidates limit clock recorded git storage headHash candidates = Returned None.
Proof.
  intros Hfail. induction candidates as [|candidate rest IH]; simpl; [done|].
  destruct (negb (truthy candidate) || String.eqb candidate headHash); [done|].
  destruct (loadBranchGraphFromStorage storage candidate) as [baseGraph|]; [|done].
  destruct (g_dag baseGraph) as [dag|] eqn:Hdag; [|done].
  destruct (negb (isAncestor git candidate headHash)); [done|].
  unfold buildBranchGraphIncrementally. by rewrite Hdag, Hfail.
Qed.

Lemma getBranchGraph_fallback git storage :
  loadBranchGraphFromStorage storage (headHashOf git) = None ->
  tryBuildIncrementalBranchGraph limit clock recorded git storage (headHashOf git)
    = Returned None ->
  exists storage',
    getBranchGraph limit clock recorded None (Some git) storage false
    = Returned (buildFullBranchGraph limit clock recorded git, storage').
Proof.
  intros Hload Htry. unfold getBranchGraph. cbn [negb andb].
  fold (headHashOf git). rewrite Hload.
  destruct (truthy (headHashOf git)); [rewrite Htry|]; by eexists.
Qed.
End RebuildFailures.

(** C6, as the claim reads: a failing incremental path ends in a
    snapshot with empty nodes and links.  Here the incremental log fetch
    throws for the stored candidate [c1]; [getBranchGraph] falls back to
    the full rebuild and returns its snapshot, which has a node. *)
Lemma incremental_failure_not_empty :
  buildBranchGraphIncrementally BRANCH_GRAPH_MAX_COMMITS (fun _ => 0%Z) None
      gitRangeFails baseSnapshot "c1" "c2" = Returned None
  /\ exists g storage' dag,
       getBranchGraph BRANCH_GRAPH_MAX_COMMITS (fun _ => 0%Z) None
         None (Some gitRangeFails) storedAtC1 false = Returned (g, storage')
       /\ g_dag g = Some dag
       /\ map n_hash (nodes dag) = ["c2"]
       /\ nodes dag <> [].
Proof.
  split; [reflexivity|].
  eexists _, _, _. split; [vm_compute; reflexivity|].
  split; [reflexivity|]. split; [reflexivity|]. discriminate.
Qed.

(** C6, amended: the full rebuild never throws and always hands back a
    snapshot with a dag; when its log fetch or its branch summary throws
    the snapshot is the empty one, and when its log parses to no commit the
    nodes and links are empty; with a positive commit limit its snapshot
    has no node in these cases only.  A failed incremental log fetch makes
    the incremental build return null, never throw; when every incremental
    fetch fails no candidate yields a graph, and when no stored snapshot or
    candidate serves, [getBranchGraph] returns the snapshot of the full
    rebuild. *)
Theorem rebuild_failure_policy (limit : nat) (clock : nat -> Z)
    (recorded : option (list MergeEdge)) (git : Git) :
  (exists dag, g_dag (buildFullBranchGraph limit clock recorded git) = Some dag)
  /\ (git_logAll git = None \/ git_branch git = None ->
      buildFullBranchGraph limit clock recorded git = emptyGraph)
  /\ (forall logOutput,
        git_logAll git = Some logOutput ->
        parseGitLogToCommitMap clock logOutput = [] ->
        g_dag (buildFullBranchGraph limit clock recorded git)
        = Some {| nodes := []; links := [] |})
  /\ (0 < limit ->
      forall dag,
        g_dag (buildFullBranchGraph limit clock recorded git) = Some dag ->
        nodes dag = [] ->
        git_logAll git = None \/ git_branch git = None
        \/ exists logOutput,
             git_logAll git = Some logOutput
             /\ parseGitLogToCommitMap clock logOutput = [])
  /\ (forall baseGraph baseHash headHash,
        git_logRange git baseHash headHash = None ->
        buildBranchGraphIncrementally limit clock recorded git baseGraph baseHash headHash
        = Returned None)
  /\ (forall storage headHash,
        (forall baseHash, git_logRange git baseHash headHash = None) ->
        tryBuildIncrementalBranchGraph limit clock recorded git storage headHash
        = Returned None)
  /\ (forall storage,
        loadBranchGraphFromStorage storage (headHashOf git) = None ->
        tryBuildIncrementalBranchGraph limit clock recorded git storage (headHashOf git)
          = Returned None ->
        exists storage',
          getBranchGraph limit clock recorded None (Some git) storage false
          = Returned (buildFullBranchGraph limit clock recorded git, storage')).
Proof.
  split; [apply buildFullBranchGraph_has_dag|].
  split.
  { unfold buildFullBranchGraph. intros [-> | Hb]; [done|].
    destruct (git_logAll git); [|done]. by rewrite Hb. }
  split.
  { intros logOutput Hlog Hparse. unfold buildFullBranchGraph.
    rewrite Hlog, Hparse. destruct (git_branch git); [|done].
    unfold enforceCommitLimit. simpl. done. }
  split.
  { intros Hlimit dag Hdag Hnodes. unfold buildFullBranchGraph in Hdag.
    destruct (git_logAll git) as [logOutput|]; [|by left].
    destruct (git_branch git) as [branchSummary|]; [|right; by left].
    right. right. exists logOutput. split; [done|].
    pose proof (parseGitLogToCommitMap_wellKeyed clock logOutput) as Hkeyed.
    rewrite (enforceCommitLimit_take limit _ Hkeyed) in Hdag.
    destruct (parseGitLogToCommitMap clock logOutput) as [|entry entries]; [done|].
    destruct limit as [|limit']; [lia|]. simpl in Hdag.
    injection Hdag as <-. done. }
  split.
  { intros baseGraph baseHash headHash Hfail. unfold buildBranchGraphIncrementally.
    destruct (g_dag baseGraph); [|done]. by rewrite Hfail. }
  split.
  { intros storage headHash Hfail. unfold tryBuildIncrementalBranchGraph.
    destruct storage as [st|]; [|done]. destruct (st_index st) eqn:E; [done|].
    by apply tryCandidates_all_fetches_fail. }
  apply getBranchGraph_fallback.
Qed.

Lemma rebuild_failure_policy_witness :
  buildBranchGraphIncrementally BRANCH_GRAPH_MAX_COMMITS (fun _ => 0%Z) None
      gitRangeFails baseSnapshot "c1" "c2" = Returned None
  /\ tryBuildIncrementalBranchGraph BRANCH_GRAPH_MAX_COMMITS (fun _ => 0%Z) None
       gitRangeFails storedAtC1 "c2" = Returned None
  /\ (exists storage',
        getBranchGraph BRANCH_GRAPH_MAX_COMMITS (fun _ => 0%Z) None
          None (Some gitRangeFails) storedAtC1 false
        = Returned (buildFullBranchGraph BRANCH_GRAPH_MAX_COMMITS (fun _ => 0%Z) None
                      gitRangeFails, storage'))
  /\ buildFullBranchGraph BRANCH_GRAPH_MAX_COMMITS (fun _ => 0%Z) None gitLogFails
     = emptyGraph
  /\ (git_logAll gitLogFails = None \/ git_branch gitLogFails = None
      \/ exists logOutput,
           git_logAll gitLogFails = Some logOutput
           /\ parseGitLogToCommitMap (fun _ => 0%Z) logOutput = []).
Proof.
  destruct (rebuild_failure_policy BRANCH_GRAPH_MAX_COMMITS (fun _ => 0%Z) None gitRangeFails)
    as (_ & _ & _ & _ & Hinc & Htry & Hget).
  destruct (rebuild_failure_policy BRANCH_GRAPH_MAX_COMMITS (fun _ => 0%Z) None gitLogFails)
    as (_ & Hempty & _ & Honly & _).
  split; [apply Hinc; reflexivity|].
  split; [apply Htry; reflexivity|].
  split; [apply Hget; reflexivity|].
  split; [apply Hempty; by left|].
  apply (Honly ltac:(unfold BRANCH_GRAPH_MAX_COMMITS; lia) {| nodes := []; links := [] |});
    reflexivity.
Defined.

(** Beside the claim: in the incremental path [git.branch()] is awaited
    outside the [try], so when it throws after a successful range log the
    exception leaves [getBranchGraph]. *)
Lemma incremental_branch_summary_throws :
  let git := {| git_logAll := Some oneCommitLog;
                git_logRange := fun _ _ => Some oneCommitLog;
                git_branch := None;
                git_mergeBase := fun _ _ => true;
                git_revparseHead := Some "c2" |} in
  getBranchGraph BRANCH_GRAPH_MAX_COMMITS (fun _ => 0%Z) None
    None (Some git) storedAtC1 false = Thrown.
Proof. reflexivity. Qed.

(** ** C1: incremental build against full rebuild *)

Lemma set_add_NoDup s x : NoDup s -> NoDup (set_add s x).
Proof.
  intros Hs. unfold set_add. destruct (set_has s x) eqn:E; [done|].
  apply set_has_not_elem_of in E. apply NoDup_app. split; [done|]. split.
  - intros y Hy Hy'. apply list_elem_of_singleton in Hy' as ->. done.
  - apply NoDup_singleton.
Qed.

Lemma fold_set_add_NoDup xs acc : NoDup acc -> NoDup (fold_left set_add xs acc).
Proof.
  revert acc. induction xs as [|x xs IH]; intros acc Hacc; simpl; [done|].
  by apply IH, set_add_NoDup.
Qed.

Lemma fold_set_add_fresh xs acc :
  NoDup (acc ++ xs) -> fold_left set_add xs acc = acc ++ xs.
Proof.
  revert acc. induction xs as [|x xs IH]; intros acc Hnd; simpl.
  - by rewrite app_nil_r.
  - assert (set_has acc x = false) as Hx.
    { apply set_has_not_elem_of. apply NoDup_app in Hnd as (_ & Hdisj & _).
      intros Hin. apply (Hdisj x Hin). left. }
    unfold set_add at 2. rewrite Hx.
    rewrite IH; rewrite <- app_assoc; done.
Qed.

Lemma newSet_idem xs : newSet (newSet xs) = newSet xs.
Proof.
  unfold newSet at 1. rewrite fold_set_add_fresh; [done|]. simpl.
  apply fold_set_add_NoDup, NoDup_nil_2.
Qed.

Lemma parseLine_branchesAreSets now m line :
  branchesAreSets m -> branchesAreSets (parseLine now m line).
Proof.
  intros Hm. unfold parseLine.
  destruct (length (splitChar NUL line) <? 4); [done|].
  destruct (negb (truthy (trim (nth 0 (splitChar NUL line) "")))); [done|].
  unfold branchesAreSets in *. rewrite Forall_forall in *. intros e He.
  apply map_set_elem_of in He as [He| ->]; [by apply Hm|].
  simpl. apply newSet_idem.
Qed.

Lemma parseGitLogToCommitMap_branchesAreSets clock logOutput :
  branchesAreSets (parseGitLogToCommitMap clock logOutput).
Proof.
  rewrite parseGitLogToCommitMap_lines.
  assert (forall lines i m, branchesAreSets m ->
            branchesAreSets (parseLines clock i lines m)) as H.
  { induction lines as [|line rest IH]; intros i m Hm; simpl; [done|].
    by apply IH, parseLine_branchesAreSets. }
  apply H, Forall_nil_2.
Qed.

Lemma fold_map_set_fresh (entries acc : JsMap CommitNodeInfo) :
  NoDup (map_keys (acc ++ entries)) ->
  fold_left (fun acc entry => map_set acc (fst entry) (snd entry)) entries acc
  = acc ++ entries.
Proof.
  revert acc. induction entries as [|[k v] rest IH]; intros acc Hnd; simpl.
  - by rewrite app_nil_r.
  - assert (k ∉ map_keys acc) as Hk.
    { unfold map_keys in Hnd. rewrite map_app in Hnd.
      apply NoDup_app in Hnd as (_ & Hdisj & _).
      intros Hin. apply (Hdisj k Hin). left. }
    rewrite map_set_fresh by done.
    rewrite IH; rewrite <- app_assoc; done.
Qed.

Lemma copyCommits_id m : NoDup (map_keys m) -> copyCommits m = m.
Proof. intros H. unfold copyCommits. by rewrite fold_map_set_fresh. Qed.

Lemma map_has_false {V} (m : JsMap V) k : k ∉ map_keys m -> map_has m k = false.
Proof. intros H. unfold map_has. apply map_get_None in H. by rewrite H. Qed.

Lemma fold_addBaseNode_fresh (old acc : JsMap CommitNodeInfo) :
  NoDup (map_keys (acc ++ old)) -> keyedByHash old -> branchesAreSets old ->
  fold_left addBaseNode (map dagNodeOf (map_values old)) acc = acc ++ old.
Proof.
  revert acc. induction old as [|[k r] rest IH]; intros acc Hnd Hkey Hset; simpl.
  - by rewrite app_nil_r.
  - apply Forall_cons in Hkey as [Hk Hkey]. apply Forall_cons in Hset as [Hs Hset].
    simpl in Hk, Hs.
    assert (k ∉ map_keys acc) as Hfresh.
    { unfold map_keys in Hnd. rewrite map_app in Hnd.
      apply NoDup_app in Hnd as (_ & Hdisj & _).
      intros Hin. apply (Hdisj k Hin). left. }
    unfold addBaseNode at 2. cbn [dagNodeOf n_hash n_parents n_timestamp n_branches].
    rewrite Hk, (map_has_false _ _ Hfresh), Hs, (map_set_fresh _ _ _ Hfresh).
    assert ({| hash := k; parents := parents r; timestamp := timestamp r;
               branches := branches r |} = r) as ->
      by (destruct r; simpl in *; by subst).
    rewrite IH; [by rewrite <- app_assoc|by rewrite <- app_assoc|done|done].
Qed.

Lemma take_app_take {A} (n : nat) (a b : list A) :
  take n (a ++ take n b) = take n (a ++ b).
Proof.
  destruct (decide (n <= length a)) as [Hle|Hgt].
  - by rewrite !take_app_le.
  - rewrite !take_app_ge by lia. rewrite take_take. do 2 f_equal. lia.
Qed.

Lemma wellKeyed_app_take n (a b : JsMap CommitNodeInfo) :
  wellKeyed (a ++ b) -> wellKeyed (a ++ take n b).
Proof.
  unfold wellKeyed, keysNonEmpty, map_keys. rewrite !map_app.
  intros [Hnd Hne]. split.
  - apply NoDup_app in Hnd as (Ha & Hdisj & Hb). apply NoDup_app.
    split; [done|]. split.
    + intros x Hx Hx'. apply (Hdisj x Hx).
      apply list_elem_of_fmap in Hx' as (e & -> & He).
      apply list_elem_of_fmap. exists e. split; [done|].
      eapply elem_of_sublist; [exact He|apply sublist_take].
    + rewrite <- (take_drop n b), map_app in Hb. by apply NoDup_app in Hb as (? & _).
  - apply Forall_app in Hne as [Ha Hb]. apply Forall_app. split; [done|].
    rewrite <- (take_drop n b), map_app in Hb. by apply Forall_app in Hb as [? _].
Qed.

Lemma sameGraph_refl g dag : g_dag g = Some dag -> sameGraph g g.
Proof. intros H. split; [done|]. split; [done|]. by exists dag, dag. Qed.

Lemma buildFullBranchGraph_nodes limit clock recorded git logOutput bs :
  git_logAll git = Some logOutput -> git_branch git = Some bs ->
  exists dag,
    g_dag (buildFullBranchGraph limit clock recorded git) = Some dag
    /\ nodes dag
       = map dagNodeOf
           (map_values (enforceCommitLimit limit (parseGitLogToCommitMap clock logOutput)))
    /\ (parseGitLogToCommitMap clock logOutput = [] ->
        links dag = [] /\ g_merges (buildFullBranchGraph limit clock recorded git) = []).
Proof.
  intros Hlog Hbs. unfold buildFullBranchGraph. rewrite Hlog, Hbs.
  destruct (map_size _ =? 0) eqn:E.
  - eexists. split; [reflexivity|]. simpl. apply Nat.eqb_eq in E.
    destruct (enforceCommitLimit limit _); [done|discriminate].
  - eexists. split; [reflexivity|]. split; [done|].
    intros Hnil. rewrite Hnil in E. discriminate.
Qed.

Lemma map_has_elem_of {V} (m : JsMap V) k : map_has m k = true <-> k ∈ map_keys m.
Proof.
  unfold map_has. destruct (map_get m k) eqn:E.
  - split; [|done]. intros _. destruct (decide (k ∈ map_keys m)) as [|Hn]; [done|].
    apply map_get_None in Hn. congruence.
  - split; [done|]. intros Hin. apply map_get_None in E. done.
Qed.

Lemma map_has_app_fresh {V} (m : JsMap V) k v k' :
  k' <> k -> map_has (m ++ [(k, v)]) k' = map_has m k'.
Proof.
  intros Hne. destruct (map_has m k') eqn:E.
  - apply map_has_elem_of. apply map_has_elem_of in E.
    unfold map_keys in *. rewrite map_app. apply elem_of_app. by left.
  - destruct (map_has (m ++ [(k, v)]) k') eqn:E'; [|done].
    apply map_has_elem_of in E'. unfold map_keys in E'. rewrite map_app in E'.
    apply elem_of_app in E' as [Hin|Hin].
    + apply map_has_elem_of in Hin. congruence.
    + simpl in Hin. apply list_elem_of_singleton in Hin. done.
Qed.

Lemma fold_addBaseNode_filter (cached acc : JsMap CommitNodeInfo) :
  NoDup (map_keys cached) -> keyedByHash cached -> branchesAreSets cached ->
  fold_left addBaseNode (map dagNodeOf (map_values cached)) acc
  = acc ++ List.filter (fun entry => negb (map_has acc (fst entry))) cached.
Proof.
  revert acc. induction cached as [|[k r] rest IH]; intros acc Hnd Hkey Hset; simpl.
  - by rewrite app_nil_r.
  - apply NoDup_cons in Hnd as [Hk' Hnd].
    apply Forall_cons in Hkey as [Hk Hkey]. apply Forall_cons in Hset as [Hs Hset].
    simpl in Hk, Hs.
    unfold addBaseNode at 2. cbn [dagNodeOf n_hash n_parents n_timestamp n_branches].
    rewrite Hk. destruct (map_has acc k) eqn:Ehas; cbn [negb].
    + by apply IH.
    + assert (k ∉ map_keys acc) as Hfresh.
      { intros Hin. apply map_has_elem_of in Hin. congruence. }
      rewrite Hs, (map_set_fresh _ _ _ Hfresh).
      assert ({| hash := k; parents := parents r; timestamp := timestamp r;
                 branches := branches r |} = r) as ->
        by (destruct r; simpl in *; by subst).
      rewrite IH by done. rewrite <- app_assoc. simpl. do 2 f_equal.
      apply List.filter_ext_in. intros [k' r'] Hin. simpl.
      rewrite map_has_app_fresh; [done|]. intros ->. apply Hk'.
      apply list_elem_of_fmap. exists (k, r'). split; [done|]. by apply list_elem_of_In.
Qed.

Lemma dagNodeOf_inj r r' : dagNodeOf r = dagNodeOf r' -> r = r'.
Proof. destruct r, r'. unfold dagNodeOf. simpl. by intros [= -> -> -> ->]. Qed.

Lemma keyedByHash_nodes_inj (m m' : JsMap CommitNodeInfo) :
  keyedByHash m -> keyedByHash m' ->
  map dagNodeOf (map_values m) = map dagNodeOf (map_values m') -> m = m'.
Proof.
  intros Hm. revert m'. induction Hm as [|[k r] m Hk _ IH]; intros m' Hm' Heq.
  - by destruct m'.
  - destruct Hm' as [|[k' r'] m' Hk' Hm']; [done|].
    change (dagNodeOf r :: map dagNodeOf (map_values m)
            = dagNodeOf r' :: map dagNodeOf (map_values m')) in Heq.
    assert (dagNodeOf r = dagNodeOf r') as Hr by congruence.
    assert (map dagNodeOf (map_values m) = map dagNodeOf (map_values m')) as Hrest
      by congruence.
    apply dagNodeOf_inj in Hr. simpl in Hk, Hk'. subst.
    f_equal. by apply IH.
Qed.

Lemma keyedByHash_filter P (m : JsMap CommitNodeInfo) :
  keyedByHash m -> keyedByHash (List.filter P m).
Proof.
  unfold keyedByHash. rewrite !Forall_forall. intros H e He.
  apply elem_of_List_filter in He as [He _]. by apply H.
Qed.

Lemma mergedCommits_keyedByHash newCommits cached :
  keyedByHash newCommits -> keyedByHash cached ->
  keyedByHash (mergedCommits newCommits cached).
Proof.
  intros Hn Hc. unfold mergedCommits. apply Forall_app. split; [done|].
  by apply keyedByHash_filter.
Qed.

Lemma keys_filter_sublist {V} P (m : JsMap V) :
  map_keys (List.filter P m) `sublist_of` map_keys m.
Proof.
  induction m as [|[k v] m IH]; simpl; [done|].
  destruct (P (k, v)); simpl; by constructor.
Qed.

Lemma mergedCommits_wellKeyed newCommits cached :
  wellKeyed newCommits -> wellKeyed cached -> wellKeyed (mergedCommits newCommits cached).
Proof.
  unfold wellKeyed, keysNonEmpty, mergedCommits, map_keys.
  intros [Hnd Hne] [Hnd' Hne']. rewrite map_app. split.
  - apply NoDup_app. split; [done|]. split.
    + intros k Hk Hk'. apply list_elem_of_fmap in Hk' as (e & -> & He).
      apply elem_of_List_filter in He as [_ He]. apply negb_true_iff in He.
      apply map_has_elem_of in Hk. congruence.
    + eapply sublist_NoDup; [exact Hnd'|apply (keys_filter_sublist _ cached)].
  - apply Forall_app. split; [done|].
    apply Forall_forall. intros k Hk. rewrite Forall_forall in Hne'. apply Hne'.
    eapply elem_of_sublist; [exact Hk|apply (keys_filter_sublist _ cached)].
Qed.

Lemma wellKeyed_take n (m : JsMap CommitNodeInfo) : wellKeyed m -> wellKeyed (take n m).
Proof.
  intros H. apply (wellKeyed_app_take n [] m H).
Qed.

Lemma take_nil_inv {A} n (l : list A) : 0 < n -> take n l = [] -> l = [].
Proof. destruct n; [lia|]. by destruct l. Qed.

Lemma buildBranchGraphFromCommitMap_nodes recorded commits bs :
  exists dag,
    g_dag (buildBranchGraphFromCommitMap recorded commits bs) = Some dag
    /\ nodes dag = map dagNodeOf (map_values commits).
Proof. eexists. split; reflexivity. Qed.

(** C1, amended: let the cached snapshot agree with a full rebuild at H1
    and the commit limit be positive.  The incremental build returns a
    snapshot, built from the records of the range log [(H1..H2]] followed
    by the cached nodes whose hash is not among them, cut at the limit.  Its
    branches, merges, nodes and links equal those of the full rebuild at H2
    exactly when the first records of the full log at H2, up to the limit,
    are these: the range records, then the cached nodes as they were cached
    (same hashes, parents, branch decorations and timestamps). *)
Theorem incremental_equals_full (limit : nat) (clock1 clock2 clock3 : nat -> Z)
    (recorded1 recorded : option (list MergeEdge)) (git1 git2 : Git)
    (base : BranchGraphData) (baseHash headHash log1 rangeLog log2 : string)
    (bs1 bs2 : BranchSummary) :
  0 < limit ->
  git_logAll git1 = Some log1 -> git_branch git1 = Some bs1 ->
  sameGraph base (buildFullBranchGraph limit clock1 recorded1 git1) ->
  git_logAll git2 = Some log2 ->
  git_logRange git2 baseHash headHash = Some rangeLog ->
  git_branch git2 = Some bs2 ->
  exists incremental,
    buildBranchGraphIncrementally limit clock2 recorded git2 base baseHash headHash
    = Returned (Some incremental)
    /\ (sameGraph incremental (buildFullBranchGraph limit clock3 recorded git2)
        <-> take limit (parseGitLogToCommitMap clock3 log2)
            = take limit
                (mergedCommits (parseGitLogToCommitMap clock2 rangeLog)
                               (take limit (parseGitLogToCommitMap clock1 log1)))).
Proof.
  intros Hlimit Hlog1 Hbs1 Hbase Hlog2 Hrange Hbs2.
  set (old := parseGitLogToCommitMap clock1 log1) in *.
  set (new := parseGitLogToCommitMap clock2 rangeLog) in *.
  set (full := parseGitLogToCommitMap clock3 log2) in *.
  pose proof (parseGitLogToCommitMap_wellKeyed clock1 log1) as Hwkold. fold old in Hwkold.
  pose proof (parseGitLogToCommitMap_wellKeyed clock2 rangeLog) as Hwknew. fold new in Hwknew.
  pose proof (parseGitLogToCommitMap_wellKeyed clock3 log2) as Hwkfull. fold full in Hwkfull.
  pose proof (parseGitLogToCommitMap_keyedByHash clock1 log1) as Hkold. fold old in Hkold.
  pose proof (parseGitLogToCommitMap_keyedByHash clock2 rangeLog) as Hknew. fold new in Hknew.
  pose proof (parseGitLogToCommitMap_keyedByHash clock3 log2) as Hkfull. fold full in Hkfull.
  pose proof (parseGitLogToCommitMap_branchesAreSets clock1 log1) as Hset. fold old in Hset.
  destruct (buildFullBranchGraph_nodes limit clock1 recorded1 git1 log1 bs1 Hlog1 Hbs1)
    as (dagF & HdagF & HnodesF & HemptyF). fold old in HnodesF, HemptyF.
  destruct Hbase as (_ & HmergesB & dB & dF' & HdB & HdF' & HnodesB & HlinksB).
  rewrite HdagF in HdF'. injection HdF' as <-.
  rewrite enforceCommitLimit_take in HnodesF by done.
  set (merged := mergedCommits new (take limit old)).
  assert (wellKeyed merged) as Hwkm
    by (apply mergedCommits_wellKeyed; [done|by apply wellKeyed_take]).
  assert (keyedByHash merged) as Hkm
    by (apply mergedCommits_keyedByHash; [done|by apply Forall_take]).
  assert (combineCommits new (nodes dB) = merged) as Hcomb.
  { unfold combineCommits. rewrite HnodesB, HnodesF.
    rewrite copyCommits_id by apply Hwknew.
    apply fold_addBaseNode_filter; [|by apply Forall_take..].
    by apply (wellKeyed_take limit old). }
  unfold buildBranchGraphIncrementally.
  rewrite HdB, Hrange, Hbs2. fold new. rewrite Hcomb.
  unfold buildFullBranchGraph. rewrite Hlog2, Hbs2. fold full.
  rewrite (enforceCommitLimit_take limit full) by done.
  rewrite (enforceCommitLimit_take limit merged) by done.
  destruct (map_size merged =? 0) eqn:Esize.
  - (* nothing new and nothing cached *)
    apply Nat.eqb_eq in Esize. unfold map_size in Esize.
    assert (merged = []) as Hmerged by (by destruct merged).
    assert (new = [] /\ take limit old = []) as [Hnew Hold].
    { unfold merged, mergedCommits in Hmerged.
      apply app_eq_nil in Hmerged as [Hnew Hf]. split; [done|].
      rewrite Hnew in Hf. simpl in Hf.
      rewrite List_filter_all in Hf; [done|]. by apply Forall_forall. }
    apply (take_nil_inv _ _ Hlimit) in Hold as Hold'.
    destruct (HemptyF Hold') as [HlinksF HmergesF].
    eexists. split; [reflexivity|]. rewrite Hmerged, take_nil. split.
    + intros (_ & _ & d1 & d2 & Hd1 & Hd2 & Hnodes & _).
      cbn [g_dag] in Hd1. injection Hd1 as <-.
      rewrite HnodesB, HnodesF, Hold in Hnodes. simpl in Hnodes.
      destruct (take limit full) as [|e es] eqn:Efull; [done|].
      simpl in Hd2. injection Hd2 as <-. done.
    + intros ->. simpl.
      split; [done|]. split; [simpl; congruence|].
      exists dB. eexists. simpl. split; [done|]. split; [reflexivity|]. simpl.
      rewrite HnodesB, HnodesF, HlinksB, HlinksF, Hold. done.
  - (* some commit: the incremental path builds from the merged map *)
    eexists. split; [reflexivity|].
    assert (take limit merged <> []) as Hne.
    { intros Hnil. apply (take_nil_inv _ _ Hlimit) in Hnil.
      rewrite Hnil in Esize. done. }
    split.
    + intros (_ & _ & d1 & d2 & Hd1 & Hd2 & Hnodes & _).
      cbn [buildBranchGraphFromCommitMap g_dag] in Hd1. injection Hd1 as <-.
      cbn [nodes] in Hnodes.
      assert (nodes d2 = map dagNodeOf (map_values (take limit full))) as Hd2n.
      { destruct (map_size (take limit full) =? 0) eqn:E.
        - apply Nat.eqb_eq in E. simpl in Hd2. injection Hd2 as <-.
          destruct (take limit full); [done|discriminate].
        - simpl in Hd2. by injection Hd2 as <-. }
      rewrite Hd2n in Hnodes. symmetry.
      apply keyedByHash_nodes_inj; [by apply Forall_take..|done].
    + intros Heq. rewrite Heq.
      assert ((map_size (take limit merged) =? 0) = false) as ->.
      { apply Nat.eqb_neq. unfold map_size. by destruct (take limit merged). }
      by eapply sameGraph_refl.
Qed.

(** C1, as the claim reads: HEAD advances from [c1] to its descendant
    [c2] and the snapshot of [c1] is cached, so the incremental build should
    give the nodes of a full rebuild at [c2].  It keeps the cached node of
    [c1] with its old branch set [feature], where the full rebuild reads
    [main]. *)
Lemma incremental_differs_from_full :
  exists incremental storage',
    getBranchGraph BRANCH_GRAPH_MAX_COMMITS noClock None None (Some gitAtC2)
      (Some {| st_graphs := [("c1", cachedAtC1)]; st_index := ["c1"] |}) false
    = Returned (incremental, storage')
    /\ buildBranchGraphIncrementally BRANCH_GRAPH_MAX_COMMITS noClock None
         gitAtC2 cachedAtC1 "c1" "c2" = Returned (Some incremental)
    /\ nodeBranches incremental = [("c2", []); ("c1", ["feature"])]
    /\ nodeBranches (buildFullBranchGraph BRANCH_GRAPH_MAX_COMMITS noClock None gitAtC2)
       = [("c2", []); ("c1", ["main"])]
    /\ ~ sameGraph incremental
           (buildFullBranchGraph BRANCH_GRAPH_MAX_COMMITS noClock None gitAtC2).
Proof.
  eexists _, _. split; [vm_compute; reflexivity|].
  split; [vm_compute; reflexivity|].
  split; [reflexivity|]. split; [vm_compute; reflexivity|].
  intros (_ & _ & d1 & d2 & H1 & H2 & Hnodes & _).
  vm_compute in H1, H2. injection H1 as <-. injection H2 as <-.
  discriminate Hnodes.
Qed.

(** At the limit: the cached snapshot holds [c1] and [c0], the range
    brings [c2], and both builds end with [c2] and [c1]. *)
Lemma incremental_equals_full_witness :
  exists incremental,
    buildBranchGraphIncrementally 2 noClock None gitWindowAtC2
      (buildFullBranchGraph 2 noClock None gitWindowAtC1) "c1" "c2"
    = Returned (Some incremental)
    /\ sameGraph incremental (buildFullBranchGraph 2 noClock None gitWindowAtC2)
    /\ map fst (nodeBranches (buildFullBranchGraph 2 noClock None gitWindowAtC1))
       = ["c1"; "c0"]
    /\ map fst (nodeBranches incremental) = ["c2"; "c1"].
Proof.
  edestruct (incremental_equals_full 2 noClock noClock noClock None None
               gitWindowAtC1 gitWindowAtC2
               (buildFullBranchGraph 2 noClock None gitWindowAtC1) "c1" "c2")
    as (incremental & Hbuild & Hsame).
  - lia.
  - reflexivity.
  - reflexivity.
  - eapply sameGraph_refl. vm_compute. reflexivity.
  - reflexivity.
  - reflexivity.
  - reflexivity.
  - exists incremental. split; [exact Hbuild|].
    split; [apply Hsame; vm_compute; reflexivity|].
    split; [vm_compute; reflexivity|].
    vm_compute in Hbuild. injection Hbuild as <-. vm_compute. reflexivity.
Defined.

(** ** The layout engine: bindings are kept *)

Lemma keepsBinding_refl v : keepsBinding v v.
Proof. by repeat split. Qed.

Lemma keepsBinding_trans v1 v2 v3 :
  keepsBinding v1 v2 -> keepsBinding v2 v3 -> keepsBinding v1 v3.
Proof.
  intros (Hid1 & Hp1 & Hn1 & H1) (Hid2 & Hp2 & Hn2 & H2).
  split; [congruence|]. split; [congruence|]. split; [lia|].
  intros b Hb. destruct (H1 b Hb) as [Hb2 Hx2]. destruct (H2 b Hb2) as [Hb3 Hx3].
  split; [done|congruence].
Qed.

Lemma addToBranch_bound_noop branch x v b :
  onBranch v = Some b -> addToBranch branch x v = v.
Proof. intros H. unfold addToBranch. by rewrite H. Qed.

Lemma addToBranch_keeps branch x v : keepsBinding v (addToBranch branch x v).
Proof.
  unfold addToBranch. destruct (onBranch v) eqn:E; [apply keepsBinding_refl|].
  repeat split; try done. all: simpl; congruence.
Qed.

Lemma registerUnavailablePoint_keeps x target branch v :
  keepsBinding v (registerUnavailablePoint x target branch v).
Proof.
  unfold registerUnavailablePoint. destruct (x =? nextX v); [|apply keepsBinding_refl].
  by repeat split.
Qed.

Lemma registerParentProcessed_keeps v : keepsBinding v (registerParentProcessed v).
Proof. repeat split; try done. simpl. lia. Qed.

Lemma keepsBindings_refl vs : keepsBindings vs vs.
Proof. induction vs; constructor; [apply keepsBinding_refl|done]. Qed.

Lemma keepsBindings_trans vs1 vs2 vs3 :
  keepsBindings vs1 vs2 -> keepsBindings vs2 vs3 -> keepsBindings vs1 vs3.
Proof.
  intros H12. revert vs3. induction H12 as [|v1 v2 l1 l2 Hv H12 IH]; intros vs3 H23.
  - inversion H23. constructor.
  - inversion H23 as [|? v3 ? l3 Hv' H23']; subst. constructor.
    + by eapply keepsBinding_trans.
    + by apply IH.
Qed.

Lemma keepsBindings_alter f i vs :
  (forall v, keepsBinding v (f v)) -> keepsBindings vs (alter f i vs).
Proof.
  intros Hf. revert i. induction vs as [|v vs IH]; intros i; [constructor|].
  destruct i; simpl; constructor.
  - apply Hf.
  - apply keepsBindings_refl.
  - apply keepsBinding_refl.
  - apply IH.
Qed.

Lemma keepsBindings_length vs vs' : keepsBindings vs vs' -> length vs' = length vs.
Proof. intros H. symmetry. by eapply Forall2_length. Qed.

Lemma keepsBindings_lookup vs vs' i v :
  keepsBindings vs vs' -> vs !! i = Some v ->
  exists v', vs' !! i = Some v' /\ keepsBinding v v'.
Proof. intros H Hv. by eapply Forall2_lookup_l. Qed.

Ltac keeps_step :=
  eapply keepsBindings_trans;
  [|apply keepsBindings_alter; intros;
    first [ apply registerUnavailablePoint_keeps
          | apply registerParentProcessed_keeps
          | apply addToBranch_keeps ]].

Lemma normalScan_keeps rows i vertex parentVertex lastPoint branch lines vs :
  keepsBindings vs
    (sr_vertices (normalScan rows i vertex parentVertex lastPoint branch lines vs)).
Proof.
  revert i vertex parentVertex lastPoint lines vs.
  induction rows as [|rows IH]; intros i vertex parentVertex lastPoint lines vs;
    [apply keepsBindings_refl|].
  cbn [normalScan].
  set (curPoint := if sameVertex parentVertex (Some (Real i)) && _ then _ else _).
  set (vs1 := alter (registerUnavailablePoint _ _ _) i vs).
  assert (keepsBindings vs vs1) as H1.
  { apply keepsBindings_alter. intros. apply registerUnavailablePoint_keeps. }
  destruct (sameVertex parentVertex (Some (Real i))).
  - set (vs2 := alter registerParentProcessed vertex vs1).
    set (vs3 := alter (addToBranch branch (px curPoint)) i vs2).
    assert (keepsBindings vs vs3) as H3.
    { keeps_step. keeps_step. exact H1. }
    destruct (_ || _); simpl; [exact H3|].
    eapply keepsBindings_trans; [exact H3|apply IH].
  - eapply keepsBindings_trans; [exact H1|apply IH].
Qed.

Lemma mergeScan_keeps rows i startAt parentRow parentBranch lastPoint vs brs :
  keepsBindings vs
    (fst (mergeScan rows i startAt parentRow parentBranch lastPoint vs brs)).
Proof.
  revert i lastPoint vs brs.
  induction rows as [|rows IH]; intros i lastPoint vs brs; [apply keepsBindings_refl|].
  cbn [mergeScan].
  destruct (match getPointConnectingTo (vs !!! i) (Some (Real parentRow)) parentBranch with
            | Some pt => (pt, true)
            | None => if i =? parentRow then (getPoint (vs !!! i), true)
                      else (getNextPoint (vs !!! i), false)
            end) as [curPoint found].
  destruct found; simpl.
  - keeps_step. keeps_step. apply keepsBindings_refl.
  - eapply keepsBindings_trans; [|apply IH].
    apply keepsBindings_alter. intros. apply registerUnavailablePoint_keeps.
Qed.

Lemma determinePath_keeps startAt st :
  keepsBindings (vertices st) (vertices (determinePath startAt st)).
Proof.
  unfold determinePath.
  destruct (mergeParent (vertices st) (vertices st !!! startAt)) as [parentRow|].
  - pose proof (mergeScan_keeps (length (vertices st) - S startAt) (S startAt) startAt
                  parentRow (default 0 (onBranch (vertices st !!! parentRow)))
                  (if isNotOnBranch (vertices st !!! startAt)
                   then getNextPoint (vertices st !!! startAt)
                   else getPoint (vertices st !!! startAt))
                  (vertices st) (graphBranches st)) as H.
    destruct (mergeScan _ _ _ _ _ _ _ _) as [vs' brs']. exact H.
  - destruct (getAvailableColour startAt (availableColors st)) as [c colors1].
    cbn [vertices].
    set (vs1 := alter _ startAt (vertices st)).
    assert (keepsBindings (vertices st) vs1) as H1.
    { apply keepsBindings_alter. intros v.
      eapply keepsBinding_trans;
        [apply addToBranch_keeps|apply registerUnavailablePoint_keeps]. }
    set (r := normalScan _ _ _ _ _ _ _ vs1).
    assert (keepsBindings (vertices st) (sr_vertices r)) as Hr.
    { eapply keepsBindings_trans; [exact H1|apply normalScan_keeps]. }
    destruct (_ && _); [|exact Hr].
    keeps_step. exact Hr.
Qed.

Lemma keepsBinding_bound v v' :
  keepsBinding v v' -> isNotOnBranch v = false -> isNotOnBranch v' = false.
Proof.
  intros (_ & _ & _ & H). unfold isNotOnBranch. destruct (onBranch v) as [b|] eqn:E; [|done].
  intros _. by destruct (H b eq_refl) as [-> _].
Qed.

Lemma outerScan_step fuel i st :
  outerScan (S fuel) i st
  = if i <? length (vertices st) then
      if needsPath (vertices st !!! i)
      then outerScan fuel i (determinePath i st)
      else outerScan fuel (S i) st
    else Some st.
Proof. reflexivity. Qed.

Lemma outerScan_binds fuel i st st' :
  outerScan fuel i st = Some st' ->
  (forall j v, j < i -> vertices st !! j = Some v -> isNotOnBranch v = false) ->
  allBound (vertices st').
Proof.
  revert i st. induction fuel as [|fuel IH]; intros i st; [done|].
  rewrite outerScan_step.
  destruct (Nat.ltb_spec i (length (vertices st))) as [Hlt|Hge].
  - destruct (needsPath (vertices st !!! i)) eqn:Hneed.
    + intros Hrun Hinv. eapply IH; [exact Hrun|].
      intros j v' Hj Hv'.
      pose proof (determinePath_keeps i st) as Hk.
      destruct (lookup_lt_is_Some_2 (vertices st) j) as [v Hv].
      { rewrite <- (keepsBindings_length _ _ Hk). by eapply lookup_lt_Some. }
      destruct (keepsBindings_lookup _ _ _ _ Hk Hv) as (v'' & Hv'' & Hkeep).
      assert (v'' = v') as -> by congruence.
      eapply keepsBinding_bound; [exact Hkeep|]. by eapply Hinv.
    + intros Hrun Hinv. eapply IH; [exact Hrun|].
      intros j v Hj Hv. destruct (decide (j = i)) as [->|Hne].
      * rewrite (list_lookup_total_correct _ _ _ Hv) in Hneed.
        unfold needsPath in Hneed. by destruct (getNextParent v).
      * apply (Hinv j v); [lia|done].
  - intros [= <-] Hinv. apply Forall_lookup. intros j v Hv.
    apply (Hinv j v); [|done]. apply lookup_lt_Some in Hv. lia.
Qed.

Lemma completionSweep_allBound rows i st :
  allBound (vertices st) -> i + rows <= length (vertices st) ->
  completionSweep rows i st = st.
Proof.
  revert i. induction rows as [|rows IH]; intros i Hall Hlen; [done|].
  cbn [completionSweep].
  assert (isNotOnBranch (vertices st !!! i) = false) as ->.
  { unfold allBound in Hall. rewrite Forall_lookup in Hall.
    apply (Hall i). apply list_lookup_lookup_total_lt. lia. }
  apply IH; [done|lia].
Qed.

Lemma outerScan_mono fuel fuel' i st st' :
  outerScan fuel i st = Some st' -> fuel <= fuel' -> outerScan fuel' i st = Some st'.
Proof.
  revert fuel' i st. induction fuel as [|fuel IH]; intros fuel' i st; [done|].
  destruct fuel' as [|fuel']; [lia|]. rewrite !outerScan_step. intros H Hle.
  destruct (i <? length (vertices st)); [|done].
  destruct (needsPath (vertices st !!! i)); apply IH; (done || lia).
Qed.

(** ** C2: total binding *)

Lemma determinePath_stuck brs colors :
  vertices (determinePath 1 {| vertices := stuckVertices; graphBranches := brs;
                               availableColors := colors |})
  = stuckVertices.
Proof.
  unfold determinePath. cbn [vertices graphBranches availableColors].
  change (mergeParent stuckVertices (stuckVertices !!! 1)) with (@None nat).
  cbv iota. destruct (getAvailableColour 1 colors) as [c colors1].
  reflexivity.
Qed.

Lemma outerScan_stuck fuel brs colors :
  outerScan fuel 1 {| vertices := stuckVertices; graphBranches := brs;
                      availableColors := colors |} = None.
Proof.
  revert brs colors. induction fuel as [|fuel IH]; intros brs colors; [done|].
  rewrite outerScan_step. cbn [vertices].
  change (1 <? length stuckVertices) with true.
  change (needsPath (stuckVertices !!! 1)) with true. cbv iota.
  pose proof (determinePath_stuck brs colors) as Hv.
  destruct (determinePath 1 _) as [vs' brs' colors']. simpl in Hv. subst vs'.
  apply IH.
Qed.

(** C2 at the failing input: on the dag of a child whose timestamp is
    earlier than its parent's, the outer scan never ends, whatever the
    number of turns allowed: [determinePath(1)] scans only the rows below
    row 1, never reaches the parent on row 0 and never marks the parent
    edge processed.  No vertex ends bound, and no layout is produced. *)
Theorem outerScan_never_finishes (fuel : nat) :
  buildVertices skewedLog skewedDag (Some "main")
  = [ {| v_id := 0; v_x := 0; v_children := [1]; v_parents := []; nextParent := 0;
         onBranch := None; v_isCommitted := true; isCurrent := false; nextX := 0;
         connections := [] |};
      {| v_id := 1; v_x := 0; v_children := []; v_parents := [Real 0]; nextParent := 0;
         onBranch := None; v_isCommitted := true; isCurrent := true; nextX := 0;
         connections := [] |} ]
  /\ runLayout fuel (buildVertices skewedLog skewedDag (Some "main")) = None
  /\ buildGraphData fuel skewedLog skewedDag (Some "main") = None.
Proof.
  split; [vm_compute; reflexivity|].
  assert (runLayout fuel (buildVertices skewedLog skewedDag (Some "main")) = None) as H.
  { unfold runLayout.
    assert (outerScan fuel 0 (initLayout (buildVertices skewedLog skewedDag (Some "main")))
            = None) as ->; [|done].
    destruct fuel as [|[|[|fuel]]]; [done|done|done|].
    change (outerScan (S (S (S fuel))) 0
              (initLayout (buildVertices skewedLog skewedDag (Some "main"))))
      with (outerScan fuel 1
              {| vertices := stuckVertices;
                 graphBranches :=
                   [ {| colorIndex := 0; b_end := 2;
                        b_lines := [ {| p1 := {| px := 0; py := 0 |};
                                        p2 := {| px := 0; py := 1 |};
                                        l_isCommitted := true; lockedFirst := false |} ] |};
                     {| colorIndex := 1; b_end := 2; b_lines := [] |} ];
                 availableColors := [2; 2] |}).
    apply outerScan_stuck. }
  split; [exact H|]. unfold buildGraphData, layoutGraph.
  rewrite H. reflexivity.
Qed.

(** Beside the claim: on every input, when the outer scan does end, every
    vertex is bound, the completion sweep finds nothing to do, and a
    binding once made is not changed by [determinePath] nor by
    [addToBranch]. *)
Lemma outerScan_total_binding fuel vs st :
  outerScan fuel 0 (initLayout vs) = Some st ->
  allBound (vertices st)
  /\ completionSweep (length (vertices st)) 0 st = st
  /\ (forall i st0, keepsBindings (vertices st0) (vertices (determinePath i st0)))
  /\ (forall branch x v b, onBranch v = Some b -> addToBranch branch x v = v).
Proof.
  intros Hrun.
  assert (allBound (vertices st)) as Hall.
  { eapply outerScan_binds; [exact Hrun|]. intros j v Hj. lia. }
  split; [done|]. split; [by apply completionSweep_allBound|].
  split; [intros; apply determinePath_keeps|apply addToBranch_bound_noop].
Qed.

(** ** The turns allowed to the outer scan *)

(** The number of turns the outer scan is allowed is no input of the
    source: a layout that finished is the same under every number of turns
    that lets it finish. *)
Lemma buildGraphData_fuel_independent (commits : list CommitInfo)
    (dagNodes : list DagNode) (currentBranch : option string)
    (fuel1 fuel2 : nat) (r1 r2 : list NodeLayout * list Branch) :
  buildGraphData fuel1 commits dagNodes currentBranch = Some r1 ->
  buildGraphData fuel2 commits dagNodes currentBranch = Some r2 ->
  r1 = r2.
Proof.
  unfold buildGraphData.
  destruct commits as [|commit commits']; [by intros [= <-] [= <-]|].
  destruct dagNodes as [|node dagNodes']; [by intros [= <-] [= <-]|].
  unfold layoutGraph, runLayout. intros H1 H2.
  destruct (outerScan fuel1 0 _) as [st1|] eqn:E1; [|done].
  destruct (outerScan fuel2 0 _) as [st2|] eqn:E2; [|done].
  assert (st1 = st2) as ->.
  { apply (outerScan_mono _ (fuel1 `max` fuel2)) in E1; [|lia].
    apply (outerScan_mono _ (fuel1 `max` fuel2)) in E2; [|lia]. congruence. }
  congruence.
Qed.

(** ** C3: colour reuse *)

Lemma firstFreeColour_Some startAt colors i0 i :
  firstFreeColour startAt colors i0 = Some i ->
  i0 <= i
  /\ exists e, colors !! (i - i0) = Some e /\ e < startAt
               /\ forall j ej, j < i - i0 -> colors !! j = Some ej -> startAt <= ej.
Proof.
  revert i0. induction colors as [|c rest IH]; intros i0; simpl; [done|].
  destruct (Nat.ltb_spec c startAt) as [Hlt|Hge].
  - intros [= <-]. split; [lia|]. rewrite Nat.sub_diag. exists c.
    split; [done|]. split; [done|]. intros j ej Hj. lia.
  - intros H. apply IH in H as (Hle & e & He & Hlt & Hprev).
    split; [lia|]. exists e. replace (i - i0) with (S (i - S i0)) by lia.
    split; [done|]. split; [done|].
    intros [|j] ej Hj Hej; simpl in Hej; [congruence|].
    apply (Hprev j); [lia|done].
Qed.

Lemma firstFreeColour_None startAt colors i0 :
  firstFreeColour startAt colors i0 = None ->
  forall j ej, colors !! j = Some ej -> startAt <= ej.
Proof.
  revert i0. induction colors as [|c rest IH]; intros i0; simpl; [done|].
  destruct (Nat.ltb_spec c startAt) as [Hlt|Hge]; [done|].
  intros H [|j] ej Hej; simpl in Hej; [congruence|]. by eapply IH.
Qed.

Lemma getAvailableColour_firstFit startAt colors c colors' :
  getAvailableColour startAt colors = (c, colors') -> firstFit startAt colors c colors'.
Proof.
  unfold getAvailableColour.
  destruct (firstFreeColour startAt colors 0) as [i|] eqn:E; intros [= <- <-].
  - left. apply firstFreeColour_Some in E as (_ & e & He & Hlt & Hprev).
    rewrite Nat.sub_0_r in *. by exists e.
  - right. split; [done|]. split; [|done]. by eapply firstFreeColour_None.
Qed.

Lemma normalScan_i rows i vertex parentVertex lastPoint branch lines vs :
  i <= sr_i (normalScan rows i vertex parentVertex lastPoint branch lines vs).
Proof.
  revert i vertex parentVertex lastPoint lines vs.
  induction rows as [|rows IH]; intros i vertex parentVertex lastPoint lines vs;
    [done|].
  cbn [normalScan].
  destruct (sameVertex parentVertex (Some (Real i))).
  - destruct (_ || _); simpl; [done|]. etrans; [|apply IH]. lia.
  - etrans; [|apply IH]. lia.
Qed.

Lemma branchSpans_alter_addLine a b committed locked i brs :
  branchSpans (alter (addLine a b committed locked) i brs) = branchSpans brs.
Proof.
  revert i. induction brs as [|br brs IH]; intros i; [done|].
  destruct i; simpl; [done|]. f_equal. apply IH.
Qed.

Lemma mergeScan_spans rows i startAt parentRow parentBranch lastPoint vs brs :
  branchSpans (snd (mergeScan rows i startAt parentRow parentBranch lastPoint vs brs))
  = branchSpans brs.
Proof.
  revert i lastPoint vs brs.
  induction rows as [|rows IH]; intros i lastPoint vs brs; [done|].
  cbn [mergeScan].
  destruct (match getPointConnectingTo (vs !!! i) (Some (Real parentRow)) parentBranch with
            | Some pt => (pt, true)
            | None => if i =? parentRow then (getPoint (vs !!! i), true)
                      else (getNextPoint (vs !!! i), false)
            end) as [curPoint found].
  destruct found; simpl.
  - apply branchSpans_alter_addLine.
  - rewrite IH. apply branchSpans_alter_addLine.
Qed.

Lemma coloursCover_spans st st' :
  branchSpans (graphBranches st') = branchSpans (graphBranches st) ->
  availableColors st' = availableColors st ->
  coloursCover st -> coloursCover st'.
Proof.
  unfold coloursCover, branchSpans. intros Hsp Hcol H. rewrite Hcol.
  rewrite Forall_lookup in *. intros j b' Hb'.
  assert (exists b, graphBranches st !! j = Some b
                    /\ colorIndex b = colorIndex b' /\ b_end b = b_end b')
    as (b & Hb & Hc & He).
  { assert (map (fun b => (colorIndex b, b_end b)) (graphBranches st') !! j
            = Some (colorIndex b', b_end b')) as Hj
      by (rewrite list_lookup_fmap, Hb'; done).
    rewrite Hsp, list_lookup_fmap in Hj.
    destruct (graphBranches st !! j) as [b|]; [|done].
    injection Hj as Hc He. by exists b. }
  rewrite <- Hc, <- He. by eapply H.
Qed.

(** What the normal case does to the branches and the colours. *)
Lemma determinePath_normal startAt st :
  mergeParent (vertices st) (vertices st !!! startAt) = None ->
  exists c colors1 b,
    getAvailableColour startAt (availableColors st) = (c, colors1)
    /\ graphBranches (determinePath startAt st) = graphBranches st ++ [b]
    /\ colorIndex b = c
    /\ startAt < b_end b
    /\ availableColors (determinePath startAt st) = <[c := b_end b]> colors1.
Proof.
  intros Hm. unfold determinePath. rewrite Hm.
  destruct (getAvailableColour startAt (availableColors st)) as [c colors1] eqn:E.
  eexists c, colors1, _. split; [done|]. cbn [graphBranches availableColors].
  split; [reflexivity|]. cbn [colorIndex b_end]. split; [done|]. split; [|done].
  pose proof normalScan_i as H. unfold lt. apply H.
Qed.

(** What the merge case leaves alone. *)
Lemma determinePath_merge startAt st parentRow :
  mergeParent (vertices st) (vertices st !!! startAt) = Some parentRow ->
  branchSpans (graphBranches (determinePath startAt st)) = branchSpans (graphBranches st)
  /\ availableColors (determinePath startAt st) = availableColors st.
Proof.
  intros Hm. unfold determinePath. rewrite Hm.
  pose proof (mergeScan_spans (length (vertices st) - S startAt) (S startAt) startAt
                parentRow (default 0 (onBranch (vertices st !!! parentRow)))
                (if isNotOnBranch (vertices st !!! startAt)
                 then getNextPoint (vertices st !!! startAt)
                 else getPoint (vertices st !!! startAt))
                (vertices st) (graphBranches st)) as H.
  destruct (mergeScan _ _ _ _ _ _ _ _) as [vs' brs']. by split.
Qed.

Lemma firstFit_lookup startAt colors c colors' :
  firstFit startAt colors c colors' ->
  c < length colors'
  /\ (forall j e, colors !! j = Some e -> colors' !! j = Some e)
  /\ (forall e, colors !! c = Some e -> e < startAt).
Proof.
  intros [(e & He & Hlt & _ & ->)|(-> & _ & ->)].
  - split; [by eapply lookup_lt_Some|]. split; [done|]. intros e' He'. congruence.
  - split; [rewrite length_app; simpl; lia|]. split.
    + intros j e He. by apply lookup_app_l_Some.
    + intros e He. apply lookup_lt_Some in He. lia.
Qed.

Lemma determinePath_coloursCover startAt st :
  coloursCover st -> coloursCover (determinePath startAt st).
Proof.
  intros Hcov.
  destruct (mergeParent (vertices st) (vertices st !!! startAt)) as [parentRow|] eqn:Hm.
  - destruct (determinePath_merge _ _ _ Hm) as [Hsp Hcol].
    by eapply coloursCover_spans.
  - destruct (determinePath_normal _ _ Hm) as (c & colors1 & b & Hget & Hbrs & Hc & Hend & Hcol).
    apply getAvailableColour_firstFit, firstFit_lookup in Hget as (Hlen & Hkeep & Hfree).
    unfold coloursCover. rewrite Hbrs, Hcol. apply Forall_app. split.
    + unfold coloursCover in Hcov. rewrite Forall_forall in *. intros b0 Hb0.
      destruct (Hcov b0 Hb0) as (e & He & Hle).
      destruct (decide (colorIndex b0 = c)) as [Heq|Hne].
      * exists (b_end b). rewrite Heq. split; [by apply list_lookup_insert_eq|].
        rewrite Heq in He. apply Hfree in He. lia.
      * exists e. split; [|done]. rewrite list_lookup_insert_ne by done. by apply Hkeep.
    + apply Forall_singleton. exists (b_end b). rewrite Hc.
      split; [by apply list_lookup_insert_eq|done].
Qed.

Lemma reachable_coloursCover vs0 st : reachable vs0 st -> coloursCover st.
Proof.
  induction 1 as [|st i _ IH _ _]; [apply Forall_nil_2|].
  by apply determinePath_coloursCover.
Qed.

Lemma reachable_outerScan vs0 fuel i st st' :
  reachable vs0 st -> outerScan fuel i st = Some st' -> reachable vs0 st'.
Proof.
  revert i st. induction fuel as [|fuel IH]; intros i st Hr; [done|].
  rewrite outerScan_step.
  destruct (Nat.ltb_spec i (length (vertices st))) as [Hlt|Hge]; [|by intros [= <-]].
  destruct (needsPath (vertices st !!! i)) eqn:Hneed; [|by apply IH].
  apply IH. by apply reach_step.
Qed.

Lemma branchSpans_lookup brs brs' j b' :
  branchSpans brs' = branchSpans brs -> brs' !! j = Some b' ->
  exists b, brs !! j = Some b /\ colorIndex b = colorIndex b' /\ b_end b = b_end b'.
Proof.
  intros Hsp Hb'.
  assert (branchSpans brs' !! j = Some (colorIndex b', b_end b')) as Hj
    by (unfold branchSpans; rewrite list_lookup_fmap, Hb'; done).
  rewrite Hsp in Hj. unfold branchSpans in Hj. rewrite list_lookup_fmap in Hj.
  destruct (brs !! j) as [b|]; [|done]. injection Hj as Hc He. by exists b.
Qed.

(** In a run the ends of the branches of one colour grow with the order
    in which the branches were created. *)
Lemma reachable_endsOrdered vs0 st :
  reachable vs0 st ->
  forall j k bj bk,
    j < k -> graphBranches st !! j = Some bj -> graphBranches st !! k = Some bk ->
    colorIndex bj = colorIndex bk -> b_end bj < b_end bk.
Proof.
  induction 1 as [|st i Hreach IH _ _]; [done|].
  intros j k bj bk Hjk Hj Hk Hcol.
  destruct (mergeParent (vertices st) (vertices st !!! i)) as [parentRow|] eqn:Hm.
  - destruct (determinePath_merge _ _ _ Hm) as [Hsp _].
    destruct (branchSpans_lookup _ _ _ _ Hsp Hj) as (bj0 & Hj0 & Hcj & Hej).
    destruct (branchSpans_lookup _ _ _ _ Hsp Hk) as (bk0 & Hk0 & Hck & Hek).
    rewrite <- Hej, <- Hek. apply (IH j k); [done|done|done|congruence].
  - destruct (determinePath_normal _ _ Hm)
      as (c & colors1 & b & Hget & Hbrs & Hc & Hend & _).
    apply getAvailableColour_firstFit, firstFit_lookup in Hget as (_ & _ & Hfree).
    rewrite Hbrs in Hj, Hk.
    destruct (decide (k < length (graphBranches st))) as [Hlt|Hge].
    + rewrite lookup_app_l in Hj, Hk by lia. by apply (IH j k).
    + assert (k = length (graphBranches st)) as ->.
      { apply lookup_lt_Some in Hk. rewrite length_app in Hk. simpl in Hk. lia. }
      rewrite lookup_app_l in Hj by lia.
      rewrite lookup_app_r, Nat.sub_diag in Hk by lia. injection Hk as <-.
      pose proof (reachable_coloursCover _ _ Hreach) as Hcov.
      unfold coloursCover in Hcov. rewrite Forall_forall in Hcov.
      destruct (Hcov bj) as (e & He & Hle); [by eapply list_elem_of_lookup_2|].
      rewrite Hcol, Hc in He. apply Hfree in He. lia.
Qed.

(** C3: [getAvailableColour] hands out the first slot [i] with
    [startAt > availableColors[i]] and else appends a slot.  Throughout a
    run, a call of [determinePath] in the normal branch case creates one
    branch, ending below its start row, leaves [availableColors[colorIndex]]
    equal to that branch's end, and takes a colour only if every earlier
    branch of that colour has [end < startAt]; the merge case creates no
    branch and changes no end and no slot.  So every branch of a run has a
    slot that records a row not before its end, and of two branches of one
    colour the later one ends after the earlier one.  The completion sweep
    that follows a finished outer scan finds every vertex bound and creates
    no branch: the branches of a run all come from the normal case. *)
Theorem colour_reuse_in_run (vs0 : list Vertex) (st : Layout) (startAt : nat) :
  reachable vs0 st ->
  (forall s colors c colors',
      getAvailableColour s colors = (c, colors') -> firstFit s colors c colors')
  /\ (mergeParent (vertices st) (vertices st !!! startAt) = None ->
      exists b,
        graphBranches (determinePath startAt st) = graphBranches st ++ [b]
        /\ startAt < b_end b
        /\ availableColors (determinePath startAt st) !! colorIndex b = Some (b_end b)
        /\ forall b0, b0 ∈ graphBranches st -> colorIndex b0 = colorIndex b ->
                      b_end b0 < startAt)
  /\ (forall parentRow,
        mergeParent (vertices st) (vertices st !!! startAt) = Some parentRow ->
        branchSpans (graphBranches (determinePath startAt st))
        = branchSpans (graphBranches st)
        /\ availableColors (determinePath startAt st) = availableColors st)
  /\ (forall b, b ∈ graphBranches st ->
        exists e, availableColors st !! colorIndex b = Some e /\ b_end b <= e)
  /\ (forall j k bj bk,
        j < k -> graphBranches st !! j = Some bj -> graphBranches st !! k = Some bk ->
        colorIndex bj = colorIndex bk -> b_end bj < b_end bk)
  /\ (forall fuel st',
        outerScan fuel 0 (initLayout vs0) = Some st' ->
        reachable vs0 st'
        /\ completionSweep (length (vertices st')) 0 st' = st').
Proof.
  intros Hreach. pose proof (reachable_coloursCover _ _ Hreach) as Hcov.
  split; [apply getAvailableColour_firstFit|].
  split.
  { intros Hm.
    destruct (determinePath_normal _ _ Hm)
      as (c & colors1 & b & Hget & Hbrs & Hc & Hend & Hcol).
    apply getAvailableColour_firstFit in Hget as Hfit.
    pose proof (firstFit_lookup _ _ _ _ Hfit) as (Hlen & Hkeep & Hfree).
    exists b. split; [done|]. split; [done|]. split.
    - rewrite Hcol, Hc. by apply list_lookup_insert_eq.
    - intros b0 Hb0 Heq. unfold coloursCover in Hcov. rewrite Forall_forall in Hcov.
      destruct (Hcov b0 Hb0) as (e & He & Hle).
      rewrite Heq, Hc in He. apply Hfree in He. lia. }
  split; [intros parentRow Hm; by apply (determinePath_merge _ _ parentRow)|].
  split.
  { unfold coloursCover in Hcov. rewrite Forall_forall in Hcov. exact Hcov. }
  split; [by apply (reachable_endsOrdered vs0)|].
  intros fuel st' Hrun. split.
  - eapply reachable_outerScan; [apply reach_init|exact Hrun].
  - apply completionSweep_allBound; [|lia].
    eapply outerScan_binds; [exact Hrun|]. intros j v Hj. lia.
Qed.

(** The path from row 0 ends on the root in row 1, so the root in row 2
    takes the colour 0 again: its holder ended on row 1, above row 2. *)
Lemma colour_reuse_in_run_witness :
  branchSpans (graphBranches firstRootDone) = [(0, 1)]
  /\ (exists b,
        graphBranches (determinePath 2 firstRootDone) = graphBranches firstRootDone ++ [b]
        /\ 2 < b_end b
        /\ availableColors (determinePath 2 firstRootDone) !! colorIndex b
           = Some (b_end b)
        /\ forall b0, b0 ∈ graphBranches firstRootDone -> colorIndex b0 = colorIndex b ->
                      b_end b0 < 2)
  /\ branchSpans (graphBranches (determinePath 2 firstRootDone)) = [(0, 1); (0, 3)]
  /\ (fun st => branchSpans (graphBranches st)) <$> runLayout 9 twoRoots
     = Some [(0, 1); (0, 3)].
Proof.
  assert (reachable twoRoots firstRootDone) as Hreach.
  { unfold firstRootDone. apply reach_step; [apply reach_init| |].
    - vm_compute. lia.
    - vm_compute. reflexivity. }
  destruct (colour_reuse_in_run twoRoots firstRootDone 2 Hreach)
    as (_ & Hnormal & _).
  split; [vm_compute; reflexivity|].
  split; [|split; vm_compute; reflexivity].
  apply Hnormal. vm_compute. reflexivity.
Defined.

(** ** Total binding on topologically ordered rows *)















(** ** The maps both build paths hand to [enforceCommitLimit] *)

Lemma map_set_keysNonEmpty m k v :
  keysNonEmpty m -> k <> "" -> keysNonEmpty (map_set m k v).
Proof.
  intros Hne Hk. unfold keysNonEmpty.
  destruct (map_set_keys m k v) as [->|[_ ->]]; [done|].
  apply Forall_app. split; [done|]. by apply Forall_singleton.
Qed.

Lemma combineCommits_keysNonEmpty newCommits baseNodes :
  keysNonEmpty newCommits ->
  Forall (fun node => n_hash node <> "") baseNodes ->
  keysNonEmpty (combineCommits newCommits baseNodes).
Proof.
  intros Hnew Hbase. unfold combineCommits.
  assert (keysNonEmpty (copyCommits newCommits)) as Hcopy.
  { unfold copyCommits.
    assert (forall entries acc,
              keysNonEmpty acc -> keysNonEmpty entries ->
              keysNonEmpty (fold_left (fun acc entry => map_set acc (fst entry) (snd entry))
                                      entries acc)) as H.
    { induction entries as [|[k v] rest IH]; intros acc Hacc Hent; simpl; [done|].
      unfold keysNonEmpty in Hent. simpl in Hent. apply Forall_cons in Hent as [Hk Hrest].
      apply IH; [by apply map_set_keysNonEmpty|done]. }
    apply H; [apply Forall_nil_2|done]. }
  revert Hcopy. generalize (copyCommits newCommits).
  induction Hbase as [|node rest Hnode _ IH]; intros acc Hacc; simpl; [done|].
  apply IH. unfold addBaseNode. destruct (map_has acc (n_hash node)); [done|].
  by apply map_set_keysNonEmpty.
Qed.

(** The bound of C7 on the two maps the service enforces it on: the parsed
    log of the full rebuild, and the combination of a parsed range log with
    cached nodes that carry a hash. *)
Lemma service_maps_within_limit limit clock logOutput baseNodes :
  map_size (enforceCommitLimit limit (parseGitLogToCommitMap clock logOutput)) <= limit
  /\ (Forall (fun node => n_hash node <> "") baseNodes ->
      map_size (enforceCommitLimit limit
                  (combineCommits (parseGitLogToCommitMap clock logOutput) baseNodes))
      <= limit).
Proof.
  pose proof (parseGitLogToCommitMap_wellKeyed clock logOutput) as [_ Hne].
  split.
  - apply enforceLoop_size; [done|lia].
  - intros Hbase. apply enforceLoop_size; [|lia].
    by apply combineCommits_keysNonEmpty.
Qed.

(** ** The example scenarios of the specification *)

(** An orphan root gets a singleton branch that ends on the row below. *)
Example scenario_orphan_root :
  buildGraphData 5 linearLog orphanDag None
  = Some ([ {| nl_x := 0; nl_colorIndex := 0 |} ],
          [ {| colorIndex := 0; b_end := 1; b_lines := [] |} ]).
Proof. vm_compute. reflexivity. Qed.

(** A parent outside the loaded window becomes an edge to the sentinel;
    the vertex is bound and the edge counts as processed. *)
Example scenario_parent_outside_window :
  v_parents <$> buildVertices linearLog truncatedDag None = [[Sentinel]]
  /\ (fun st => map (fun v => (onBranch v, nextParent v)) (vertices st))
       <$> runLayout 5 (buildVertices linearLog truncatedDag None)
     = Some [(Some 0, 1)].
Proof. split; vm_compute; reflexivity. Qed.

(** The merge case: the second parent edge of [m] is drawn on the branch
    of [b], through a fresh point on the row of [a]. *)
Example scenario_merge_case :
  (fun st => (map (fun v => (v_x v, onBranch v, nextParent v)) (vertices st),
              map (fun br => (colorIndex br, b_end br,
                              map (fun l => (px (p1 l), py (p1 l), px (p2 l), py (p2 l),
                                             lockedFirst l)) (b_lines br)))
                  (graphBranches st),
              availableColors st))
    <$> runLayout 9 (buildVertices linearLog triangleDag None)
  = Some ([(0, Some 0, 2); (0, Some 0, 1); (0, Some 0, 0)],
          [(0, 2, [(0, 0, 0, 1, false); (0, 1, 0, 2, false);
                   (0, 0, 1, 1, true); (1, 1, 0, 2, true)])],
          [2]).
Proof. vm_compute. reflexivity. Qed.

(* ================================================================== *)
(** * Further properties of the service *)
(* ================================================================== *)

(** ** Lookups after [set] and [delete] *)

Section JsMapLookup.
Context {V : Type}.
Implicit Types (m : JsMap V) (k : string) (v : V).

Lemma map_get_set_eq m k v : map_get (map_set m k v) k = Some v.
Proof.
  induction m as [|[k' v'] m IH]; simpl.
  - by rewrite String.eqb_refl.
  - destruct (String.eqb_spec k' k) as [->|Hne]; simpl.
    + by rewrite String.eqb_refl.
    + destruct (String.eqb_spec k' k); [done|exact IH].
Qed.

Lemma map_get_set_ne m k k' v : k' <> k -> map_get (map_set m k v) k' = map_get m k'.
Proof.
  intros Hne. induction m as [|[k0 v0] m IH]; simpl.
  - destruct (String.eqb_spec k k'); [congruence|done].
  - destruct (String.eqb_spec k0 k) as [->|Hk0]; simpl.
    + destruct (String.eqb_spec k k'); [congruence|done].
    + destruct (String.eqb_spec k0 k'); [done|exact IH].
Qed.

Lemma map_get_delete_ne m k k' : k' <> k -> map_get (map_delete m k) k' = map_get m k'.
Proof.
  intros Hne. induction m as [|[k0 v0] m IH]; simpl; [done|].
  destruct (String.eqb_spec k0 k) as [->|Hk0]; simpl.
  - destruct (String.eqb_spec k k'); [congruence|done].
  - destruct (String.eqb_spec k0 k'); [done|exact IH].
Qed.

Lemma map_delete_notin m k : k ∉ map_keys m -> map_delete m k = m.
Proof.
  induction m as [|[k0 v0] m IH]; simpl; intros Hk; [done|].
  apply not_elem_of_cons in Hk as [Hne Hk].
  destruct (String.eqb_spec k0 k) as [->|_]; [done|]. f_equal. by apply IH.
Qed.

Lemma map_get_delete_eq m k : NoDup (map_keys m) -> map_get (map_delete m k) k = None.
Proof.
  induction m as [|[k0 v0] m IH]; simpl; intros Hnd; [done|].
  apply NoDup_cons in Hnd as [Hk0 Hnd].
  destruct (String.eqb_spec k0 k) as [->|Hne]; simpl.
  - by apply map_get_None.
  - destruct (String.eqb_spec k0 k); [done|by apply IH].
Qed.

Lemma map_delete_NoDup m k : NoDup (map_keys m) -> NoDup (map_keys (map_delete m k)).
Proof.
  induction m as [|[k0 v0] m IH]; simpl; intros Hnd; [done|].
  apply NoDup_cons in Hnd as [Hk0 Hnd].
  destruct (String.eqb_spec k0 k) as [->|Hne]; simpl; [done|].
  apply NoDup_cons. split; [|by apply IH].
  intros Hin. apply Hk0. by apply map_delete_keys_subseteq in Hin.
Qed.

Lemma map_keys_elem_of_get m k : k ∈ map_keys m <-> exists v, map_get m k = Some v.
Proof.
  destruct (map_get m k) as [v|] eqn:E.
  - split; [by exists v|]. intros _. apply map_get_Some_in in E.
    unfold map_keys. change k with (fst (k, v)). by apply list_elem_of_fmap_2.
  - apply map_get_None in E. split; [done|]. by intros [v [=]].
Qed.

Lemma map_set_keys_elem_of m k v x :
  x ∈ map_keys (map_set m k v) <-> x = k \/ x ∈ map_keys m.
Proof.
  destruct (map_set_keys m k v) as [E|[Hk E]]; rewrite E.
  - split; [by right|]. intros [->|H]; [|done].
    destruct (decide (k ∈ map_keys m)) as [Hin|Hnin]; [done|].
    exfalso. rewrite map_set_fresh in E by done. unfold map_keys in E.
    rewrite map_app in E. apply (f_equal length) in E.
    rewrite length_app in E. simpl in E. lia.
  - rewrite elem_of_app, list_elem_of_singleton. tauto.
Qed.
End JsMapLookup.

(** ** The persisted snapshots *)

Lemma set_has_true_iff s x : set_has s x = true <-> x ∈ s.
Proof.
  unfold set_has. rewrite existsb_exists. split.
  - intros (y & Hy & Heq). apply String.eqb_eq in Heq as ->. by apply list_elem_of_In.
  - intros H. exists x. split; [by apply list_elem_of_In|apply String.eqb_refl].
Qed.

Lemma save_then_load st headHash data :
  truthy headHash = true ->
  loadBranchGraphFromStorage (saveBranchGraphToStorage (Some st) headHash data) headHash
    = Some data.
Proof.
  intros Hh. unfold saveBranchGraphToStorage, loadBranchGraphFromStorage.
  rewrite Hh. simpl. apply map_get_set_eq.
Qed.

(** X1.  What [saveBranchGraphToStorage] writes under a head hash is what
    [loadBranchGraphFromStorage] reads back under it, and the snapshots of
    the other head hashes are read as before. *)
Theorem storage_round_trip (st : Storage) (headHash : string) (data : BranchGraphData) :
  truthy headHash = true ->
  loadBranchGraphFromStorage (saveBranchGraphToStorage (Some st) headHash data) headHash
    = Some data
  /\ forall other, other <> headHash ->
       loadBranchGraphFromStorage (saveBranchGraphToStorage (Some st) headHash data) other
       = loadBranchGraphFromStorage (Some st) other.
Proof.
  intros Hh. split; [by apply save_then_load|].
  unfold saveBranchGraphToStorage, loadBranchGraphFromStorage. rewrite Hh. simpl.
  - intros other Hne. destruct (truthy other); simpl; [|done].
    by apply map_get_set_ne.
Qed.

Lemma storage_round_trip_witness :
  loadBranchGraphFromStorage (saveBranchGraphToStorage storedAtC1 "c2" emptyGraph) "c2"
    = Some emptyGraph
  /\ forall other, other <> "c2" ->
       loadBranchGraphFromStorage (saveBranchGraphToStorage storedAtC1 "c2" emptyGraph) other
       = loadBranchGraphFromStorage storedAtC1 other.
Proof. apply (storage_round_trip _ "c2" emptyGraph). reflexivity. Defined.

Lemma saveBranchGraphToStorage_OK st headHash data :
  storageOK st ->
  exists st', saveBranchGraphToStorage (Some st) headHash data = Some st'
    /\ storageOK st'
    /\ (exists added, st_index st' = st_index st ++ added /\ length added <= 1).
Proof.
  intros (Hg & Hi & Hiff). unfold saveBranchGraphToStorage.
  destruct (truthy headHash); simpl.
  2:{ exists st. split; [done|]. split; [done|]. exists [].
      rewrite app_nil_r. split; [done|simpl; lia]. }
  eexists. split; [reflexivity|]. unfold storageOK. cbn [st_graphs st_index].
  destruct (set_has (st_index st) headHash) eqn:Ehas.
  - apply set_has_true_iff in Ehas. split.
    + split; [by apply map_set_NoDup|]. split; [done|].
      intros h. rewrite map_set_keys_elem_of, Hiff. split; [|tauto].
      intros [->|H]; done.
    + exists []. rewrite app_nil_r. split; [done|simpl; lia].
  - assert (headHash ∉ st_index st) as Hnin.
    { intros Hin. apply set_has_true_iff in Hin. congruence. }
    split.
    + split; [by apply map_set_NoDup|]. split.
      * apply NoDup_app. split; [done|]. split; [|apply NoDup_singleton].
        intros x Hx Hx'. apply list_elem_of_singleton in Hx' as ->. done.
      * intros h. rewrite map_set_keys_elem_of, Hiff, elem_of_app, list_elem_of_singleton.
        tauto.
    + exists [headHash]. split; [done|simpl; lia].
Qed.

(** X2.  [getBranchGraph] keeps the persisted state consistent: the index
    still lists exactly the head hashes that have a snapshot, each once,
    and it only grows at its end, by at most the current head hash. *)
Theorem getBranchGraph_keeps_storage limit clock recorded cached git st forceRefresh
    graph storage' :
  storageOK st ->
  getBranchGraph limit clock recorded cached git (Some st) forceRefresh
    = Returned (graph, storage') ->
  exists st', storage' = Some st' /\ storageOK st'
    /\ exists added, st_index st' = st_index st ++ added /\ length added <= 1.
Proof.
  intros Hok. unfold getBranchGraph.
  assert (exists st', Some st = Some st' /\ storageOK st'
            /\ exists added, st_index st' = st_index st ++ added /\ length added <= 1)
    as Hsame.
  { exists st. split; [done|]. split; [done|]. exists [].
    rewrite app_nil_r. split; [done|simpl; lia]. }
  pose proof (fun h data => saveBranchGraphToStorage_OK st h data Hok) as Hsave.
  destruct (if forceRefresh then None else cached) as [data|].
  { intros [= <- <-]. exact Hsame. }
  destruct git as [git|]; [|done].
  set (headHash := match git_revparseHead git with Some out => trim out | None => "" end).
  destruct (if negb forceRefresh && truthy headHash
            then loadBranchGraphFromStorage (Some st) headHash else None) as [persisted|].
  { intros [= <- <-]. exact Hsame. }
  destruct (if negb forceRefresh && truthy headHash
            then tryBuildIncrementalBranchGraph limit clock recorded git (Some st) headHash
            else Returned None) as [[incremental|]|]; [| |done].
  - intros [= <- <-]. apply Hsave.
  - intros [= <- <-]. destruct (truthy headHash) eqn:Et; [|exact Hsame].
    specialize (Hsave headHash (buildFullBranchGraph limit clock recorded git)).
    unfold saveBranchGraphToStorage in Hsave. rewrite Et in Hsave. exact Hsave.
Qed.

Lemma getBranchGraph_keeps_storage_witness :
  exists st', saveBranchGraphToStorage (Some emptyStorage) "c1"
                (buildFullBranchGraph 800 noClock None gitAtC1) = Some st'
    /\ storageOK st'
    /\ exists added, st_index st' = st_index emptyStorage ++ added /\ length added <= 1.
Proof.
  apply (getBranchGraph_keeps_storage 800 noClock None None (Some gitAtC1) emptyStorage false
           (buildFullBranchGraph 800 noClock None gitAtC1)).
  - split; [apply NoDup_nil_2|]. split; [apply NoDup_nil_2|]. done.
  - reflexivity.
Defined.

Lemma getBranchGraph_persists limit clock recorded git st out forceRefresh graph storage' :
  git_revparseHead git = Some out ->
  truthy (trim out) = true ->
  getBranchGraph limit clock recorded None (Some git) (Some st) forceRefresh
    = Returned (graph, storage') ->
  loadBranchGraphFromStorage storage' (trim out) = Some graph.
Proof.
  intros Hhead Hout. unfold getBranchGraph. rewrite Hhead, Hout, andb_true_r.
  destruct forceRefresh; cbn [negb andb].
  - intros [= <- <-]. by apply save_then_load.
  - destruct (loadBranchGraphFromStorage (Some st) (trim out)) as [persisted|] eqn:Eload.
    + intros [= <- <-]. exact Eload.
    + destruct (tryBuildIncrementalBranchGraph limit clock recorded git (Some st) (trim out))
        as [[incremental|]|]; [| |done].
      * intros [= <- <-]. by apply save_then_load.
      * intros [= <- <-]. by apply save_then_load.
Qed.

(** X3.  Once [getBranchGraph] has returned a snapshot for a head hash,
    with a workspace storage, a later call without [forceRefresh] at the
    same head returns that snapshot from the storage and leaves the
    storage as it is, whatever the logs and the branch summary would give;
    this holds also after the memory cache has expired. *)
Theorem getBranchGraph_persisted_idempotent limit clock recorded git git' st out
    forceRefresh graph storage' :
  git_revparseHead git = Some out ->
  truthy (trim out) = true ->
  git_revparseHead git' = Some out ->
  getBranchGraph limit clock recorded None (Some git) (Some st) forceRefresh
    = Returned (graph, storage') ->
  getBranchGraph limit clock recorded None (Some git') storage' false
    = Returned (graph, storage').
Proof.
  intros Hhead Hout Hhead' Hfirst.
  pose proof (getBranchGraph_persists _ _ _ _ _ _ _ _ _ Hhead Hout Hfirst) as Hload.
  unfold getBranchGraph. rewrite Hhead', Hout. simpl. by rewrite Hload.
Qed.

Lemma getBranchGraph_persisted_idempotent_witness :
  getBranchGraph 800 noClock None None (Some gitOnlyHead)
    (saveBranchGraphToStorage (Some emptyStorage) "c1"
       (buildFullBranchGraph 800 noClock None gitAtC1)) false
  = Returned (buildFullBranchGraph 800 noClock None gitAtC1,
              saveBranchGraphToStorage (Some emptyStorage) "c1"
                (buildFullBranchGraph 800 noClock None gitAtC1)).
Proof.
  apply (getBranchGraph_persisted_idempotent 800 noClock None gitAtC1 gitOnlyHead
           emptyStorage "c1" false); reflexivity.
Defined.

Lemma tryCandidates_sound limit clock recorded git st headHash candidates graph :
  tryCandidates limit clock recorded git (Some st) headHash candidates
    = Returned (Some graph) ->
  exists baseHash baseGraph,
    baseHash ∈ candidates /\ baseHash <> "" /\ baseHash <> headHash
    /\ map_get (st_graphs st) baseHash = Some baseGraph
    /\ git_mergeBase git baseHash headHash = true
    /\ buildBranchGraphIncrementally limit clock recorded git baseGraph baseHash headHash
       = Returned (Some graph).
Proof.
  induction candidates as [|candidate rest IH]; simpl; [done|].
  assert (tryCandidates limit clock recorded git (Some st) headHash rest
            = Returned (Some graph) ->
          exists baseHash baseGraph,
            baseHash ∈ candidate :: rest /\ baseHash <> "" /\ baseHash <> headHash
            /\ map_get (st_graphs st) baseHash = Some baseGraph
            /\ git_mergeBase git baseHash headHash = true
            /\ buildBranchGraphIncrementally limit clock recorded git baseGraph baseHash
                 headHash = Returned (Some graph)) as Hrest.
  { intros H. destruct (IH H) as (b & bg & Hin & Hrem). exists b, bg.
    split; [by right|exact Hrem]. }
  destruct (truthy candidate) eqn:Etruthy; simpl; [|exact Hrest].
  destruct (String.eqb_spec candidate headHash) as [->|Hne]; [exact Hrest|].
  destruct (map_get (st_graphs st) candidate) as [baseGraph|] eqn:Eload; [|exact Hrest].
  destruct (g_dag baseGraph) as [dag|] eqn:Edag; [|exact Hrest].
  unfold isAncestor. rewrite Etruthy. simpl.
  destruct (truthy headHash) eqn:Ehead; simpl; [|exact Hrest].
  destruct (git_mergeBase git candidate headHash) eqn:Eanc; simpl; [|exact Hrest].
  destruct (buildBranchGraphIncrementally limit clock recorded git baseGraph candidate headHash)
    as [[incremental|]|] eqn:Ebuild; [| exact Hrest | done].
  intros [= ->]. exists candidate, baseGraph.
  split; [left|]. split; [by intros ->|]. done.
Qed.

(** X4.  An incremental snapshot is only ever built on a stored snapshot
    of another, non-empty head hash of the index which
    [merge-base --is-ancestor] confirmed as an ancestor of the current
    head; the result is what [buildBranchGraphIncrementally] gives on that
    base. *)
Theorem incremental_from_stored_ancestor limit clock recorded git st headHash graph :
  tryBuildIncrementalBranchGraph limit clock recorded git (Some st) headHash
    = Returned (Some graph) ->
  exists baseHash baseGraph,
    baseHash ∈ st_index st /\ baseHash <> "" /\ baseHash <> headHash
    /\ map_get (st_graphs st) baseHash = Some baseGraph
    /\ git_mergeBase git baseHash headHash = true
    /\ buildBranchGraphIncrementally limit clock recorded git baseGraph baseHash headHash
       = Returned (Some graph).
Proof.
  unfold tryBuildIncrementalBranchGraph.
  destruct (st_index st) as [|h0 index] eqn:Eindex; [done|].
  intros H. apply tryCandidates_sound in H as (b & bg & Hin & Hrem).
  exists b, bg. split; [|exact Hrem].
  apply list_elem_of_In, in_rev. by apply list_elem_of_In.
Qed.

Lemma incremental_from_stored_ancestor_witness :
  exists baseHash baseGraph,
    baseHash ∈ st_index storedCachedAtC1 /\ baseHash <> "" /\ baseHash <> "c2"
    /\ map_get (st_graphs storedCachedAtC1) baseHash = Some baseGraph
    /\ git_mergeBase gitAtC2 baseHash "c2" = true
    /\ buildBranchGraphIncrementally BRANCH_GRAPH_MAX_COMMITS noClock None gitAtC2
         baseGraph baseHash "c2"
       = Returned (Some incrementalAtC2).
Proof.
  apply (incremental_from_stored_ancestor BRANCH_GRAPH_MAX_COMMITS noClock None gitAtC2
           storedCachedAtC1 "c2" incrementalAtC2).
  vm_compute. reflexivity.
Defined.

Lemma buildFullBranchGraph_branch_fails limit clock recorded git :
  git_branch git = None -> buildFullBranchGraph limit clock recorded git = emptyGraph.
Proof.
  intros Hb. unfold buildFullBranchGraph. rewrite Hb. by destruct (git_logAll git).
Qed.

Lemma incremental_branch_fails limit clock recorded git storage headHash graph :
  git_branch git = None ->
  tryBuildIncrementalBranchGraph limit clock recorded git storage headHash
    <> Returned (Some graph).
Proof.
  intros Hb H. destruct storage as [st|]; [|done].
  unfold tryBuildIncrementalBranchGraph in H. destruct (st_index st); [done|].
  apply tryCandidates_sound in H as (b & bg & _ & _ & _ & _ & _ & H).
  unfold buildBranchGraphIncrementally in H. rewrite Hb in H.
  destruct (g_dag bg); [|done]. by destruct (git_logRange git b headHash).
Qed.

(** X5.  When [git.branch()] throws, [getBranchGraph] never returns a
    snapshot built from a log: what it returns is the empty snapshot or,
    without [forceRefresh], the cached or a persisted one; and only a call
    without [forceRefresh] can throw. *)
Theorem branch_failure_never_builds limit clock recorded cached git storage forceRefresh :
  git_branch git = None ->
  match getBranchGraph limit clock recorded cached (Some git) storage forceRefresh with
  | Thrown => forceRefresh = false
  | Returned (graph, _) =>
      graph = emptyGraph
      \/ (forceRefresh = false
          /\ (cached = Some graph
              \/ exists h, loadBranchGraphFromStorage storage h = Some graph))
  end.
Proof.
  intros Hb. unfold getBranchGraph.
  rewrite (buildFullBranchGraph_branch_fails _ _ _ _ Hb).
  destruct forceRefresh; cbn [negb andb]; [by left|].
  destruct cached as [data|]; [right; split; [done|by left]|].
  set (headHash := match git_revparseHead git with Some out => trim out | None => "" end).
  destruct (truthy headHash); [|by left].
  destruct (loadBranchGraphFromStorage storage headHash) as [persisted|] eqn:Eload.
  { right. split; [done|]. right. by exists headHash. }
  destruct (tryBuildIncrementalBranchGraph limit clock recorded git storage headHash)
    as [[incremental|]|] eqn:Einc; [|by left|done].
  by apply incremental_branch_fails in Einc.
Qed.

Lemma branch_failure_never_builds_witness :
  match getBranchGraph 800 noClock None None (Some gitBranchFails) storedAtC1 false with
  | Thrown => false = false
  | Returned (graph, _) =>
      graph = emptyGraph
      \/ (false = false
          /\ (None = Some graph
              \/ exists h, loadBranchGraphFromStorage storedAtC1 h = Some graph))
  end.
Proof. apply (branch_failure_never_builds 800 noClock None None gitBranchFails). reflexivity. Defined.

(** ** The in-memory cache *)

Section CacheFacts.
Context {D : Type}.
Implicit Types (cache : Cache D) (key : string) (data : D).

(** X6.  A read within the time to live of an entry gives the data that
    was set, and leaves the cache as it is. *)
Theorem cache_fresh_hit cache key data (ttl setAt readAt : Z) :
  (readAt - setAt <= ttl)%Z ->
  getCached readAt (setCache setAt cache key data ttl) key
  = (Some data, setCache setAt cache key data ttl).
Proof.
  intros Hfresh. unfold getCached, setCache. rewrite map_get_set_eq. simpl.
  destruct (Z.gtb_spec (readAt - setAt) ttl); [lia|done].
Qed.

(** X7.  A read after the time to live gives nothing and deletes the
    entry: every later read of the key misses, whatever the clock says
    then, and the entries of the other keys are as before the [set]. *)
Theorem cache_expired_entry_removed cache key data (ttl setAt readAt : Z) :
  NoDup (map_keys cache) ->
  (ttl < readAt - setAt)%Z ->
  exists cache',
    getCached readAt (setCache setAt cache key data ttl) key = (None, cache')
    /\ (forall later, getCached later cache' key = (None, cache'))
    /\ (forall other, other <> key -> map_get cache' other = map_get cache other).
Proof.
  intros Hnd Hold. unfold getCached at 1. unfold setCache.
  rewrite map_get_set_eq. simpl.
  destruct (Z.gtb_spec (readAt - setAt) ttl); [|lia].
  eexists. split; [reflexivity|]. split.
  - intros later. unfold getCached.
    rewrite map_get_delete_eq; [done|]. by apply map_set_NoDup.
  - intros other Hne. rewrite map_get_delete_ne by done. by apply map_get_set_ne.
Qed.
End CacheFacts.

Lemma cache_fresh_hit_witness :
  getCached 10000%Z (setCache 0%Z [] "branchGraph" emptyGraph CACHE_TTL_branchGraph)
    "branchGraph"
  = (Some emptyGraph, setCache 0%Z [] "branchGraph" emptyGraph CACHE_TTL_branchGraph).
Proof. apply cache_fresh_hit. unfold CACHE_TTL_branchGraph. lia. Defined.

Lemma cache_expired_entry_removed_witness :
  exists cache',
    getCached 10001%Z (setCache 0%Z [] "branchGraph" emptyGraph CACHE_TTL_branchGraph)
      "branchGraph" = (None, cache')
    /\ (forall later, getCached later cache' "branchGraph" = (None, cache'))
    /\ (forall other, other <> "branchGraph" ->
          map_get cache' other = map_get ([] : Cache BranchGraphData) other).
Proof.
  apply cache_expired_entry_removed; [apply NoDup_nil_2|unfold CACHE_TTL_branchGraph; lia].
Defined.

Lemma prefix_append p s : String.prefix p s = true <-> exists b, s = String.append p b.
Proof.
  revert s. induction p as [|c p IH]; intros s.
  - destruct s; simpl; (split; [intros _; by eexists|done]).
  - destruct s as [|c' s]; simpl; [split; [done|by intros [b [=]]]|].
    destruct (Ascii.ascii_dec c c') as [->|Hne].
    + rewrite IH. split; intros [b Hb]; exists b; [by rewrite Hb|by injection Hb].
    + split; [done|]. intros [b [= -> _]]. done.
Qed.

(** [includes] is the substring test. *)
Lemma includes_spec p s :
  includes p s = true <-> exists a b, s = String.append a (String.append p b).
Proof.
  induction s as [|c s IH]; cbn [includes].
  - rewrite orb_false_r, prefix_append. split.
    + intros [b Hb]. by exists "", b.
    + intros (a & b & H). destruct a; [by exists b|done].
  - rewrite orb_true_iff, IH, prefix_append. split.
    + intros [[b Hb]|(a & b & Hab)]; [by exists "", b|].
      exists (String c a), b. simpl. by rewrite Hab.
    + intros (a & b & H). destruct a as [|c' a]; [left; by exists b|].
      right. injection H as _ H. by exists a, b.
Qed.

Section InvalidateFacts.
Context {D : Type}.
Implicit Types (cache : Cache D) (key : string).

Lemma invalidate_loop p keys cache k :
  NoDup (map_keys cache) ->
  let cache' := fold_left (fun c key => if includes p key then map_delete c key else c)
                          keys cache in
  NoDup (map_keys cache')
  /\ map_get cache' k = if includes p k && bool_decide (k ∈ keys) then None
                        else map_get cache k.
Proof.
  revert cache. induction keys as [|key rest IH]; intros cache Hnd; simpl.
  - split; [done|]. by rewrite andb_false_r.
  - set (c1 := if includes p key then map_delete cache key else cache).
    assert (NoDup (map_keys c1)) as Hnd1.
    { unfold c1. destruct (includes p key); [by apply map_delete_NoDup|done]. }
    destruct (IH c1 Hnd1) as [Hnd' Hget]. split; [exact Hnd'|].
    rewrite Hget. destruct (includes p k) eqn:Ek; simpl.
    + destruct (decide (k = key)) as [->|Hne].
      * rewrite (bool_decide_eq_true_2 (key ∈ key :: rest)) by left.
        destruct (bool_decide (key ∈ rest)); [done|].
        unfold c1. rewrite Ek. by apply map_get_delete_eq.
      * destruct (bool_decide (k ∈ rest)) eqn:Erest.
        -- rewrite bool_decide_eq_true_2; [done|].
           right. by apply bool_decide_eq_true_1 in Erest.
        -- rewrite bool_decide_eq_false_2.
           ++ unfold c1. destruct (includes p key); [by apply map_get_delete_ne|done].
           ++ apply bool_decide_eq_false_1 in Erest.
              intros Hin. apply elem_of_cons in Hin as [?|?]; done.
    + unfold c1. destruct (includes p key) eqn:Ekey; [|done].
      apply map_get_delete_ne. intros ->. congruence.
Qed.

Lemma invalidateCache_get p cache k :
  NoDup (map_keys cache) -> truthy p = true ->
  NoDup (map_keys (invalidateCache (Some p) cache))
  /\ map_get (invalidateCache (Some p) cache) k
     = if includes p k then None else map_get cache k.
Proof.
  intros Hnd Hp. unfold invalidateCache. rewrite Hp. simpl.
  destruct (invalidate_loop p (map_keys cache) cache k Hnd) as [Hnd' Hget].
  split; [exact Hnd'|]. rewrite Hget.
  destruct (includes p k); simpl; [|done].
  destruct (bool_decide (k ∈ map_keys cache)) eqn:E; [done|].
  apply bool_decide_eq_false_1 in E. simpl. by apply map_get_None.
Qed.

(** X8.  [invalidateCache(pattern)] with a non-empty pattern removes the
    entries whose key contains the pattern and no other: every other key
    reads as before. *)
Theorem invalidateCache_removes_matching (pattern : string) cache key :
  NoDup (map_keys cache) ->
  truthy pattern = true ->
  map_get (invalidateCache (Some pattern) cache) key
  = if includes pattern key then None else map_get cache key.
Proof. intros Hnd Hp. by apply invalidateCache_get. Qed.

(** X9.  The cache after [checkout] still holds the [branchGraph] entry it
    held before (so [getBranchGraph] keeps answering from it until it
    expires) and holds no [getLog] entry; the cache after [merge] holds
    no [branchGraph] entry. *)
Theorem checkout_keeps_branchGraph_entry cache :
  NoDup (map_keys cache) ->
  map_get (checkoutInvalidations cache) "branchGraph" = map_get cache "branchGraph"
  /\ (forall maxCount, map_get (checkoutInvalidations cache) (logCacheKey maxCount) = None)
  /\ map_get (mergeInvalidations cache) "branchGraph" = None.
Proof.
  intros Hnd.
  destruct (invalidateCache_get "branches" cache "branchGraph" Hnd eq_refl) as [Hnd1 H1].
  destruct (invalidateCache_get "status" _ "branchGraph" Hnd1 eq_refl) as [Hnd2 H2].
  destruct (invalidateCache_get "log" _ "branchGraph" Hnd2 eq_refl) as [Hnd3 H3].
  split; [|split].
  - unfold checkoutInvalidations. rewrite H3, H2, H1. reflexivity.
  - intros maxCount. unfold checkoutInvalidations.
    destruct (invalidateCache_get "log" _ (logCacheKey maxCount) Hnd2 eq_refl) as [_ ->].
    replace (includes "log" (logCacheKey maxCount)) with true; [done|].
    symmetry. apply includes_spec. by exists "", (String.append ":" maxCount).
  - unfold mergeInvalidations.
    by destruct (invalidateCache_get "branchGraph" _ "branchGraph" Hnd3 eq_refl) as [_ ->].
Qed.
End InvalidateFacts.

Lemma invalidateCache_removes_matching_witness :
  map_get (invalidateCache (Some "tags")
             (setCache 0%Z (setCache 0%Z [] "tags" 1 3000%Z) "remoteTags:origin" 2 10000%Z))
          "remoteTags:origin"
  = if includes "tags" "remoteTags:origin" then None
    else map_get (setCache 0%Z (setCache 0%Z [] "tags" 1 3000%Z) "remoteTags:origin" 2 10000%Z)
           "remoteTags:origin".
Proof.
  apply invalidateCache_removes_matching; [|reflexivity].
  apply (bool_decide_unpack _). vm_compute. exact I.
Defined.

Lemma checkout_keeps_branchGraph_entry_witness :
  let cache := setCache 0%Z [] "branchGraph" emptyGraph CACHE_TTL_branchGraph in
  map_get (checkoutInvalidations cache) "branchGraph" = map_get cache "branchGraph"
  /\ (forall maxCount, map_get (checkoutInvalidations cache) (logCacheKey maxCount) = None)
  /\ map_get (mergeInvalidations cache) "branchGraph" = None.
Proof.
  apply checkout_keeps_branchGraph_entry.
  apply (bool_decide_unpack _). vm_compute. exact I.
Defined.

(** ** [getBranchGraph] and the cache *)

Section CachedServiceFacts.
Variable limit : nat.
Variable clock : nat -> Z.
Variable recorded : option (list MergeEdge).

Lemma getBranchGraphWithCache_sets now now' cache git storage forceRefresh graph storage'
    cache' :
  forceRefresh = true \/ fst (getCached now cache "branchGraph") = None ->
  getBranchGraphWithCache limit clock recorded now now' cache git storage forceRefresh
    = (Returned (graph, storage'), cache') ->
  getBranchGraph limit clock recorded None git storage forceRefresh
    = Returned (graph, storage')
  /\ exists cache1,
       cache' = setCache now' cache1 "branchGraph" graph CACHE_TTL_branchGraph.
Proof.
  intros Hmiss. unfold getBranchGraphWithCache.
  assert (exists cache1,
            (if forceRefresh then (None, cache) else getCached now cache "branchGraph")
            = (None, cache1)) as [cache1 ->].
  { destruct forceRefresh; [by eexists|].
    destruct Hmiss as [?|Hmiss]; [done|].
    destruct (getCached now cache "branchGraph") as [c c1]. simpl in Hmiss. subst c.
    by eexists. }
  destruct (getBranchGraph limit clock recorded None git storage forceRefresh)
    as [[g s]|]; [|done].
  intros [= <- <- <-]. split; [done|]. by exists cache1.
Qed.

(** X10.  After a call of [getBranchGraph] that did not answer from the
    cache, a call without [forceRefresh] made within the ten seconds of
    [CACHE_TTL.branchGraph] returns the same snapshot without consulting
    git or the storage: whatever HEAD, the logs and the storage are by
    then, and even when no repository can be opened. *)
Theorem getBranchGraph_memory_hit now now' later later' cache git storage forceRefresh
    graph storage' cache' git2 storage2 :
  forceRefresh = true \/ fst (getCached now cache "branchGraph") = None ->
  getBranchGraphWithCache limit clock recorded now now' cache git storage forceRefresh
    = (Returned (graph, storage'), cache') ->
  (later - now' <= CACHE_TTL_branchGraph)%Z ->
  getBranchGraphWithCache limit clock recorded later later' cache' git2 storage2 false
    = (Returned (graph, storage2), cache').
Proof.
  intros Hmiss Hfirst Hfresh.
  destruct (getBranchGraphWithCache_sets _ _ _ _ _ _ _ _ _ Hmiss Hfirst)
    as (_ & cache1 & ->).
  unfold getBranchGraphWithCache, getCached, setCache.
  rewrite map_get_set_eq. simpl.
  destruct (Z.gtb_spec (later - now') CACHE_TTL_branchGraph); [lia|done].
Qed.

(** X11.  After a call of [getBranchGraph] that did not answer from the
    cache, made with a workspace storage and a readable head hash,
    [getBranchGraphSnapshot] gives that same snapshot at any later time
    while HEAD reads the same: from the cache while the entry lives, from
    the storage afterwards. *)
Theorem snapshot_agrees_with_getBranchGraph now now' later cache git st out forceRefresh
    graph storage' cache' git2 :
  forceRefresh = true \/ fst (getCached now cache "branchGraph") = None ->
  git_revparseHead git = Some out ->
  truthy (trim out) = true ->
  git_revparseHead git2 = Some out ->
  getBranchGraphWithCache limit clock recorded now now' cache (Some git) (Some st)
    forceRefresh = (Returned (graph, storage'), cache') ->
  fst (getBranchGraphSnapshot later cache' (Some git2) storage') = Returned (Some graph).
Proof.
  intros Hmiss Hhead Hout Hhead2 Hfirst.
  destruct (getBranchGraphWithCache_sets _ _ _ _ _ _ _ _ _ Hmiss Hfirst)
    as (Hget & cache1 & ->).
  pose proof (getBranchGraph_persists _ _ _ _ _ _ _ _ _ Hhead Hout Hget) as Hload.
  unfold getBranchGraphSnapshot, getCached, setCache.
  rewrite map_get_set_eq. simpl.
  destruct (later - now' >? CACHE_TTL_branchGraph)%Z; [|done].
  rewrite Hhead2, Hout. simpl. by rewrite Hload.
Qed.
End CachedServiceFacts.

Lemma getBranchGraph_memory_hit_witness :
  getBranchGraphWithCache 800 noClock None 9000%Z 9001%Z
    (setCache 5%Z [] "branchGraph" cachedAtC1 CACHE_TTL_branchGraph) None None false
  = (Returned (cachedAtC1, None),
     setCache 5%Z [] "branchGraph" cachedAtC1 CACHE_TTL_branchGraph).
Proof.
  apply (getBranchGraph_memory_hit 800 noClock None 0%Z 5%Z 9000%Z 9001%Z []
           (Some gitAtC1) None false cachedAtC1 None).
  - right. reflexivity.
  - reflexivity.
  - unfold CACHE_TTL_branchGraph. lia.
Defined.

Lemma snapshot_agrees_with_getBranchGraph_witness :
  fst (getBranchGraphSnapshot 20000%Z
         (setCache 5%Z [] "branchGraph" cachedAtC1 CACHE_TTL_branchGraph)
         (Some gitOnlyHead)
         (saveBranchGraphToStorage (Some emptyStorage) "c1" cachedAtC1))
  = Returned (Some cachedAtC1).
Proof.
  apply (snapshot_agrees_with_getBranchGraph 800 noClock None 0%Z 5%Z 20000%Z []
           gitAtC1 emptyStorage "c1" false cachedAtC1
           (saveBranchGraphToStorage (Some emptyStorage) "c1" cachedAtC1)
           (setCache 5%Z [] "branchGraph" cachedAtC1 CACHE_TTL_branchGraph) gitOnlyHead).
  - right. reflexivity.
  - reflexivity.
  - reflexivity.
  - reflexivity.
  - reflexivity.
Defined.

(** ** [clearBranchGraphCache] *)

Lemma delete_indexed_graphs (graphs : JsMap BranchGraphData) (index : list string) :
  NoDup (map_keys graphs) ->
  (forall h, h ∈ map_keys graphs -> h ∈ index) ->
  fold_left (fun g h => map_delete g h) index graphs = [].
Proof.
  revert graphs. induction index as [|h index IH]; intros graphs Hnd Hsub; simpl.
  - destruct graphs as [|[k v] graphs]; [done|].
    exfalso. apply (not_elem_of_nil k). apply Hsub. left.
  - apply IH; [by apply map_delete_NoDup|].
    intros k Hk. pose proof (map_delete_keys_subseteq _ _ _ Hk) as Hk'.
    apply Hsub in Hk'. apply elem_of_cons in Hk' as [->|Hin]; [|done].
    exfalso. revert Hk. apply map_get_None. by apply map_get_delete_eq.
Qed.

(** X12.  On a storage whose index lists every stored snapshot,
    [clearBranchGraphCache] leaves no snapshot and an empty index, and no
    [branchGraph] entry in the cache: [getBranchGraphSnapshot] then has
    nothing to give, and the next [getBranchGraph] does the full rebuild. *)
Theorem clearBranchGraphCache_forgets limit clock recorded
    (cache : Cache BranchGraphData) (st : Storage) (git : Git) (now now' : Z) :
  NoDup (map_keys cache) ->
  storageOK st ->
  let cleared := clearBranchGraphCache cache (Some st) in
  snd cleared = Some emptyStorage
  /\ getBranchGraphSnapshot now (fst cleared) (Some git) (snd cleared)
     = (Returned None, fst cleared)
  /\ exists storage',
       fst (getBranchGraphWithCache limit clock recorded now now' (fst cleared) (Some git)
              (snd cleared) false)
       = Returned (buildFullBranchGraph limit clock recorded git, storage').
Proof.
  intros Hnd (Hg & Hi & Hiff). unfold clearBranchGraphCache. cbn [fst snd].
  rewrite delete_indexed_graphs; [|done|by intros h; apply Hiff].
  destruct (invalidateCache_get "branchGraph" cache "branchGraph" Hnd eq_refl) as [_ Hgone].
  change (includes "branchGraph" "branchGraph") with true in Hgone.
  split; [done|]. split.
  - unfold getBranchGraphSnapshot, getCached. rewrite Hgone.
    destruct (git_revparseHead git) as [out|]; [|done].
    destruct (truthy (trim out)) eqn:E; simpl; rewrite ?E; done.
  - unfold getBranchGraphWithCache, getCached. rewrite Hgone.
    unfold getBranchGraph. cbn [negb andb].
    set (headHash := match git_revparseHead git with Some out => trim out | None => "" end).
    destruct (truthy headHash) eqn:E; simpl; rewrite ?E; simpl; by eexists.
Qed.

Lemma clearBranchGraphCache_forgets_witness :
  let cleared :=
    clearBranchGraphCache (setCache 0%Z [] "branchGraph" cachedAtC1 CACHE_TTL_branchGraph)
      (Some storedCachedAtC1) in
  snd cleared = Some emptyStorage
  /\ getBranchGraphSnapshot 1%Z (fst cleared) (Some gitAtC1) (snd cleared)
     = (Returned None, fst cleared)
  /\ exists storage',
       fst (getBranchGraphWithCache 800 noClock None 1%Z 2%Z (fst cleared) (Some gitAtC1)
              (snd cleared) false)
       = Returned (buildFullBranchGraph 800 noClock None gitAtC1, storage').
Proof.
  apply clearBranchGraphCache_forgets.
  - apply (bool_decide_unpack _). vm_compute. exact I.
  - split; [|split].
    + apply (bool_decide_unpack _). vm_compute. exact I.
    + apply (bool_decide_unpack _). vm_compute. exact I.
    + intros h. reflexivity.
Defined.

(** ** Every snapshot of the service is well formed *)

Lemma newSet_NoDup xs : NoDup (newSet xs).
Proof. unfold newSet. apply fold_set_add_NoDup. apply NoDup_nil_2. Qed.

Lemma map_set_Forall {V} (P : string * V -> Prop) (m : JsMap V) k v :
  Forall P m -> P (k, v) -> Forall P (map_set m k v).
Proof.
  intros Hm Hkv. induction Hm as [|[k' v'] m Hx Hm IH]; simpl.
  - by apply Forall_singleton.
  - destruct (String.eqb k' k); apply Forall_cons; done.
Qed.

Lemma goodMap_set m k v :
  goodMap m -> k <> "" -> hash v = k -> NoDup (branches v) -> goodMap (map_set m k v).
Proof.
  intros (Hwk & Hkey & Hbr) Hk Hhash Hnd. split; [by apply map_set_wellKeyed|].
  split; by apply map_set_Forall.
Qed.

Lemma parseGitLogToCommitMap_good clock logOutput :
  goodMap (parseGitLogToCommitMap clock logOutput).
Proof.
  split; [apply parseGitLogToCommitMap_wellKeyed|].
  split; [apply parseGitLogToCommitMap_keyedByHash|].
  eapply Forall_impl; [apply parseGitLogToCommitMap_branchesAreSets|].
  intros entry Hset. simpl in Hset. rewrite <- Hset. apply newSet_NoDup.
Qed.

Lemma goodMap_take n m : goodMap m -> goodMap (take n m).
Proof.
  intros ([Hnd Hne] & Hkey & Hbr). split; [split|split].
  - unfold map_keys. rewrite <- firstn_map.
    eapply sublist_NoDup; [exact Hnd|apply sublist_take].
  - unfold keysNonEmpty, map_keys. rewrite <- firstn_map. by apply Forall_take.
  - by apply Forall_take.
  - by apply Forall_take.
Qed.

Lemma enforceCommitLimit_good limit m : goodMap m -> goodMap (enforceCommitLimit limit m).
Proof.
  intros Hm. rewrite enforceCommitLimit_take by apply Hm. by apply goodMap_take.
Qed.

Lemma combineCommits_good newCommits baseNodes :
  goodMap newCommits ->
  Forall (fun node => n_hash node <> "") baseNodes ->
  goodMap (combineCommits newCommits baseNodes).
Proof.
  intros Hnew Hbase. unfold combineCommits.
  rewrite copyCommits_id by apply Hnew.
  revert Hnew. generalize newCommits.
  induction Hbase as [|node rest Hnode _ IH]; intros acc Hacc; simpl; [done|].
  apply IH. unfold addBaseNode. destruct (map_has acc (n_hash node)); [done|].
  apply goodMap_set; [done|done|done|]. simpl. apply newSet_NoDup.
Qed.

Lemma historyStep_NoDup allBranches items acc :
  NoDup (map pairOf acc) ->
  NoDup (map pairOf (fold_left (historyStep allBranches) items acc)).
Proof.
  revert acc. induction items as [|item items IH]; intros acc Hacc; simpl; [done|].
  apply IH. unfold historyStep.
  destruct (negb (MergeType_eqb (m_type item) ThreeWay)); [done|].
  destruct (negb (set_has allBranches (m_from item))
            || negb (set_has allBranches (m_to item))); [done|].
  destruct (hasMerge acc (m_from item) (m_to item)) eqn:Ehas; [done|].
  rewrite map_app. apply NoDup_app. split; [done|]. split; [|apply NoDup_singleton].
  intros p Hp Hp'. apply list_elem_of_singleton in Hp' as ->.
  rewrite hasMerge_pairs in Ehas.
  assert (existsb (fun p => pair_eqb p (m_from item, m_to item)) (map pairOf acc) = true)
    as Hex; [|congruence].
  apply existsb_exists. exists (pairOf item).
  split; [by apply list_elem_of_In|]. by apply pair_eqb_eq.
Qed.

Lemma buildBranchGraphFromCommitMap_wellFormed recorded commits branchSummary :
  goodMap commits ->
  wellFormedSnapshot (buildBranchGraphFromCommitMap recorded commits branchSummary).
Proof.
  intros ([Hnd Hne] & Hkey & Hbr). unfold buildBranchGraphFromCommitMap, wellFormedSnapshot.
  unfold keyedByHash in Hkey.
  cbn [g_dag g_branches g_merges].
  assert (map n_hash (map dagNodeOf (map_values commits)) = map_keys commits) as Hhashes.
  { unfold map_values, map_keys. rewrite !map_map. apply map_ext_Forall.
    eapply Forall_impl; [exact Hkey|]. by intros entry H. }
  split; [|split; [|split]].
  - eexists. split; [reflexivity|]. unfold wellFormedDag. cbn [nodes links].
    split; [by rewrite Hhashes|]. split.
    + unfold map_values. rewrite map_map. apply Forall_map.
      unfold keysNonEmpty, map_keys in Hne. rewrite Forall_map in Hne.
      rewrite Forall_forall in Hkey, Hbr, Hne. apply Forall_forall.
      intros entry Hin. simpl.
      split; [rewrite (Hkey entry Hin); by apply Hne|]. split; [by apply Hbr|done].
    + intros l. unfold dagLinksOf, map_values. rewrite map_map.
      rewrite list_elem_of_In, in_flat_map. split.
      * intros ([k c] & Hin & Hl). apply in_map_iff in Hl as (p & <- & Hp). simpl.
        exists (dagNodeOf c). split; [|split].
        -- apply list_elem_of_In, in_map_iff. by exists (k, c).
        -- simpl. symmetry. rewrite Forall_forall in Hkey.
           apply (Hkey (k, c)). by apply list_elem_of_In.
        -- simpl. by apply list_elem_of_In.
      * intros (n & Hn & Htarget & Hsource).
        apply list_elem_of_In, in_map_iff in Hn as ([k c] & <- & Hin).
        exists (k, c). split; [done|]. apply in_map_iff. exists (l_source l).
        split; [|by apply list_elem_of_In].
        destruct l as [s t]. simpl in *. f_equal. rewrite Htarget.
        rewrite Forall_forall in Hkey. symmetry.
        apply (Hkey (k, c)). by apply list_elem_of_In.
  - unfold localBranches. apply Forall_forall. intros b Hb.
    apply elem_of_List_filter in Hb as [_ Hb]. by apply negb_true_iff in Hb.
  - apply Forall_forall. intros e He. apply elem_of_List_filter in He as [_ He].
    by destruct (m_type e).
  - set (merges := match recorded with
                   | Some items => _
                   | None => _
                   end).
    assert (NoDup (map pairOf merges)) as Hmerges.
    { unfold merges. destruct recorded as [items|].
      - apply historyStep_NoDup. rewrite inferMerges_keepFirst.
        apply keepFirstPerPair_NoDup.
      - rewrite inferMerges_keepFirst. apply keepFirstPerPair_NoDup. }
    eapply sublist_NoDup; [exact Hmerges|].
    apply (fmap_sublist pairOf). clear. induction merges as [|e merges IH]; simpl; [done|].
    destruct (MergeType_eqb (m_type e) ThreeWay); by constructor.
Qed.

Lemma localBranches_no_remotes bs :
  Forall (fun b => startsWith "remotes/" b = false) (localBranches bs).
Proof.
  unfold localBranches. apply Forall_forall. intros b Hb.
  apply elem_of_List_filter in Hb as [_ Hb]. by apply negb_true_iff in Hb.
Qed.

Lemma emptyDag_wellFormed : wellFormedDag {| nodes := []; links := [] |}.
Proof.
  split; [apply NoDup_nil_2|]. split; [apply Forall_nil_2|].
  intros l. simpl. split; [by intros H%elem_of_nil|].
  by intros (n & H%elem_of_nil & _).
Qed.

Lemma buildFullBranchGraph_wellFormed limit clock recorded git :
  wellFormedSnapshot (buildFullBranchGraph limit clock recorded git).
Proof.
  assert (wellFormedSnapshot emptyGraph) as Hempty.
  { split; [eexists; split; [reflexivity|apply emptyDag_wellFormed]|].
    split; [apply Forall_nil_2|]. split; [apply Forall_nil_2|apply NoDup_nil_2]. }
  unfold buildFullBranchGraph.
  destruct (git_logAll git) as [logOutput|]; [|exact Hempty].
  destruct (git_branch git) as [branchSummary|]; [|exact Hempty].
  destruct (map_size _ =? 0).
  - split; [eexists; split; [reflexivity|apply emptyDag_wellFormed]|].
    split; [apply localBranches_no_remotes|].
    split; [apply Forall_nil_2|apply NoDup_nil_2].
  - apply buildBranchGraphFromCommitMap_wellFormed, enforceCommitLimit_good,
      parseGitLogToCommitMap_good.
Qed.

(** X13.  Whatever git answers, the snapshot of a full rebuild is well
    formed: its nodes carry distinct non-empty hashes, duplicate-free
    branch lists and a merge flag equal to "two parents or more"; its links
    are exactly the parent edges of its nodes, so the target of a link is
    always a node; its branches hold no [remotes/] name; its merges are
    three-way, one per (from, to) pair. *)
Theorem full_rebuild_wellFormed limit clock recorded git :
  exists dag,
    g_dag (buildFullBranchGraph limit clock recorded git) = Some dag
    /\ NoDup (map n_hash (nodes dag))
    /\ Forall (fun n => n_hash n <> "" /\ NoDup (n_branches n)
                        /\ n_isMerge n = (2 <=? length (n_parents n)))
              (nodes dag)
    /\ (forall l, l ∈ links dag
          <-> exists n, n ∈ nodes dag /\ l_target l = n_hash n
                        /\ l_source l ∈ n_parents n)
    /\ Forall (fun b => startsWith "remotes/" b = false)
              (g_branches (buildFullBranchGraph limit clock recorded git))
    /\ Forall (fun e => m_type e = ThreeWay)
              (g_merges (buildFullBranchGraph limit clock recorded git))
    /\ NoDup (map pairOf (g_merges (buildFullBranchGraph limit clock recorded git))).
Proof.
  destruct (buildFullBranchGraph_wellFormed limit clock recorded git)
    as ((dag & Hdag & Hnd & Hnodes & Hlinks) & Hbr & Hthree & Hpairs).
  exists dag. repeat split; try done; by apply Hlinks.
Qed.

Lemma incremental_wellFormed limit clock recorded git baseGraph baseHash headHash graph :
  wellFormedSnapshot baseGraph ->
  buildBranchGraphIncrementally limit clock recorded git baseGraph baseHash headHash
    = Returned (Some graph) ->
  wellFormedSnapshot graph.
Proof.
  intros ((dag & Hdag & Hwf) & _ & Hthree & Hpairs). unfold buildBranchGraphIncrementally.
  rewrite Hdag.
  destruct (git_logRange git baseHash headHash) as [logOutput|]; [|done].
  destruct (git_branch git) as [branchSummary|]; [|done].
  destruct (map_size _ =? 0); intros [= <-].
  - split; [by exists dag|]. split; [apply localBranches_no_remotes|]. done.
  - apply buildBranchGraphFromCommitMap_wellFormed, enforceCommitLimit_good,
      combineCommits_good; [apply parseGitLogToCommitMap_good|].
    destruct Hwf as (_ & Hnodes & _). eapply Forall_impl; [exact Hnodes|].
    by intros n [Hn _].
Qed.

Lemma save_storedWellFormed storage headHash graph :
  storedWellFormed storage -> wellFormedSnapshot graph ->
  storedWellFormed (saveBranchGraphToStorage storage headHash graph).
Proof.
  intros Hst Hg. destruct storage as [st|]; [|done]. unfold saveBranchGraphToStorage.
  destruct (truthy headHash); simpl; [|done]. by apply map_set_Forall.
Qed.

(** X14.  [getBranchGraph] keeps snapshots well formed: when the cached
    and the stored snapshots are well formed, so are the snapshot it
    returns, whichever way it was obtained (cache, storage, incremental
    build or full rebuild), and every snapshot in the storage it leaves. *)
Theorem getBranchGraph_wellFormed limit clock recorded cached git storage forceRefresh
    graph storage' :
  (forall data, cached = Some data -> wellFormedSnapshot data) ->
  storedWellFormed storage ->
  getBranchGraph limit clock recorded cached git storage forceRefresh
    = Returned (graph, storage') ->
  wellFormedSnapshot graph /\ storedWellFormed storage'.
Proof.
  intros Hcached Hstored. unfold getBranchGraph.
  destruct (if forceRefresh then None else cached) as [data|] eqn:Ecached.
  { intros [= <- <-]. split; [|done]. apply Hcached.
    by destruct forceRefresh. }
  destruct git as [git|]; [|done].
  set (headHash := match git_revparseHead git with Some out => trim out | None => "" end).
  destruct (if negb forceRefresh && truthy headHash
            then loadBranchGraphFromStorage storage headHash else None)
    as [persisted|] eqn:Eload.
  { intros [= <- <-]. split; [|done].
    destruct (negb forceRefresh && truthy headHash); [|done].
    unfold loadBranchGraphFromStorage in Eload. destruct storage as [st|]; [|done].
    destruct (negb (truthy headHash)); [done|].
    apply map_get_Some_in in Eload. simpl in Hstored.
    rewrite Forall_forall in Hstored. apply (Hstored _ Eload). }
  pose proof (buildFullBranchGraph_wellFormed limit clock recorded git) as Hfull.
  destruct (if negb forceRefresh && truthy headHash
            then tryBuildIncrementalBranchGraph limit clock recorded git storage headHash
            else Returned None) as [[incremental|]|] eqn:Einc; [| |done].
  - intros [= <- <-].
    assert (wellFormedSnapshot incremental) as Hinc.
    { destruct (negb forceRefresh && truthy headHash); [|done].
      destruct storage as [st|]; [|done].
      unfold tryBuildIncrementalBranchGraph in Einc. destruct (st_index st); [done|].
      apply tryCandidates_sound in Einc as (b & bg & _ & _ & _ & Hget & _ & Hbuild).
      apply map_get_Some_in in Hget. simpl in Hstored.
      rewrite Forall_forall in Hstored.
      exact (incremental_wellFormed _ _ _ _ _ _ _ _ (Hstored _ Hget) Hbuild). }
    split; [done|]. by apply save_storedWellFormed.
  - intros [= <- <-]. split; [done|].
    destruct (truthy headHash); [|done]. by apply save_storedWellFormed.
Qed.

Lemma getBranchGraph_wellFormed_witness :
  wellFormedSnapshot cachedAtC1
  /\ storedWellFormed (saveBranchGraphToStorage (Some emptyStorage) "c1" cachedAtC1).
Proof.
  apply (getBranchGraph_wellFormed BRANCH_GRAPH_MAX_COMMITS noClock None None (Some gitAtC1)
           (Some emptyStorage) false).
  - intros data [=].
  - apply Forall_nil_2.
  - reflexivity.
Defined.

(* ================================================================== *)
(** * Further properties of the graph view *)
(* ================================================================== *)

(** ** The sort of the rows *)

Lemma insertByTime_perm e sorted : insertByTime e sorted ≡ₚ e :: sorted.
Proof.
  induction sorted as [|x rest IH]; simpl; [done|].
  destruct (ne_timestamp (snd e) <? ne_timestamp (snd x))%Z; [|done].
  rewrite IH. apply Permutation_swap.
Qed.

Lemma sortByTime_perm entries : sortByTime entries ≡ₚ entries.
Proof.
  induction entries as [|e entries IH]; simpl; [done|].
  rewrite insertByTime_perm. by rewrite IH.
Qed.

Lemma insertByTime_sorted e sorted : sortedDesc sorted -> sortedDesc (insertByTime e sorted).
Proof.
  induction sorted as [|x rest IH]; simpl; intros Hs.
  - split; [apply Forall_nil_2|done].
  - destruct Hs as [Hx Hrest].
    destruct (Z.ltb_spec (ne_timestamp (snd e)) (ne_timestamp (snd x))) as [Hlt|Hge]; simpl.
    + split; [|by apply IH]. rewrite insertByTime_perm.
      apply Forall_cons. split; [lia|done].
    + split; [|done]. apply Forall_cons. split; [lia|].
      eapply Forall_impl; [exact Hx|]. intros y Hy. simpl in Hy. lia.
Qed.

Lemma sortByTime_sorted entries : sortedDesc (sortByTime entries).
Proof.
  induction entries as [|e entries IH]; simpl; [done|]. by apply insertByTime_sorted.
Qed.

Lemma sortedDesc_newestFirst rows : sortedDesc rows -> newestFirst rows.
Proof.
  induction rows as [|x rest IH]; intros Hs i j a b Hij Ha Hb.
  - by rewrite lookup_nil in Ha.
  - destruct Hs as [Hx Hrest]. destruct j as [|j]; [lia|]. simpl in Hb.
    destruct i as [|i]; simpl in Ha.
    + injection Ha as <-. rewrite Forall_forall in Hx. apply Hx.
      by eapply list_elem_of_lookup_2.
    + apply (IH Hrest i j a b); [lia|done|done].
Qed.

Lemma insertByTime_withTimestamp t e sorted :
  withTimestamp t (insertByTime e sorted) = withTimestamp t (e :: sorted).
Proof.
  unfold withTimestamp. induction sorted as [|x rest IH]; [done|].
  cbn [insertByTime].
  destruct (Z.ltb_spec (ne_timestamp (snd e)) (ne_timestamp (snd x))) as [Hlt|Hge]; [|done].
  cbn [List.filter] in *. rewrite IH.
  destruct (Z.eqb_spec (ne_timestamp (snd x)) t) as [Hx|Hx]; [|done].
  destruct (Z.eqb_spec (ne_timestamp (snd e)) t) as [He|He]; [lia|done].
Qed.

(** X15.  The sort of the rows keeps every entry (it permutes them), puts
    them newest first, and is stable: the entries of one timestamp stay in
    the order the dag lists them. *)
Theorem sortByTime_stable_newest_first (entries : list (string * NodeEntry)) :
  sortByTime entries ≡ₚ entries
  /\ newestFirst (sortByTime entries)
  /\ forall t, withTimestamp t (sortByTime entries) = withTimestamp t entries.
Proof.
  split; [apply sortByTime_perm|]. split.
  - apply sortedDesc_newestFirst, sortByTime_sorted.
  - intros t. induction entries as [|e entries IH]; [done|].
    cbn [sortByTime fold_right]. fold (sortByTime entries).
    rewrite insertByTime_withTimestamp. unfold withTimestamp in *.
    cbn [List.filter]. by rewrite IH.
Qed.

(** ** The vertices [buildGraphData] hands to the layout *)

Lemma indexOfHash_Some hs i0 h p :
  indexOfHash hs i0 h = Some p -> i0 <= p /\ hs !! (p - i0) = Some h.
Proof.
  revert i0. induction hs as [|x hs IH]; intros i0; simpl; [done|].
  destruct (String.eqb_spec x h) as [->|Hne].
  - intros [= <-]. split; [lia|]. by rewrite Nat.sub_diag.
  - intros H. apply IH in H as [Hle Hget]. split; [lia|].
    replace (p - i0) with (S (p - S i0)) by lia. exact Hget.
Qed.

Lemma indexOfHash_None hs i0 h : indexOfHash hs i0 h = None -> h ∉ hs.
Proof.
  revert i0. induction hs as [|x hs IH]; intros i0; simpl; [intros _; apply not_elem_of_nil|].
  destruct (String.eqb_spec x h) as [->|Hne]; [done|].
  intros H. apply not_elem_of_cons. split; [done|]. by eapply IH.
Qed.

Lemma indexOfHash_NoDup hs i0 h p :
  NoDup hs -> hs !! p = Some h -> indexOfHash hs i0 h = Some (i0 + p).
Proof.
  revert i0 p. induction hs as [|x hs IH]; intros i0 p Hnd Hp; [by rewrite lookup_nil in Hp|].
  apply NoDup_cons in Hnd as [Hx Hnd]. simpl. destruct p as [|p]; simpl in Hp.
  - injection Hp as ->. rewrite String.eqb_refl. f_equal. lia.
  - destruct (String.eqb_spec x h) as [->|Hne].
    + exfalso. apply Hx. by eapply list_elem_of_lookup_2.
    + rewrite (IH (S i0) p Hnd Hp). f_equal. lia.
Qed.

Lemma indexOfHash_notin hs i0 h : h ∉ hs -> indexOfHash hs i0 h = None.
Proof.
  revert i0. induction hs as [|x hs IH]; intros i0 Hnin; [done|]. simpl.
  apply not_elem_of_cons in Hnin as [Hne Hnin].
  destruct (String.eqb_spec x h); [congruence|]. by apply IH.
Qed.

Lemma commitLookup_proto hs i0 : commitLookup hs i0 PROTO_KEY = None.
Proof. reflexivity. Qed.

Lemma commitLookup_plain hs i0 h :
  h <> PROTO_KEY -> commitLookup hs i0 h = indexOfHash hs i0 h.
Proof.
  intros Hne. unfold commitLookup. by destruct (String.eqb_spec h PROTO_KEY).
Qed.

Lemma commitLookup_Some hs i0 h p :
  commitLookup hs i0 h = Some p ->
  h <> PROTO_KEY /\ i0 <= p /\ hs !! (p - i0) = Some h.
Proof.
  unfold commitLookup. destruct (String.eqb_spec h PROTO_KEY) as [->|Hne]; [done|].
  intros H. split; [done|]. by apply indexOfHash_Some.
Qed.

Lemma commitLookup_None hs i0 h :
  commitLookup hs i0 h = None -> h = PROTO_KEY \/ h ∉ hs.
Proof.
  unfold commitLookup. destruct (String.eqb_spec h PROTO_KEY) as [->|Hne]; [by left|].
  intros H. right. by eapply indexOfHash_None.
Qed.

Lemma fmap_alter_same {A B} (proj : A -> B) (f : A -> A) i (l : list A) :
  (forall x, proj (f x) = proj x) -> map proj (alter f i l) = map proj l.
Proof.
  intros Hf. revert i. induction l as [|x l IH]; intros i; [done|].
  destruct i as [|i]; simpl; [by rewrite Hf|]. f_equal. apply IH.
Qed.

Lemma wireParent_parents hs i vs h :
  map v_parents (wireParent hs i vs h)
  = alter (fun ps => ps ++ [resolveParent hs h]) i (map v_parents vs).
Proof.
  unfold wireParent, resolveParent.
  destruct (commitLookup hs 0 h) as [p|].
  - rewrite fmap_alter_same by done.
    apply (list_fmap_alter v_parents). by apply Forall_forall.
  - apply (list_fmap_alter v_parents). by apply Forall_forall.
Qed.

Lemma fold_wireParent_parents hs i ps vs :
  map v_parents (fold_left (wireParent hs i) ps vs)
  = alter (fun l => l ++ map (resolveParent hs) ps) i (map v_parents vs).
Proof.
  revert vs. induction ps as [|p ps IH]; intros vs; simpl.
  - symmetry. apply list_alter_id. intros l. apply app_nil_r.
  - rewrite IH, wireParent_parents.
    rewrite list_alter_alter_eq.
    apply list_alter_ext; [|done]. intros l _. simpl. by rewrite <- app_assoc.
Qed.

Lemma wireRows_parents hs rows i vs done tail :
  map v_parents vs = done ++ replicate (length rows) [] ++ tail ->
  length done = i ->
  map v_parents (wireRows hs i rows vs)
  = done ++ map (fun row => map (resolveParent hs) (ne_parents (snd row))) rows ++ tail.
Proof.
  revert i vs done. induction rows as [|[h node] rows IH]; intros i vs done Hvs Hlen.
  - exact Hvs.
  - cbn [wireRows]. rewrite (IH (S i) _ (done ++ [map (resolveParent hs) (ne_parents node)])).
    + by rewrite <- app_assoc.
    + rewrite fold_wireParent_parents, Hvs. simpl.
      replace i with (length done + 0) by lia. rewrite alter_app_r. simpl.
      by rewrite <- app_assoc.
    + rewrite length_app. simpl. lia.
Qed.

Lemma wireRows_same {B} (proj : Vertex -> B) hs rows i vs :
  (forall r v, proj (addParent r v) = proj v) ->
  (forall c v, proj (addChild c v) = proj v) ->
  map proj (wireRows hs i rows vs) = map proj vs.
Proof.
  intros Hp Hc. revert i vs. induction rows as [|[h node] rows IH]; intros i vs; [done|].
  cbn [wireRows]. rewrite IH. generalize (ne_parents node). intros ps. revert vs.
  induction ps as [|p ps IHps]; intros vs; simpl; [done|].
  rewrite IHps. unfold wireParent. destruct (commitLookup hs 0 p).
  - by rewrite !fmap_alter_same.
  - by rewrite fmap_alter_same.
Qed.

Lemma buildVertices_same {B} (proj : Vertex -> B) commits dagNodes currentBranch :
  (forall r v, proj (addParent r v) = proj v) ->
  (forall c v, proj (addChild c v) = proj v) ->
  (forall v, proj (setCurrent v) = proj v) ->
  map proj (buildVertices commits dagNodes currentBranch)
  = map (fun i => proj (newVertex i))
        (seq 0 (length (sortByTime (nodeRows commits dagNodes)))).
Proof.
  intros Hp Hc Hs. unfold buildVertices. fold (nodeRows commits dagNodes).
  set (rows := sortByTime (nodeRows commits dagNodes)).
  set (vs := wireRows (map fst rows) 0 rows (map newVertex (seq 0 (length rows)))).
  assert (map proj vs = map (fun i => proj (newVertex i)) (seq 0 (length rows))) as Hvs.
  { unfold vs. rewrite wireRows_same by done. by rewrite map_map. }
  destruct currentBranch as [cur|]; [|done].
  destruct (truthy cur); [|done].
  destruct (List.find _ rows) as [[currentHash node]|]; [|done].
  destruct (truthy currentHash); [|done].
  destruct (commitLookup (map fst rows) 0 currentHash); [|done].
  by rewrite fmap_alter_same.
Qed.

Lemma buildVertices_parents commits dagNodes currentBranch :
  map v_parents (buildVertices commits dagNodes currentBranch)
  = map (fun row => map (resolveParent (map fst (sortByTime (nodeRows commits dagNodes))))
                        (ne_parents (snd row)))
        (sortByTime (nodeRows commits dagNodes)).
Proof.
  unfold buildVertices. fold (nodeRows commits dagNodes).
  set (rows := sortByTime (nodeRows commits dagNodes)).
  set (vs := wireRows (map fst rows) 0 rows (map newVertex (seq 0 (length rows)))).
  assert (map v_parents vs
          = map (fun row => map (resolveParent (map fst rows)) (ne_parents (snd row))) rows)
    as Hvs.
  { unfold vs. rewrite (wireRows_parents _ rows 0 _ [] []); [by rewrite app_nil_r|  |done].
    rewrite app_nil_r. simpl. rewrite map_map. simpl.
    generalize 0. induction (length rows) as [|n IH]; intros s; simpl; [done|].
    f_equal. apply IH. }
  destruct currentBranch as [cur|]; [|done].
  destruct (truthy cur); [|done].
  destruct (List.find _ rows) as [[currentHash node]|]; [|done].
  destruct (truthy currentHash); [|done].
  destruct (commitLookup (map fst rows) 0 currentHash); [|done].
  by rewrite fmap_alter_same.
Qed.

Lemma nodeMapOf_NoDup commitMap dagNodes : NoDup (map_keys (nodeMapOf commitMap dagNodes)).
Proof.
  unfold nodeMapOf.
  assert (forall acc : JsMap NodeEntry, NoDup (map_keys acc) ->
            NoDup (map_keys
                     (fold_left
                        (fun acc node =>
                           map_set acc (n_hash node)
                             {| ne_hash := n_hash node;
                                ne_branches :=
                                  match n_branches node with
                                  | [] => match map_get commitMap (n_hash node) with
                                          | Some c => ci_branches c
                                          | None => []
                                          end
                                  | bs => bs
                                  end;
                                ne_parents :=
                                  match n_parents node with
                                  | [] => match map_get commitMap (n_hash node) with
                                          | Some c => ci_parents c
                                          | None => []
                                          end
                                  | ps => ps
                                  end;
                                ne_timestamp := orZero (n_timestamp node) |})
                        dagNodes acc))) as H.
  { induction dagNodes as [|node dagNodes IH]; intros acc Hacc; simpl; [done|].
    apply IH. by apply map_set_NoDup. }
  apply H. apply NoDup_nil_2.
Qed.

Lemma sortedRows_NoDup commits dagNodes :
  NoDup (map fst (sortByTime (nodeRows commits dagNodes))).
Proof.
  rewrite (sortByTime_perm (nodeRows commits dagNodes)). apply nodeMapOf_NoDup.
Qed.

Lemma resolveParent_spec hs h :
  match resolveParent hs h with
  | Real p => h <> PROTO_KEY /\ hs !! p = Some h
  | Sentinel => h = PROTO_KEY \/ h ∉ hs
  end.
Proof.
  unfold resolveParent. destruct (commitLookup hs 0 h) as [p|] eqn:E.
  - apply commitLookup_Some in E as (Hne & _ & E). by rewrite Nat.sub_0_r in E.
  - by eapply commitLookup_None.
Qed.

Lemma map_const_Forall {A B} (f : A -> B) (c : B) {C} (l : list A) (l' : list C) :
  map f l = map (fun _ => c) l' -> Forall (fun x => f x = c) l.
Proof.
  revert l'. induction l as [|x l IH]; intros l' H; [apply Forall_nil_2|].
  destruct l' as [|y l']; [done|]. injection H as Hx Hl.
  apply Forall_cons. split; [done|]. by eapply IH.
Qed.

Lemma eqb_row_marks (hashes : list string) i h :
  NoDup hashes -> hashes !! i = Some h ->
  map (fun x => String.eqb x h) hashes = <[i := true]> (map (fun _ => false) hashes).
Proof.
  revert i. induction hashes as [|x hashes IH]; intros i Hnd Hi; [done|].
  apply NoDup_cons in Hnd as [Hx Hnd]. destruct i as [|i]; simpl in *.
  - injection Hi as ->. rewrite String.eqb_refl. f_equal.
    apply map_ext_in. intros y Hy. destruct (String.eqb_spec y h) as [->|]; [|done].
    exfalso. apply Hx. by apply list_elem_of_In.
  - rewrite (IH i Hnd Hi). f_equal. destruct (String.eqb_spec x h) as [->|]; [|done].
    exfalso. apply Hx. by eapply list_elem_of_lookup_2.
Qed.

Lemma buildVertices_current commits dagNodes currentBranch :
  currentCommitHash commits dagNodes currentBranch <> Some PROTO_KEY ->
  map isCurrent (buildVertices commits dagNodes currentBranch)
  = map (fun row => match currentCommitHash commits dagNodes currentBranch with
                    | Some h => truthy h && String.eqb (fst row) h
                    | None => false
                    end)
        (sortByTime (nodeRows commits dagNodes)).
Proof.
  intros Hproto. unfold buildVertices, currentCommitHash in *.
  fold (nodeRows commits dagNodes) in *.
  set (rows := sortByTime (nodeRows commits dagNodes)) in *.
  set (vs := wireRows (map fst rows) 0 rows (map newVertex (seq 0 (length rows)))).
  assert (map isCurrent vs = map (fun _ => false) rows) as Hvs.
  { unfold vs. rewrite wireRows_same by done. rewrite map_map. simpl.
    clear. generalize 0. generalize rows. clear.
    induction rows as [|r rs IH]; intros s; simpl; [done|].
    f_equal. apply IH. }
  destruct currentBranch as [cur|]; [|done].
  destruct (truthy cur); [|done].
  destruct (List.find _ rows) as [[currentHash node]|] eqn:Efind; [|done].
  destruct (truthy currentHash) eqn:Etr; [|done]. cbn [andb].
  assert (currentHash <> PROTO_KEY) as Hne by congruence.
  rewrite commitLookup_plain by done.
  apply find_some in Efind as [Hin _].
  assert (currentHash ∈ map fst rows) as Hkey.
  { apply list_elem_of_fmap. exists (currentHash, node). split; [done|].
    by apply list_elem_of_In. }
  apply list_elem_of_lookup in Hkey as [i Hi].
  pose proof (sortedRows_NoDup commits dagNodes) as Hnd. fold rows in Hnd.
  rewrite (indexOfHash_NoDup _ 0 _ i Hnd Hi). simpl.
  rewrite (list_fmap_alter isCurrent setCurrent (fun _ => true)) by (by apply Forall_forall).
  change (isCurrent <$> vs) with (map isCurrent vs). rewrite Hvs.
  pose proof (eqb_row_marks (map fst rows) i currentHash Hnd Hi) as Hmarks.
  rewrite !map_map in Hmarks. rewrite Hmarks.
  generalize (map (fun _ : string * NodeEntry => false) rows). intros l.
  clear. revert i. induction l as [|b l IH]; intros i; [done|].
  destruct i; simpl; [done|]. f_equal. apply IH.
Qed.

(** X16.  The vertices handed to the layout, when the marking of the
    current commit does not throw, that is, when the commit found for the
    checked-out branch does not have the hash [__proto__]: one vertex per
    row of the sorted node map, with the row number as id, unbound and with
    no parent processed; the parents of a vertex are the parents of its
    node, in order; the vertex marked current is that of the commit found
    for the checked-out branch, if it has a non-empty hash, and no other.
    A parent hash other than [__proto__] is resolved to the vertex of the
    one row that carries it, and to the sentinel exactly when no row
    carries it; the parent hash [__proto__] is resolved to the sentinel
    whether a row carries it or not, the lookup table being a plain
    object. *)
Theorem buildVertices_shape commits dagNodes currentBranch :
  let rows := sortByTime (nodeRows commits dagNodes) in
  let hashes := map fst rows in
  let vs := buildVertices commits dagNodes currentBranch in
  currentCommitHash commits dagNodes currentBranch <> Some PROTO_KEY ->
  map v_id vs = seq 0 (length rows)
  /\ map v_parents vs
     = map (fun row => map (resolveParent hashes) (ne_parents (snd row))) rows
  /\ Forall (fun v => (onBranch v, nextParent v) = (None, 0)) vs
  /\ map isCurrent vs
     = map (fun row => match currentCommitHash commits dagNodes currentBranch with
                       | Some h => truthy h && String.eqb (fst row) h
                       | None => false
                       end) rows
  /\ NoDup hashes
  /\ resolveParent hashes PROTO_KEY = Sentinel
  /\ forall h, h <> PROTO_KEY ->
       match resolveParent hashes h with
       | Real p => hashes !! p = Some h
       | Sentinel => h ∉ hashes
       end.
Proof.
  intros rows hashes vs Hcurrent. split; [|split; [|split; [|split]]].
  - unfold vs. rewrite (buildVertices_same v_id) by done. apply map_id.
  - apply buildVertices_parents.
  - unfold vs. eapply map_const_Forall.
    by rewrite (buildVertices_same (fun v => (onBranch v, nextParent v))).
  - by apply buildVertices_current.
  - split; [apply sortedRows_NoDup|]. split; [reflexivity|].
    intros h Hne. pose proof (resolveParent_spec hashes h) as Hspec.
    destruct (resolveParent hashes h); [tauto|]. by destruct Hspec.
Qed.

Lemma buildVertices_shape_witness :
  map fst (sortByTime (nodeRows linearLog protoDag)) = ["c2"; PROTO_KEY; "c0"]
  /\ currentCommitHash linearLog protoDag (Some "main") = Some "c2"
  /\ map v_parents (buildVertices linearLog protoDag (Some "main"))
     = [[Sentinel; Real 2]; [Real 2]; []]
  /\ map isCurrent (buildVertices linearLog protoDag (Some "main"))
     = [true; false; false]
  /\ map fst (sortByTime (nodeRows linearLog protoDag)) !! 2 = Some "c0".
Proof.
  destruct (buildVertices_shape linearLog protoDag (Some "main"))
    as (_ & Hparents & _ & Hmarked & _ & _ & Hplain).
  - vm_compute. discriminate.
  - split; [reflexivity|]. split; [reflexivity|]. split; [|split].
    + rewrite Hparents. vm_compute. reflexivity.
    + rewrite Hmarked. vm_compute. reflexivity.
    + assert ("c0" <> PROTO_KEY) as Hne by discriminate.
      exact (Hplain "c0" Hne).
Defined.












(** ** The layout keeps its lines and bindings in range *)

Lemma vertsOK_alter k f j vs :
  vertsOK k vs ->
  (forall v, v_id (f v) = v_id v
             /\ forall b, onBranch (f v) = Some b -> onBranch v = Some b \/ b < k) ->
  vertsOK k (alter f j vs).
Proof.
  intros Hvs Hf i v'. rewrite list_lookup_alter.
  destruct (decide (j = i)) as [->|Hne]; [|apply Hvs].
  destruct (vs !! i) as [v|] eqn:Hv; [|done]. intros [= <-].
  destruct (Hvs i v Hv) as [Hid Hb]. destruct (Hf v) as [Hid' Hb'].
  split; [congruence|]. intros b Hon. destruct (Hb' b Hon) as [?|?]; [by apply Hb|done].
Qed.

Lemma vertsOK_mono k k' vs : k <= k' -> vertsOK k vs -> vertsOK k' vs.
Proof.
  intros Hk Hvs i v Hv. destruct (Hvs i v Hv) as [Hid Hb]. split; [done|].
  intros b Hon. specialize (Hb b Hon). lia.
Qed.

Lemma vertsOK_id k vs i : vertsOK k vs -> i < length vs -> v_id (vs !!! i) = i.
Proof.
  intros Hvs Hi. destruct (lookup_lt_is_Some_2 vs i Hi) as [v Hv].
  rewrite (list_lookup_total_correct _ _ _ Hv). by apply (Hvs i v Hv).
Qed.

Lemma registerUnavailablePoint_OK k x target branch v :
  v_id (registerUnavailablePoint x target branch v) = v_id v
  /\ forall b, onBranch (registerUnavailablePoint x target branch v) = Some b ->
       onBranch v = Some b \/ b < k.
Proof.
  unfold registerUnavailablePoint. destruct (x =? nextX v); simpl; split; auto.
Qed.

Lemma registerParentProcessed_OK k v :
  v_id (registerParentProcessed v) = v_id v
  /\ forall b, onBranch (registerParentProcessed v) = Some b -> onBranch v = Some b \/ b < k.
Proof. simpl. split; auto. Qed.

Lemma addToBranch_OK k branch x v :
  branch < k ->
  v_id (addToBranch branch x v) = v_id v
  /\ forall b, onBranch (addToBranch branch x v) = Some b -> onBranch v = Some b \/ b < k.
Proof.
  intros Hk. unfold addToBranch. destruct (onBranch v) eqn:E; simpl.
  - split; [done|]. intros b Hb. left. congruence.
  - split; [done|]. intros b [= <-]. by right.
Qed.

Lemma normalScan_OK n k rows i vertex parentVertex lastPoint branch lines vs :
  vertsOK k vs -> length vs = n -> branch < k -> i + rows <= n ->
  S (py lastPoint) = i -> Forall (lineOK n) lines ->
  vertsOK k (sr_vertices (normalScan rows i vertex parentVertex lastPoint branch lines vs))
  /\ Forall (lineOK n)
            (sr_lines (normalScan rows i vertex parentVertex lastPoint branch lines vs))
  /\ sr_i (normalScan rows i vertex parentVertex lastPoint branch lines vs) <= i + rows.
Proof.
  revert i vertex parentVertex lastPoint lines vs.
  induction rows as [|rows IH]; intros i vertex parentVertex lastPoint lines vs
    Hvs Hlen Hbranch Hrows Hlast Hlines.
  - simpl. split; [done|]. split; [done|lia].
  - cbn [normalScan].
    set (curPoint := if sameVertex parentVertex (Some (Real i)) && _ then _ else _).
    assert (py curPoint = i) as Hcur.
    { unfold curPoint. destruct (_ && _); simpl; apply (vertsOK_id k); [done|lia|done|lia]. }
    set (lines1 := lines ++ [_]).
    assert (Forall (lineOK n) lines1) as Hlines1.
    { apply Forall_app. split; [done|]. apply Forall_singleton.
      unfold lineOK. simpl. rewrite Hcur. split; [lia|lia]. }
    set (vs1 := alter (registerUnavailablePoint _ _ _) i vs).
    assert (vertsOK k vs1) as H1.
    { apply vertsOK_alter; [done|]. intros v. apply registerUnavailablePoint_OK. }
    assert (length vs1 = n) as Hlen1 by (unfold vs1; by rewrite length_alter).
    destruct (sameVertex parentVertex (Some (Real i))).
    + set (vs2 := alter registerParentProcessed vertex vs1).
      set (vs3 := alter (addToBranch branch (px curPoint)) i vs2).
      assert (vertsOK k vs3) as H3.
      { apply vertsOK_alter; [|intros v; by apply addToBranch_OK].
        apply vertsOK_alter; [done|]. intros v. apply registerParentProcessed_OK. }
      assert (length vs3 = n) as Hlen3 by (unfold vs3, vs2; by rewrite !length_alter).
      destruct (_ || _); simpl.
      * split; [done|]. split; [done|lia].
      * destruct (IH (S i) i (getNextParent (vs3 !!! i)) curPoint lines1 vs3)
          as (Ha & Hb & Hc); try done; try lia.
        split; [done|]. split; [done|lia].
    + destruct (IH (S i) vertex parentVertex curPoint lines1 vs1)
        as (Ha & Hb & Hc); try done; try lia.
      split; [done|]. split; [done|lia].
Qed.

Lemma addLine_OK n a b committed locked br :
  branchOK n br -> py b = S (py a) -> py b < n ->
  branchOK n (addLine a b committed locked br).
Proof.
  intros [Hend Hlines] Hab Hb. split; [done|]. simpl.
  apply Forall_app. split; [done|]. by apply Forall_singleton.
Qed.

Lemma mergeScan_OK n k rows i startAt parentRow parentBranch lastPoint vs brs :
  vertsOK k vs -> length vs = n -> i + rows <= n -> S (py lastPoint) = i ->
  Forall (branchOK n) brs ->
  vertsOK k (fst (mergeScan rows i startAt parentRow parentBranch lastPoint vs brs))
  /\ Forall (branchOK n)
            (snd (mergeScan rows i startAt parentRow parentBranch lastPoint vs brs))
  /\ length (snd (mergeScan rows i startAt parentRow parentBranch lastPoint vs brs))
     = length brs.
Proof.
  revert i lastPoint vs brs.
  induction rows as [|rows IH]; intros i lastPoint vs brs Hvs Hlen Hrows Hlast Hbrs;
    [done|].
  cbn [mergeScan].
  assert (v_id (vs !!! i) = i) as Hid by (apply (vertsOK_id k); [done|lia]).
  assert (forall pt found,
            match getPointConnectingTo (vs !!! i) (Some (Real parentRow)) parentBranch with
            | Some pt => (pt, true)
            | None => if i =? parentRow then (getPoint (vs !!! i), true)
                      else (getNextPoint (vs !!! i), false)
            end = (pt, found) -> py pt = i) as Hpy.
  { intros pt found. unfold getPointConnectingTo.
    destruct (findConnection _ _ _ _); [by intros [= <- _]|].
    destruct (i =? parentRow); by intros [= <- _]. }
  destruct (match getPointConnectingTo (vs !!! i) (Some (Real parentRow)) parentBranch with
            | Some pt => (pt, true)
            | None => if i =? parentRow then (getPoint (vs !!! i), true)
                      else (getNextPoint (vs !!! i), false)
            end) as [curPoint found].
  specialize (Hpy curPoint found eq_refl).
  set (brs1 := alter (addLine lastPoint curPoint _ _) parentBranch brs).
  assert (Forall (branchOK n) brs1) as Hbrs1.
  { apply Forall_alter; [done|]. intros br _ Hbr. apply addLine_OK; [done|lia|lia]. }
  assert (length brs1 = length brs) as Hlen1 by (unfold brs1; by rewrite length_alter).
  set (vs1 := alter (registerUnavailablePoint _ _ _) i vs).
  assert (vertsOK k vs1) as H1.
  { apply vertsOK_alter; [done|]. intros v. apply registerUnavailablePoint_OK. }
  destruct found; simpl.
  - split; [|done]. apply vertsOK_alter; [done|]. intros v. apply registerParentProcessed_OK.
  - destruct (IH (S i) curPoint vs1 brs1) as (Ha & Hb & Hc); try done; try lia.
    + unfold vs1. by rewrite length_alter.
    + split; [done|]. split; [done|congruence].
Qed.

Lemma determinePath_layoutOK startAt st :
  startAt < length (vertices st) -> layoutOK st -> layoutOK (determinePath startAt st).
Proof.
  intros Hstart [Hvs Hbrs].
  pose proof (keepsBindings_length _ _ (determinePath_keeps startAt st)) as Hlen.
  unfold layoutOK. rewrite Hlen. revert Hlen. unfold determinePath.
  set (n := length (vertices st)) in *.
  set (lastPoint := if isNotOnBranch (vertices st !!! startAt)
                    then getNextPoint (vertices st !!! startAt)
                    else getPoint (vertices st !!! startAt)).
  assert (S (py lastPoint) = S startAt) as Hlast.
  { f_equal. unfold lastPoint.
    destruct (isNotOnBranch _); simpl; by apply (vertsOK_id _ _ _ Hvs). }
  destruct (mergeParent (vertices st) (vertices st !!! startAt)) as [parentRow|].
  - destruct (mergeScan_OK n (length (graphBranches st)) (n - S startAt) (S startAt) startAt
                parentRow (default 0 (onBranch (vertices st !!! parentRow))) lastPoint
                (vertices st) (graphBranches st)) as (Ha & Hb & Hc); try done; try lia.
    destruct (mergeScan _ _ _ _ _ _ _ _) as [vs' brs']. simpl in *.
    intros _. rewrite Hc. split; [exact Ha|exact Hb].
  - destruct (getAvailableColour startAt (availableColors st)) as [c colors1].
    cbn [vertices graphBranches].
    set (k := length (graphBranches st)) in *.
    set (vs1 := alter _ startAt (vertices st)).
    assert (vertsOK (S k) vs1) as H1.
    { apply vertsOK_alter; [by apply (vertsOK_mono k); [lia|]|]. intros v.
      destruct (addToBranch_OK (S k) k (px lastPoint) v) as [Hid Hb]; [lia|].
      destruct (registerUnavailablePoint_OK (S k) (px lastPoint) (Some (Real startAt)) k
                  (addToBranch k (px lastPoint) v)) as [Hid' Hb'].
      split; [congruence|]. intros b Hon. destruct (Hb' b Hon) as [?|?]; [|by right].
      by apply Hb. }
    destruct (normalScan_OK n (S k) (n - S startAt) (S startAt) startAt
                (getNextParent (vertices st !!! startAt)) lastPoint k [] vs1)
      as (Ha & Hb & Hc); try done; try lia.
    { unfold vs1. by rewrite length_alter. }
    set (r := normalScan _ _ _ _ _ _ _ vs1) in *.
    intros Hlen. rewrite length_app. simpl.
    replace (length (graphBranches st) + 1) with (S k) by (unfold k; lia). split.
    + destruct (_ && _); [|done].
      apply vertsOK_alter; [done|]. intros v. apply registerParentProcessed_OK.
    + apply Forall_app. split; [done|]. apply Forall_singleton.
      split; simpl; [lia|done].
Qed.

Lemma reachable_layoutOK vs0 st : vertsOK 0 vs0 -> reachable vs0 st -> layoutOK st.
Proof.
  intros H0. induction 1 as [|st i Hst IH Hi Hneeds].
  - split; [done|]. apply Forall_nil_2.
  - by apply determinePath_layoutOK.
Qed.

Lemma buildVertices_vertsOK commits dagNodes currentBranch :
  vertsOK 0 (buildVertices commits dagNodes currentBranch).
Proof.
  intros i v Hv.
  pose proof (buildVertices_same (fun v => (v_id v, onBranch v)) commits dagNodes
                currentBranch (fun _ _ => eq_refl) (fun _ _ => eq_refl) (fun _ => eq_refl))
    as Hsame.
  apply (f_equal (fun l => l !! i)) in Hsame. rewrite !list_lookup_fmap, Hv in Hsame.
  simpl in Hsame.
  destruct (seq 0 (length (sortByTime (nodeRows commits dagNodes))) !! i) as [j|] eqn:Hj;
    [|done].
  apply lookup_seq in Hj as [-> _]. injection Hsame as Hid Hon.
  split; [done|]. intros b Hb. congruence.
Qed.

Lemma runLayout_layoutOK fuel vs st :
  vertsOK 0 vs -> runLayout fuel vs = Some st -> layoutOK st /\ allBound (vertices st).
Proof.
  intros H0. unfold runLayout.
  destruct (outerScan fuel 0 (initLayout vs)) as [st1|] eqn:Hscan; [|done].
  destruct (outerScan_total_binding _ _ _ Hscan) as (Hbound & Hsweep & _).
  rewrite Hsweep. intros [= <-]. split; [|done].
  apply (reachable_layoutOK vs); [done|].
  eapply reachable_outerScan; [apply reach_init|exact Hscan].
Qed.

(** X18.  In every layout [buildGraphData] computes, each line of each
    branch joins a point of one row to a point of the next row, inside the
    rows of the graph; each branch ends within the rows; and each commit
    takes its colour from a branch of the list, the one it is bound to. *)
Theorem layoutGraph_geometry fuel commits dagNodes currentBranch layouts branches :
  layoutGraph fuel commits dagNodes currentBranch = Some (layouts, branches) ->
  Forall (fun br =>
            b_end br <= length layouts
            /\ Forall (fun l => py (p2 l) = S (py (p1 l)) /\ py (p2 l) < length layouts)
                      (b_lines br))
         branches
  /\ Forall (fun nl => exists br, br ∈ branches /\ nl_colorIndex nl = colorIndex br) layouts.
Proof.
  unfold layoutGraph.
  destruct (runLayout fuel (buildVertices commits dagNodes currentBranch)) as [st|] eqn:Hrun;
    [|done].
  intros [= <- <-].
  destruct (runLayout_layoutOK _ _ _ (buildVertices_vertsOK _ _ _) Hrun)
    as [[Hvs Hbrs] Hbound].
  rewrite length_map. split; [exact Hbrs|].
  apply Forall_map. apply Forall_forall. intros v Hv.
  apply list_elem_of_lookup in Hv as [i Hi].
  destruct (Hvs i v Hi) as [_ Hb].
  unfold allBound in Hbound. rewrite Forall_forall in Hbound.
  assert (isNotOnBranch v = false) as Hon.
  { apply Hbound. by eapply list_elem_of_lookup_2. }
  unfold isNotOnBranch in Hon. unfold nodeLayoutOf. simpl.
  destruct (onBranch v) as [b|]; [|done].
  destruct (lookup_lt_is_Some_2 (graphBranches st) b (Hb b eq_refl)) as [br Hbr].
  rewrite Hbr. exists br. split; [by eapply list_elem_of_lookup_2|done].
Qed.

Lemma layoutGraph_geometry_witness :
  Forall (fun br =>
            b_end br <= length (fst triangleLayout)
            /\ Forall (fun l => py (p2 l) = S (py (p1 l))
                                /\ py (p2 l) < length (fst triangleLayout))
                      (b_lines br))
         (snd triangleLayout)
  /\ Forall (fun nl => exists br, br ∈ snd triangleLayout /\ nl_colorIndex nl = colorIndex br)
            (fst triangleLayout).
Proof.
  apply (layoutGraph_geometry 9 linearLog triangleDag None). vm_compute. reflexivity.
Defined.

(** ** An incremental build over an empty range *)

Lemma newSet_NoDup_id xs : NoDup xs -> newSet xs = xs.
Proof. intros H. unfold newSet. by rewrite fold_set_add_fresh. Qed.

Lemma combineCommits_of_nodes (baseNodes : list DagNode) :
  NoDup (map n_hash baseNodes) ->
  Forall (fun n => n_hash n <> "" /\ NoDup (n_branches n)
                   /\ n_isMerge n = (2 <=? length (n_parents n))) baseNodes ->
  combineCommits [] baseNodes = map (fun n => (n_hash n, commitOfNode n)) baseNodes
  /\ map dagNodeOf (map_values (map (fun n => (n_hash n, commitOfNode n)) baseNodes))
     = baseNodes.
Proof.
  intros Hnd Hnodes.
  set (old := map (fun n => (n_hash n, commitOfNode n)) baseNodes).
  assert (map dagNodeOf (map_values old) = baseNodes) as Hback.
  { unfold old, map_values. rewrite !map_map. simpl.
    rewrite <- (map_id baseNodes) at 2. apply map_ext_Forall.
    eapply Forall_impl; [exact Hnodes|]. intros n (_ & _ & Hm).
    destruct n as [h ps bs t m]. unfold dagNodeOf, commitOfNode. simpl in *. by rewrite Hm. }
  split; [|exact Hback].
  unfold combineCommits. change (copyCommits []) with ([] : JsMap CommitNodeInfo).
  rewrite <- Hback at 1.
  rewrite (fold_addBaseNode_fresh old []); [done| | |].
  - simpl. unfold old, map_keys. rewrite map_map. simpl. exact Hnd.
  - unfold keyedByHash, old. apply Forall_map. by apply Forall_forall.
  - unfold branchesAreSets, old. apply Forall_map.
    eapply Forall_impl; [exact Hnodes|]. intros n (_ & Hbr & _). simpl.
    by apply newSet_NoDup_id.
Qed.

(** X19.  An incremental build whose range log holds no commit gives the
    nodes of the base snapshot back unchanged, with the same links, and
    takes the branches from the current branch summary; this needs the
    base snapshot to be well formed and within the commit limit. *)
Theorem incremental_empty_range_keeps_nodes limit clock recorded git baseGraph
    baseHash headHash dag branchSummary logOutput :
  wellFormedSnapshot baseGraph ->
  g_dag baseGraph = Some dag ->
  length (nodes dag) <= limit ->
  git_logRange git baseHash headHash = Some logOutput ->
  parseGitLogToCommitMap clock logOutput = [] ->
  git_branch git = Some branchSummary ->
  exists graph dag',
    buildBranchGraphIncrementally limit clock recorded git baseGraph baseHash headHash
      = Returned (Some graph)
    /\ g_dag graph = Some dag'
    /\ nodes dag' = nodes dag
    /\ (forall l, l ∈ links dag' <-> l ∈ links dag)
    /\ g_branches graph = localBranches branchSummary.
Proof.
  intros Hwf Hdag Hlimit Hrange Hparse Hbranch.
  destruct (buildBranchGraphIncrementally limit clock recorded git baseGraph baseHash
              headHash) as [[graph|]|] eqn:Hbuild.
  2,3: unfold buildBranchGraphIncrementally in Hbuild;
       rewrite Hdag, Hrange, Hbranch in Hbuild;
       by destruct (map_size _ =? 0).
  pose proof (incremental_wellFormed _ _ _ _ _ _ _ _ Hwf Hbuild)
    as ((dag' & Hdag' & Hwf') & _).
  destruct Hwf as ((dag0 & Hdag0 & Hwf0) & _).
  rewrite Hdag in Hdag0. injection Hdag0 as <-.
  destruct Hwf0 as (Hnd & Hnodes & Hlinks).
  destruct (combineCommits_of_nodes (nodes dag) Hnd Hnodes) as [Hcombined Hback].
  assert (nodes dag' = nodes dag /\ g_branches graph = localBranches branchSummary)
    as [Hsame Hbr].
  { unfold buildBranchGraphIncrementally in Hbuild.
    rewrite Hdag, Hrange, Hbranch, Hparse, Hcombined in Hbuild.
    destruct (map_size _ =? 0).
    - injection Hbuild as <-. simpl in Hdag'. rewrite ?Hdag in Hdag'.
      by injection Hdag' as <-.
    - rewrite enforceCommitLimit_small in Hbuild
        by (unfold map_size; by rewrite length_map).
      injection Hbuild as <-. simpl in Hdag'. injection Hdag' as <-. simpl.
      by rewrite Hback. }
  exists graph, dag'. split; [done|]. split; [done|]. split; [done|]. split; [|done].
  intros l. destruct Hwf' as (_ & _ & Hlinks'). rewrite Hlinks', Hlinks, Hsame. done.
Qed.

Lemma incremental_empty_range_keeps_nodes_witness :
  exists graph dag',
    buildBranchGraphIncrementally 800 noClock None gitEmptyRange baseSnapshot "c1" "c2"
      = Returned (Some graph)
    /\ g_dag graph = Some dag'
    /\ nodes dag'
       = [ {| n_hash := "c1"; n_parents := []; n_branches := [];
              n_timestamp := Num 100000; n_isMerge := false |} ]
    /\ (forall l, l ∈ links dag' <-> l ∈ [])
    /\ g_branches graph = ["main"].
Proof.
  apply (incremental_empty_range_keeps_nodes 800 noClock None gitEmptyRange baseSnapshot
           "c1" "c2" {| nodes := [ {| n_hash := "c1"; n_parents := []; n_branches := [];
                                      n_timestamp := Num 100000; n_isMerge := false |} ];
                        links := [] |}
           {| bs_all := ["main"; "remotes/origin/main"]; bs_current := "main" |} "").
  - split; [|split; [|split]].
    + eexists. split; [reflexivity|]. split; [|split].
      * apply (bool_decide_unpack _). vm_compute. exact I.
      * apply Forall_singleton. split; [done|]. split; [apply NoDup_nil_2|reflexivity].
      * intros l. simpl. split; [by intros H%elem_of_nil|].
        intros (n & Hn & _ & Hsrc). apply list_elem_of_singleton in Hn as ->.
        simpl in Hsrc. by apply elem_of_nil in Hsrc.
    + apply Forall_singleton. reflexivity.
    + apply Forall_nil_2.
    + apply NoDup_nil_2.
  - reflexivity.
  - simpl. lia.
  - reflexivity.
  - reflexivity.
  - reflexivity.
Defined.

(* ================================================================== *)
(** * Tags *)
(* ================================================================== *)

(** ** [getRemoteTags] *)

Lemma matchTagRef_Some s name :
  matchTagRef s = Some name -> truthy name = true /\ noLineTerminator name = true.
Proof.
  induction s as [|c s IH]; [done|]. cbn [matchTagRef].
  destruct (startsWith "refs/tags/" (String c s)); cbn [andb]; [|exact IH].
  destruct (truthy (dropChars 10 (String c s))) eqn:Et; cbn [andb]; [|exact IH].
  destruct (noLineTerminator (dropChars 10 (String c s))) eqn:En; [|exact IH].
  by intros [= <-].
Qed.

Lemma tagOfLine_Some line name commit :
  tagOfLine line = Some (name, commit) ->
  name <> "" /\ commit <> "" /\ noLineTerminator name = true.
Proof.
  unfold tagOfLine. destruct (splitChar TAB (trim line)) as [|hash [|ref rest]]; [done|done|].
  destruct (truthy hash) eqn:Eh; [|done].
  destruct (truthy ref); [|done]. cbn [negb orb].
  destruct (matchTagRef _) as [tagName|] eqn:Em; [|done].
  intros [= <- <-]. apply matchTagRef_Some in Em as [Hn Ht].
  split; [by apply truthy_nonempty|]. split; [by apply truthy_nonempty|done].
Qed.

Lemma remoteTagStep_NoDup tagsMap line :
  NoDup (map_keys tagsMap) -> NoDup (map_keys (remoteTagStep tagsMap line)).
Proof.
  intros Hnd. unfold remoteTagStep. destruct (tagOfLine line) as [[n h]|]; [|done].
  destruct (map_has tagsMap n); [done|]. by apply map_set_NoDup.
Qed.

Lemma fold_remoteTagStep_NoDup lines tagsMap :
  NoDup (map_keys tagsMap) -> NoDup (map_keys (fold_left remoteTagStep lines tagsMap)).
Proof.
  revert tagsMap. induction lines as [|line lines IH]; intros tagsMap Hnd; simpl; [done|].
  by apply IH, remoteTagStep_NoDup.
Qed.

Lemma map_has_true_iff {V} (m : JsMap V) k : map_has m k = true <-> k ∈ map_keys m.
Proof.
  unfold map_has. rewrite map_keys_elem_of_get.
  destruct (map_get m k) as [v|]; split; try done; [by exists v|by intros [v [=]]].
Qed.

Lemma fold_remoteTagStep_spec lines tagsMap name commit :
  (name, commit) ∈ fold_left remoteTagStep lines tagsMap
  <-> (name, commit) ∈ tagsMap
      \/ ((name ∉ map_keys tagsMap)
          /\ exists before line after,
               lines = before ++ line :: after
               /\ tagOfLine line = Some (name, commit)
               /\ forall l, l ∈ before -> (fst <$> tagOfLine l) <> Some name).
Proof.
  revert tagsMap. induction lines as [|line0 lines IH]; intros tagsMap.
  - simpl. split; [by left|]. intros [H|(_ & before & line & after & H & _)]; [done|].
    by destruct before.
  - cbn [fold_left]. rewrite IH. clear IH.
    assert (forall P : Prop,
              ((fst <$> tagOfLine line0) <> Some name) ->
              ((exists before line after,
                  lines = before ++ line :: after
                  /\ tagOfLine line = Some (name, commit)
                  /\ forall l, l ∈ before -> (fst <$> tagOfLine l) <> Some name)
               <-> (exists before line after,
                      line0 :: lines = before ++ line :: after
                      /\ tagOfLine line = Some (name, commit)
                      /\ forall l, l ∈ before -> (fst <$> tagOfLine l) <> Some name))) as Hskip.
    { intros _ Hline0. split.
      - intros (before & line & after & -> & Hl & Hb).
        exists (line0 :: before), line, after. split; [done|]. split; [done|].
        intros l Hin. apply elem_of_cons in Hin as [->|Hin]; [done|by apply Hb].
      - intros (before & line & after & Heq & Hl & Hb).
        destruct before as [|l0 before]; simpl in Heq; injection Heq as <- ->.
        + rewrite Hl in Hline0. done.
        + exists before, line, after. split; [done|]. split; [done|].
          intros l Hin. apply Hb. by right. }
    unfold remoteTagStep.
    destruct (tagOfLine line0) as [[n0 h0]|] eqn:E0.
    2:{ rewrite (Hskip True); done. }
    destruct (map_has tagsMap n0) eqn:Ehas.
    + apply map_has_true_iff in Ehas.
      split; (intros [H|[Hnin H]]; [by left|right; split; [done|]]).
      * apply (Hskip True); [|done]. simpl. intros [= ->]. done.
      * apply (Hskip True) in H; [done|]. simpl. intros [= ->]. done.
    + assert (n0 ∉ map_keys tagsMap) as Hn0.
      { intros Hin. apply map_has_true_iff in Hin. congruence. }
      rewrite map_set_fresh by done. unfold map_keys. rewrite map_app.
      fold (map_keys tagsMap). simpl. split.
      * intros [H|[Hnin H]].
        -- apply elem_of_app in H as [H|H]; [by left|].
           apply list_elem_of_singleton in H as [= -> ->]. right. split; [done|].
           exists [], line0, lines. split; [done|]. split; [done|].
           intros l Hl. by apply elem_of_nil in Hl.
        -- apply not_elem_of_app in Hnin as [Hnin Hne]. right. split; [done|].
           apply (Hskip True); [|done]. simpl. intros [= ->]. apply Hne. left.
      * intros [H|[Hnin H]].
        -- left. apply elem_of_app. by left.
        -- destruct (decide (n0 = name)) as [->|Hne].
           ++ left. apply elem_of_app. right. apply list_elem_of_singleton.
              destruct H as (before & line & after & Heq & Hl & Hb).
              destruct before as [|l0 before]; simpl in Heq; injection Heq as <- ->.
              ** rewrite E0 in Hl. by injection Hl as <-.
              ** exfalso. apply (Hb line0); [left|]. by rewrite E0.
           ++ right. split.
              ** apply not_elem_of_app. split; [done|].
                 intros Hin. apply list_elem_of_singleton in Hin. congruence.
              ** apply (Hskip True) in H; [done|]. simpl. congruence.
Qed.

(** X20.  [getRemoteTags] lists every tag name once, with non-empty name
    and hash, and the first line wins: a pair is listed exactly when some
    line of the output stands for it and no earlier line stands for the
    same name.  So the peeled [^{}] line that follows the line of an
    annotated tag never replaces the hash of the tag object. *)
Theorem getRemoteTags_first_wins (output : string) :
  NoDup (map fst (getRemoteTags (Some output)))
  /\ (forall name commit, (name, commit) ∈ getRemoteTags (Some output) ->
        name <> "" /\ commit <> "" /\ noLineTerminator name = true)
  /\ (forall name commit,
        (name, commit) ∈ getRemoteTags (Some output)
        <-> exists before line after,
              splitChar LF (trim output) = before ++ line :: after
              /\ tagOfLine line = Some (name, commit)
              /\ forall l, l ∈ before -> (fst <$> tagOfLine l) <> Some name).
Proof.
  assert (forall name commit,
            (name, commit) ∈ getRemoteTags (Some output)
            <-> exists before line after,
                  splitChar LF (trim output) = before ++ line :: after
                  /\ tagOfLine line = Some (name, commit)
                  /\ forall l, l ∈ before -> (fst <$> tagOfLine l) <> Some name) as Hspec.
  { intros name commit. unfold getRemoteTags.
    destruct (negb (truthy output) || negb (truthy (trim output))) eqn:Eguard.
    - assert (trim output = "") as ->.
      { destruct output as [|c output]; [done|]. simpl in Eguard.
        destruct (trim (String c output)); [done|discriminate]. }
      split; [by intros H%elem_of_nil|].
      intros (before & line & after & Heq & Hl & _). exfalso.
      destruct before as [|l0 [|l1 before]]; simpl in Heq; [|done|done].
      injection Heq as <- _. done.
    - rewrite fold_remoteTagStep_spec. split.
      + intros [H%elem_of_nil|[_ H]]; done.
      + intros H. right. split; [apply not_elem_of_nil|done]. }
  split; [|split; [|exact Hspec]].
  - unfold getRemoteTags. destruct (_ || _); [apply NoDup_nil_2|].
    apply fold_remoteTagStep_NoDup, NoDup_nil_2.
  - intros name commit H. apply Hspec in H as (_ & line & _ & _ & Hl & _).
    by apply tagOfLine_Some in Hl.
Qed.

Example annotated_tag_keeps_tag_object :
  getRemoteTags (Some annotatedTagLines) = [("v1", "1111")].
Proof. vm_compute. reflexivity. Qed.

(** ** [getTags] *)

Lemma splitChar_piece sep piece rest :
  hasChar sep piece = false ->
  splitChar sep (String.append piece (String sep rest)) = piece :: splitChar sep rest.
Proof.
  induction piece as [|c piece IH]; simpl; intros Hno.
  - by rewrite Ascii.eqb_refl.
  - apply orb_false_iff in Hno as [Hc Hno]. rewrite Hc, IH by done. done.
Qed.

Lemma splitChar_joinPipe pieces :
  pieces <> [] -> Forall (fun p => hasChar PIPE p = false) pieces ->
  splitChar PIPE (joinPipe pieces) = pieces.
Proof.
  intros Hne Hall. unfold joinPipe.
  induction Hall as [|p pieces Hp Hall IH]; [done|].
  destruct pieces as [|q pieces].
  - simpl. by apply splitChar_single.
  - change (String.concat (String PIPE "") (p :: q :: pieces))
      with (String.append p (String PIPE (String.concat (String PIPE "") (q :: pieces)))).
    rewrite splitChar_piece by done. f_equal. by apply IH.
Qed.

(** X21.  [getTags] reads the first five [|]-separated pieces of a line:
    for pieces that hold no [|] themselves, the tag has the trimmed first
    and second piece as name and hash, the trimmed fourth piece as message
    when the third is [tag] and the message is not empty, and the trimmed
    fifth piece as date when it is not empty.  So a subject that contains
    [|] is cut there, and its next piece is taken for the date. *)
Theorem tagOfRefLine_pieces (pieces : list string) :
  pieces <> [] ->
  Forall (fun p => hasChar PIPE p = false) pieces ->
  tagOfRefLine (joinPipe pieces)
  = {| tag_name := trim (nth 0 pieces "");
       tag_commit := trim (nth 1 pieces "");
       tag_message :=
         if String.eqb (trim (nth 2 pieces "")) "tag" && truthy (trim (nth 3 pieces ""))
         then Some (trim (nth 3 pieces "")) else None;
       tag_date :=
         if truthy (trim (nth 4 pieces "")) then Some (trim (nth 4 pieces "")) else None |}.
Proof.
  intros Hne Hall. unfold tagOfRefLine. rewrite splitChar_joinPipe by done.
  destruct pieces as [|p0 [|p1 [|p2 [|p3 [|p4 rest]]]]]; try done; simpl;
    by rewrite ?andb_false_r.
Qed.

Lemma tagOfRefLine_pieces_witness :
  tagOfRefLine (joinPipe ["v1"; "abc"; "tag"; "fix a "; " b"; "2024-01-01"])
  = {| tag_name := "v1"; tag_commit := "abc"; tag_message := Some "fix a";
       tag_date := Some "b" |}.
Proof.
  apply (tagOfRefLine_pieces ["v1"; "abc"; "tag"; "fix a "; " b"; "2024-01-01"]).
  - discriminate.
  - apply (bool_decide_unpack _). vm_compute. exact I.
Defined.

(** X22.  A failed git call gives the empty list.  Every tag [getTags]
    returns has a non-empty name and a non-empty hash, a message that is
    never the empty string and a date that is never the empty string.  On
    an output of git the tags are those of the non-blank lines of the
    trimmed output, every one of them, in the order of the lines and one per
    line, less the tags without a name or a hash; an empty or blank output
    is no exception to this and gives no tag. *)
Theorem getTags_fields (raw : option string) (output : string) :
  getTags None = []
  /\ Forall (fun tag => tag_name tag <> "" /\ tag_commit tag <> ""
                        /\ tag_message tag <> Some "" /\ tag_date tag <> Some "")
            (getTags raw)
  /\ getTags (Some output)
     = List.filter (fun tag => truthy (tag_name tag) && truthy (tag_commit tag))
         (map tagOfRefLine
            (List.filter (fun line => truthy (trim line)) (splitChar LF (trim output))))
  /\ (truthy (trim output) = false -> getTags (Some output) = []).
Proof.
  split; [reflexivity|]. split.
  - apply Forall_forall. intros tag Hin. unfold getTags in Hin.
    destruct raw as [tagsOutput|]; [|by apply elem_of_nil in Hin].
    destruct (_ || _); [by apply elem_of_nil in Hin|].
    apply elem_of_List_filter in Hin as [Hin Hok].
    apply andb_true_iff in Hok as [Hn Hc].
    split; [by apply truthy_nonempty|]. split; [by apply truthy_nonempty|].
    apply list_elem_of_fmap in Hin as (line & -> & _). unfold tagOfRefLine. simpl.
    split.
    + destruct (splitChar PIPE line !! 3) as [m|]; simpl; [|done].
      destruct (String.eqb _ "tag"); simpl; [|done].
      destruct (truthy (trim m)) eqn:E; [|done]. intros [= Hm]. by rewrite Hm in E.
    + destruct (splitChar PIPE line !! 4) as [d|]; [|done].
      destruct (truthy (trim d)) eqn:E; [|done]. intros [= Hd]. by rewrite Hd in E.
  - assert (truthy (trim output) = false -> getTags (Some output) = []) as Hblank.
    { intros Hb. unfold getTags. rewrite Hb. by rewrite orb_true_r. }
    split; [|exact Hblank].
    destruct (truthy (trim output)) eqn:Ht.
    + unfold getTags. rewrite Ht.
      destruct output as [|c output]; [done|]. reflexivity.
    + rewrite Hblank by done.
      destruct (trim output) as [|c t]; [reflexivity|done].
Qed.

Lemma getTags_fields_witness :
  getTags (Some (String LF "  ")) = []
  /\ getTags (Some "v1|abc|tag|first|2024-01-01")
     = [ {| tag_name := "v1"; tag_commit := "abc"; tag_message := Some "first";
            tag_date := Some "2024-01-01" |} ].
Proof.
  destruct (getTags_fields None (String LF "  ")) as (_ & _ & _ & Hblank).
  split; [apply Hblank; reflexivity|].
  destruct (getTags_fields None "v1|abc|tag|first|2024-01-01") as (_ & _ & Hlines & _).
  rewrite Hlines. vm_compute. reflexivity.
Defined.

(** ** The colours are handed out without gaps *)

Lemma branchSpans_colour brs brs' br :
  branchSpans brs' = branchSpans brs -> br ∈ brs ->
  exists br', br' ∈ brs' /\ colorIndex br' = colorIndex br.
Proof.
  intros Hsp Hin.
  assert ((colorIndex br, b_end br) ∈ branchSpans brs') as H.
  { rewrite Hsp. unfold branchSpans. apply list_elem_of_fmap. by exists br. }
  unfold branchSpans in H. apply list_elem_of_fmap in H as (br' & [= Hc _] & Hin').
  by exists br'.
Qed.

Lemma determinePath_coloursUsed startAt st :
  coloursUsed st -> coloursUsed (determinePath startAt st).
Proof.
  intros Hused j Hj.
  destruct (mergeParent (vertices st) (vertices st !!! startAt)) as [parentRow|] eqn:Hm.
  - destruct (determinePath_merge _ _ _ Hm) as [Hsp Hcol]. rewrite Hcol in Hj.
    destruct (Hused j Hj) as (br & Hin & Hc).
    destruct (branchSpans_colour _ _ br Hsp Hin) as (br' & Hin' & Hc').
    exists br'. split; [done|congruence].
  - destruct (determinePath_normal _ _ Hm) as (c & colors1 & b & Hget & Hbrs & Hc & _ & Hcol).
    rewrite Hcol, length_insert in Hj. rewrite Hbrs.
    apply getAvailableColour_firstFit in Hget as [(e & _ & _ & _ & ->)|(Hlen & _ & ->)].
    + destruct (Hused j Hj) as (br & Hin & Hbr). exists br.
      split; [apply elem_of_app; by left|done].
    + rewrite length_app in Hj. simpl in Hj.
      destruct (decide (j < length (availableColors st))) as [Hlt|Hge].
      * destruct (Hused j Hlt) as (br & Hin & Hbr). exists br.
        split; [apply elem_of_app; by left|done].
      * exists b. split; [apply elem_of_app; right; apply list_elem_of_singleton; done|].
        lia.
Qed.

Lemma reachable_coloursUsed vs0 st : reachable vs0 st -> coloursUsed st.
Proof.
  induction 1 as [|st i Hst IH Hi Hneeds].
  - intros j Hj. simpl in Hj. lia.
  - by apply determinePath_coloursUsed.
Qed.

(** X23.  The layout hands the colours out without gaps: when a branch
    of the computed layout has colour [c], every smaller colour index is
    the colour of some branch of the layout too. *)
Theorem layoutGraph_colours_dense fuel commits dagNodes currentBranch layouts branches
    br c :
  layoutGraph fuel commits dagNodes currentBranch = Some (layouts, branches) ->
  br ∈ branches -> c < colorIndex br ->
  exists br', br' ∈ branches /\ colorIndex br' = c.
Proof.
  unfold layoutGraph.
  destruct (runLayout fuel (buildVertices commits dagNodes currentBranch)) as [st|] eqn:Hrun;
    [|done].
  intros [= <- <-] Hin Hc. revert Hrun. unfold runLayout.
  destruct (outerScan fuel 0 (initLayout _)) as [st1|] eqn:Hscan; [|done].
  destruct (outerScan_total_binding _ _ _ Hscan) as (_ & Hsweep & _).
  rewrite Hsweep. intros [= <-].
  pose proof (reachable_outerScan _ _ _ _ _ (reach_init _) Hscan) as Hreach.
  pose proof (reachable_coloursCover _ _ Hreach) as Hcover.
  unfold coloursCover in Hcover. rewrite Forall_forall in Hcover.
  destruct (Hcover br Hin) as (e & He & _). apply lookup_lt_Some in He.
  apply (reachable_coloursUsed _ _ Hreach). lia.
Qed.

Lemma layoutGraph_colours_dense_witness :
  exists br', br' ∈ snd forkLayout /\ colorIndex br' = 0.
Proof.
  apply (layoutGraph_colours_dense 20 linearLog forkDag None (fst forkLayout)
           (snd forkLayout) (nth 1 (snd forkLayout) (mkBranch 0 0 []))).
  - vm_compute. reflexivity.
  - vm_compute. apply list_elem_of_In. right. left. reflexivity.
  - vm_compute. lia.
Defined.

(** ** The commit index agrees with the layout *)

Lemma indexCommits_get hashes i0 m h :
  NoDup hashes ->
  map_get (indexCommits i0 hashes m) h
  = match indexOfHash hashes i0 h with
    | Some i => Some i
    | None => map_get m h
    end.
Proof.
  revert i0 m. induction hashes as [|h0 hashes IH]; intros i0 m Hnd; [done|].
  apply NoDup_cons in Hnd as [Hh0 Hnd]. cbn [indexCommits indexOfHash].
  rewrite IH by done. destruct (String.eqb_spec h0 h) as [->|Hne].
  - rewrite indexOfHash_notin by done. apply map_get_set_eq.
  - destruct (indexOfHash hashes (S i0) h); [done|]. by apply map_get_set_ne.
Qed.

(** X24.  The commit index of the view, a [Map] filled from the rows
    once the layout is done, against the layout, which resolves hashes
    through a plain object: the hash of row
    [i] has the index [i], whatever the hash, and a hash no row carries has
    the index [-1].  For every hash other than [__proto__] the two agree: a
    hash the layout resolved to the vertex of a row has that row as its
    index, and one it resolved to the sentinel has the index [-1].  They
    part on [__proto__] alone: a row with that hash has its row as index
    while the layout resolves the hash to the sentinel. *)
Theorem getCommitIndex_agrees_with_layout commits dagNodes (h : string) :
  let hashes := map fst (sortByTime (nodeRows commits dagNodes)) in
  (forall i, hashes !! i = Some h ->
     getCommitIndex (commitIndexMapOf hashes) h = Z.of_nat i)
  /\ (h ∉ hashes -> getCommitIndex (commitIndexMapOf hashes) h = (-1)%Z)
  /\ (h <> PROTO_KEY ->
      getCommitIndex (commitIndexMapOf hashes) h
      = match resolveParent hashes h with
        | Real row => Z.of_nat row
        | Sentinel => (-1)%Z
        end)
  /\ (forall i, hashes !! i = Some PROTO_KEY ->
       getCommitIndex (commitIndexMapOf hashes) PROTO_KEY = Z.of_nat i
       /\ resolveParent hashes PROTO_KEY = Sentinel).
Proof.
  intros hashes.
  assert (NoDup hashes) as Hnd by apply sortedRows_NoDup.
  assert (forall h' i, hashes !! i = Some h' ->
            getCommitIndex (commitIndexMapOf hashes) h' = Z.of_nat i) as Hrow.
  { intros h' i Hi. unfold getCommitIndex, commitIndexMapOf.
    rewrite indexCommits_get by done.
    by rewrite (indexOfHash_NoDup hashes 0 h' i Hnd Hi). }
  split; [apply Hrow|]. split; [|split].
  - intros Hnin. unfold getCommitIndex, commitIndexMapOf.
    rewrite indexCommits_get by done. by rewrite indexOfHash_notin.
  - intros Hne. unfold getCommitIndex, commitIndexMapOf, resolveParent.
    rewrite indexCommits_get by done. rewrite commitLookup_plain by done.
    by destruct (indexOfHash hashes 0 h).
  - intros i Hi. split; [by apply Hrow|reflexivity].
Qed.

Lemma getCommitIndex_agrees_with_layout_witness :
  let hashes := map fst (sortByTime (nodeRows linearLog protoDag)) in
  hashes !! 1 = Some PROTO_KEY
  /\ getCommitIndex (commitIndexMapOf hashes) PROTO_KEY = 1%Z
  /\ resolveParent hashes PROTO_KEY = Sentinel.
Proof.
  split; [reflexivity|].
  destruct (getCommitIndex_agrees_with_layout linearLog protoDag PROTO_KEY)
    as (_ & _ & _ & Hproto).
  apply (Hproto 1). reflexivity.
Defined.

(* ================================================================== *)
(** * The recorded merge history *)
(* ================================================================== *)

Lemma hasMerge_false_pair merges e :
  hasMerge merges (m_from e) (m_to e) = false -> pairOf e ∉ map pairOf merges.
Proof.
  rewrite hasMerge_pairs. intros Hno Hin.
  assert (existsb (fun p => pair_eqb p (m_from e, m_to e)) (map pairOf merges) = true)
    as Hex; [|congruence].
  apply existsb_exists. exists (pairOf e).
  split; [by apply list_elem_of_In|]. by apply pair_eqb_eq.
Qed.

Lemma fold_historyStep_appends allBranches items acc :
  exists added,
    fold_left (historyStep allBranches) items acc = acc ++ added
    /\ Forall (fun e => e ∈ items /\ m_type e = ThreeWay
                        /\ m_from e ∈ allBranches /\ m_to e ∈ allBranches
                        /\ pairOf e ∉ map pairOf acc) added.
Proof.
  revert acc. induction items as [|item items IH]; intros acc.
  - exists []. split; [by rewrite app_nil_r|apply Forall_nil_2].
  - cbn [fold_left].
    assert (forall added,
              Forall (fun e => e ∈ items /\ m_type e = ThreeWay
                               /\ m_from e ∈ allBranches /\ m_to e ∈ allBranches
                               /\ pairOf e ∉ map pairOf acc) added ->
              Forall (fun e => e ∈ item :: items /\ m_type e = ThreeWay
                               /\ m_from e ∈ allBranches /\ m_to e ∈ allBranches
                               /\ pairOf e ∉ map pairOf acc) added) as Hweaken.
    { intros added H. eapply Forall_impl; [exact H|]. intros e (? & ? & ? & ? & ?).
      split; [by right|done]. }
    unfold historyStep at 2.
    destruct (MergeType_eqb (m_type item) ThreeWay) eqn:Etype; cbn [negb].
    2:{ destruct (IH acc) as (added & -> & Hadded). exists added. split; [done|].
        by apply Hweaken. }
    destruct (set_has allBranches (m_from item)) eqn:Efrom; cbn [negb orb].
    2:{ destruct (IH acc) as (added & -> & Hadded). exists added. split; [done|].
        by apply Hweaken. }
    destruct (set_has allBranches (m_to item)) eqn:Eto; cbn [negb].
    2:{ destruct (IH acc) as (added & -> & Hadded). exists added. split; [done|].
        by apply Hweaken. }
    destruct (hasMerge acc (m_from item) (m_to item)) eqn:Ehas.
    { destruct (IH acc) as (added & -> & Hadded). exists added. split; [done|].
      by apply Hweaken. }
    destruct (IH (acc ++ [item])) as (added & -> & Hadded).
    exists (item :: added). split; [by rewrite <- app_assoc|].
    apply Forall_cons. split.
    + split; [left|]. split; [by destruct (m_type item)|].
      split; [by apply set_has_elem_of|]. split; [by apply set_has_elem_of|].
      by apply hasMerge_false_pair.
    + eapply Forall_impl; [exact Hadded|]. intros e (? & ? & ? & ? & Hnin).
      split; [by right|]. split; [done|]. split; [done|]. split; [done|].
      intros Hin. apply Hnin. rewrite map_app. apply elem_of_app. by left.
Qed.

(** X25.  The merges of a snapshot are the merges inferred from the
    commit map, all of them and in their order, followed by recorded
    merges only: each of these is a three-way entry of the merge history
    between two local branches, for a (from, to) pair that no inferred
    merge has.  So the history never replaces an inferred merge, and
    without a readable history the merges are the inferred ones. *)
Theorem snapshot_merges_inferred_then_recorded recorded commits branchSummary :
  let currentBranch :=
    if truthy (bs_current branchSummary) then bs_current branchSummary else "main" in
  exists added,
    g_merges (buildBranchGraphFromCommitMap recorded commits branchSummary)
    = inferMerges commits currentBranch ++ added
    /\ (recorded = None -> added = [])
    /\ Forall (fun e =>
                 (exists items, recorded = Some items /\ e ∈ items)
                 /\ m_type e = ThreeWay
                 /\ m_from e ∈ localBranches branchSummary
                 /\ m_to e ∈ localBranches branchSummary
                 /\ pairOf e ∉ map pairOf (inferMerges commits currentBranch))
              added.
Proof.
  intros currentBranch. unfold buildBranchGraphFromCommitMap. cbn [g_merges].
  fold currentBranch.
  pose proof (inferMerges_threeWay commits currentBranch) as Hinferred.
  assert (Forall (fun e => MergeType_eqb (m_type e) ThreeWay = true)
                 (inferMerges commits currentBranch)) as Hkeep.
  { eapply Forall_impl; [exact Hinferred|]. intros e He. simpl in He. by rewrite He. }
  destruct recorded as [items|].
  - destruct (fold_historyStep_appends (localBranches branchSummary) items
                (inferMerges commits currentBranch)) as (added & -> & Hadded).
    exists added. rewrite List.filter_app, (List_filter_all _ _ Hkeep).
    rewrite List_filter_all.
    + split; [done|]. split; [done|].
      eapply Forall_impl; [exact Hadded|]. intros e (? & ? & ? & ? & ?).
      split; [by exists items|done].
    + eapply Forall_impl; [exact Hadded|]. intros e (_ & He & _). simpl. by rewrite He.
  - exists []. rewrite app_nil_r, (List_filter_all _ _ Hkeep).
    split; [done|]. split; [done|apply Forall_nil_2].
Qed.

(* ================================================================== *)
(** * File statistics *)
(* ================================================================== *)

Lemma occurrences_cons path p paths :
  occurrences path (p :: paths)
  = (if String.eqb path p then 1 else 0) + occurrences path paths.
Proof. unfold occurrences. simpl. by destruct (String.eqb path p). Qed.

Lemma occurrences_app path l1 l2 :
  occurrences path (l1 ++ l2) = occurrences path l1 + occurrences path l2.
Proof. unfold occurrences. by rewrite List.filter_app, length_app. Qed.

Lemma countFiles_counts fileStats files path :
  (forall k v, map_get fileStats k = Some v -> 0 < v) ->
  (forall k v, map_get (countFiles fileStats files) k = Some v -> 0 < v)
  /\ countOf (countFiles fileStats files) path
     = countOf fileStats path + occurrences path (List.filter truthy (map trim files)).
Proof.
  revert fileStats. induction files as [|file files IH]; intros fileStats Hpos.
  - split; [done|]. unfold occurrences. simpl. lia.
  - unfold countFiles. cbn [fold_left map List.filter]. fold (countFiles).
    destruct (truthy (trim file)) eqn:Et.
    + set (m1 := map_set fileStats (trim file) (default 0 (map_get fileStats (trim file)) + 1)).
      assert (forall k v, map_get m1 k = Some v -> 0 < v) as Hpos1.
      { intros k v. unfold m1. destruct (decide (k = trim file)) as [->|Hne].
        - rewrite map_get_set_eq. intros [= <-]. lia.
        - rewrite map_get_set_ne by done. apply Hpos. }
      destruct (IH m1 Hpos1) as [Hpos' Hcount].
      change (fold_left _ files m1) with (countFiles m1 files).
      split; [exact Hpos'|]. rewrite Hcount, occurrences_cons. unfold countOf, m1.
      destruct (String.eqb_spec path (trim file)) as [->|Hne].
      * rewrite map_get_set_eq. simpl. lia.
      * rewrite map_get_set_ne by done. lia.
    + change (fold_left _ files fileStats) with (countFiles fileStats files).
      by apply IH.
Qed.

Section FileStatsFacts.
Variable diffTree : string -> option string.
Variable showNames : string -> option string.

Lemma filesOfCommit_nonblank commitHash :
  Forall (fun line => truthy (trim line) = true) (filesOfCommit diffTree showNames commitHash).
Proof.
  assert (forall s, (0 <? String.length s) = true -> truthy s = true) as Hlen.
  { intros s. by destruct s. }
  unfold filesOfCommit. destruct (diffTree commitHash) as [result|].
  - destruct (truthy result); [|apply Forall_nil_2].
    apply Forall_forall. intros line Hin. apply elem_of_List_filter in Hin as [_ Hin].
    by apply Hlen.
  - destruct (showNames commitHash) as [showResult|]; [|apply Forall_nil_2].
    destruct (truthy showResult); [|apply Forall_nil_2].
    apply Forall_forall. intros line Hin. apply elem_of_List_filter in Hin as [_ Hin].
    simpl in Hin. repeat (apply andb_true_iff in Hin as [Hin _]). exact Hin.
Qed.

Lemma fileStatsStep_countFiles fileStats commitHash :
  fileStatsStep diffTree showNames fileStats commitHash
  = countFiles fileStats (filesOfCommit diffTree showNames commitHash).
Proof.
  unfold fileStatsStep, filesOfCommit. destruct (diffTree commitHash) as [result|].
  - by destruct (truthy result).
  - destruct (showNames commitHash) as [showResult|]; [|done].
    by destruct (truthy showResult).
Qed.

Lemma fold_fileStatsStep_counts commitHashes fileStats path :
  (forall k v, map_get fileStats k = Some v -> 0 < v) ->
  (forall k v, map_get (fold_left (fileStatsStep diffTree showNames) commitHashes fileStats) k
               = Some v -> 0 < v)
  /\ countOf (fold_left (fileStatsStep diffTree showNames) commitHashes fileStats) path
     = countOf fileStats path
       + occurrences path
           (map trim (flat_map (filesOfCommit diffTree showNames) commitHashes)).
Proof.
  revert fileStats. induction commitHashes as [|h hs IH]; intros fileStats Hpos.
  - split; [done|]. unfold occurrences. simpl. lia.
  - cbn [fold_left flat_map]. rewrite fileStatsStep_countFiles.
    destruct (countFiles_counts fileStats (filesOfCommit diffTree showNames h) path Hpos)
      as [Hpos1 Hcount1].
    destruct (IH _ Hpos1) as [Hpos' Hcount]. split; [exact Hpos'|].
    rewrite Hcount, Hcount1, map_app, occurrences_app.
    rewrite (List_filter_all truthy); [lia|].
    apply Forall_map. apply filesOfCommit_nonblank.
Qed.

(** X26.  [getFileStats] counts, for every path, the lines that name it
    in the file lists of the first hundred commits of the log (the list
    of [diff-tree], or of [show] where [diff-tree] fails); a path that no
    line names has no entry, and later commits are not read. *)
Theorem getFileStats_counts (all : list string) (path : string) :
  map_get (getFileStats diffTree showNames (Some all)) path
  = match occurrences path
            (map trim (flat_map (filesOfCommit diffTree showNames) (take 100 all))) with
    | 0 => None
    | S n => Some (S n)
    end.
Proof.
  assert (forall k (v : nat), map_get ([] : JsMap nat) k = Some v -> 0 < v) as Hempty by done.
  destruct (fold_fileStatsStep_counts (take 100 all) [] path Hempty) as [Hpos Hcount].
  change (countOf [] path) with 0 in Hcount. rewrite Nat.add_0_l in Hcount.
  unfold getFileStats. destruct all as [|h all]; [done|].
  cbn [length Nat.eqb]. rewrite <- Hcount. unfold countOf.
  destruct (map_get _ path) as [v|] eqn:Hget; simpl; [|done].
  specialize (Hpos path v Hget). destruct v; [lia|done].
Qed.
End FileStatsFacts.

Example getFileStats_sample :
  getFileStats sampleDiffTree sampleShow (Some ["h1"; "h2"; "h3"])
  = [("a.ts", 2); ("b.ts", 1)].
Proof. vm_compute. reflexivity. Qed.

(* ================================================================== *)
(** * The order of the incremental candidates *)
(* ================================================================== *)

Lemma tryCandidates_cons limit clock recorded git storage headHash candidate rest :
  tryCandidates limit clock recorded git storage headHash (candidate :: rest)
  = match tryCandidates limit clock recorded git storage headHash [candidate] with
    | Returned None => tryCandidates limit clock recorded git storage headHash rest
    | result => result
    end.
Proof.
  cbn [tryCandidates].
  destruct (negb (truthy candidate) || String.eqb candidate headHash); [done|].
  destruct (loadBranchGraphFromStorage storage candidate) as [baseGraph|]; [|done].
  destruct (g_dag baseGraph); [|done].
  destruct (negb (isAncestor git candidate headHash)); [done|].
  by destruct (buildBranchGraphIncrementally limit clock recorded git baseGraph candidate
                 headHash) as [[incremental|]|].
Qed.

Lemma tryCandidates_first_usable limit clock recorded git storage headHash candidates graph :
  tryCandidates limit clock recorded git storage headHash candidates
    = Returned (Some graph) ->
  exists before candidate after,
    candidates = before ++ candidate :: after
    /\ Forall (fun c => tryCandidates limit clock recorded git storage headHash [c]
                        = Returned None) before
    /\ tryCandidates limit clock recorded git storage headHash [candidate]
       = Returned (Some graph).
Proof.
  induction candidates as [|c rest IH]; [done|]. rewrite tryCandidates_cons.
  destruct (tryCandidates limit clock recorded git storage headHash [c])
    as [[g|]|] eqn:Ec; [| |done].
  - intros [= ->]. exists [], c, rest. split; [done|]. split; [apply Forall_nil_2|done].
  - intros H. destruct (IH H) as (before & candidate & after & -> & Hbefore & Hc).
    exists (c :: before), candidate, after. split; [done|].
    split; [by apply Forall_cons|done].
Qed.

(** X27.  The incremental snapshot is built on the most recently stored
    head hash that serves: the index splits into the head hashes stored
    earlier, the base, and the head hashes stored later, and each later one
    was tried on its own and gave no snapshot and no exception. *)
Theorem incremental_uses_latest_usable limit clock recorded git st headHash graph :
  tryBuildIncrementalBranchGraph limit clock recorded git (Some st) headHash
    = Returned (Some graph) ->
  exists earlier baseHash later,
    st_index st = earlier ++ baseHash :: later
    /\ Forall (fun c => tryCandidates limit clock recorded git (Some st) headHash [c]
                        = Returned None) later
    /\ tryCandidates limit clock recorded git (Some st) headHash [baseHash]
       = Returned (Some graph).
Proof.
  unfold tryBuildIncrementalBranchGraph.
  destruct (st_index st) as [|h0 index] eqn:Eindex; [done|]. rewrite <- Eindex. clear Eindex.
  intros H. apply tryCandidates_first_usable in H
    as (before & candidate & after & Hrev & Hbefore & Hc).
  exists (rev after), candidate, (rev before). split; [|split; [|done]].
  - rewrite <- (rev_involutive (st_index st)), Hrev, rev_app_distr. simpl.
    by rewrite <- app_assoc.
  - apply Forall_forall. intros c Hin. rewrite Forall_forall in Hbefore. apply Hbefore.
    apply list_elem_of_In, in_rev. by apply list_elem_of_In.
Qed.

Lemma incremental_uses_latest_usable_witness :
  exists earlier baseHash later,
    st_index storedTwice = earlier ++ baseHash :: later
    /\ Forall (fun c => tryCandidates BRANCH_GRAPH_MAX_COMMITS noClock None gitAtC2
                          (Some storedTwice) "c2" [c] = Returned None) later
    /\ tryCandidates BRANCH_GRAPH_MAX_COMMITS noClock None gitAtC2 (Some storedTwice) "c2"
         [baseHash]
       = Returned (Some incrementalAtC2).
Proof.
  apply (incremental_uses_latest_usable BRANCH_GRAPH_MAX_COMMITS noClock None gitAtC2
           storedTwice "c2" incrementalAtC2).
  vm_compute. reflexivity.
Defined.

(* ================================================================== *)
(** * A failed rebuild stays in the storage *)
(* ================================================================== *)

(** X28.  When the log of the full rebuild cannot be read while HEAD can,
    and no stored snapshot serves, [getBranchGraph] stores the empty
    snapshot under the head hash; from then on every call without
    [forceRefresh] at that head returns the empty snapshot from the
    storage, also when git answers again. *)
Theorem failed_rebuild_is_persisted limit clock recorded git git' st out :
  git_revparseHead git = Some out ->
  truthy (trim out) = true ->
  git_logAll git = None ->
  loadBranchGraphFromStorage (Some st) (trim out) = None ->
  tryBuildIncrementalBranchGraph limit clock recorded git (Some st) (trim out)
    = Returned None ->
  git_revparseHead git' = Some out ->
  exists st',
    getBranchGraph limit clock recorded None (Some git) (Some st) false
      = Returned (emptyGraph, Some st')
    /\ getBranchGraph limit clock recorded None (Some git') (Some st') false
       = Returned (emptyGraph, Some st').
Proof.
  intros Hhead Hout Hlog Hload Hinc Hhead'.
  assert (getBranchGraph limit clock recorded None (Some git) (Some st) false
          = Returned (emptyGraph, saveBranchGraphToStorage (Some st) (trim out) emptyGraph))
    as Hfirst.
  { unfold getBranchGraph. rewrite Hhead, Hout. cbn [negb andb]. rewrite Hload, Hinc.
    unfold buildFullBranchGraph. by rewrite Hlog. }
  pose proof (getBranchGraph_persists _ _ _ _ _ _ _ _ _ Hhead Hout Hfirst) as Hstored.
  destruct (saveBranchGraphToStorage (Some st) (trim out) emptyGraph) as [st'|] eqn:Hsave.
  2:{ unfold saveBranchGraphToStorage in Hsave. by destruct (negb (truthy (trim out))). }
  exists st'. split; [exact Hfirst|].
  unfold getBranchGraph. rewrite Hhead', Hout. cbn [negb andb]. by rewrite Hstored.
Qed.

Lemma failed_rebuild_is_persisted_witness :
  exists st',
    getBranchGraph 800 noClock None None (Some gitLogFails) (Some emptyStorage) false
      = Returned (emptyGraph, Some st')
    /\ getBranchGraph 800 noClock None None (Some gitAtC1) (Some st') false
       = Returned (emptyGraph, Some st').
Proof.
  apply (failed_rebuild_is_persisted 800 noClock None gitLogFails gitAtC1 emptyStorage "c1");
    reflexivity.
Defined.
